(** * Configuration resolution utilities of stac-generator

    A shallow embedding of [stac_generator/core/utils.py] (and of the older
    copy in [asset_scanner/core/utils.py]): [dict_merge], [dot2dict],
    [nested_get] and [load_plugins], together with the properties that the
    design document states about them; then the other functions of the
    module, [Coordinates], [Stats.from_boto], [is_remote_uri] and
    [isoformat_date], and the [ceda_observation] preprocessor, with
    properties read off the code.

    Python values are modelled by the inductive type [value]: the values a
    parsed YAML/JSON document is made of, without floating point numbers.
    A Python [dict] with string keys is an association list in insertion
    order; Python's [==] is the boolean function [py_eq]. *)

From Stdlib Require Import List String Ascii ZArith Bool Lia PeanoNat Permutation.
From Equations Require Import Equations.
Import ListNotations.

Local Open Scope string_scope.
Local Open Scope list_scope.

(** ** Exceptions and results *)

Inductive exn : Type :=
| AssertionError
| TypeError
| IndexError
| KeyError
| AttributeError
| NoPluginsError (msg : string).

Inductive result (A : Type) : Type :=
| Ok (a : A)
| Raise (e : exn).
Arguments Ok {A} a.
Arguments Raise {A} e.

Definition bind {A B} (m : result A) (f : A -> result B) : result B :=
  match m with
  | Ok a => f a
  | Raise e => Raise e
  end.

Declare Scope result_scope.
Delimit Scope result_scope with result.
Notation "x <- m ;; k" := (bind m (fun x => k))
  (at level 61, m at next level, right associativity) : result_scope.
Local Open Scope result_scope.

(** ** Python values *)

#[local] Set Warnings "-register-all".

Inductive value : Type :=
| VNone
| VBool (b : bool)
| VInt (z : Z)
| VStr (s : string)
| VList (l : list value)
| VDict (d : list (string * value)).

Definition dict : Type := list (string * value).

(** The runtime type of a value, [type(v)]. *)
Inductive pytype : Type := TNone | TBool | TInt | TStr | TList | TDict.

Definition type_of (v : value) : pytype :=
  match v with
  | VNone => TNone
  | VBool _ => TBool
  | VInt _ => TInt
  | VStr _ => TStr
  | VList _ => TList
  | VDict _ => TDict
  end.

Definition pytype_eqb (s t : pytype) : bool :=
  match s, t with
  | TNone, TNone | TBool, TBool | TInt, TInt
  | TStr, TStr | TList, TList | TDict, TDict => true
  | _, _ => false
  end.

(** [issubclass s t]: in Python [bool] is a subclass of [int]. *)
Definition issubclass (s t : pytype) : bool :=
  match s, t with
  | TBool, TInt => true
  | _, _ => pytype_eqb s t
  end.

Definition isinstance (v : value) (t : pytype) : bool :=
  issubclass (type_of v) t.

(** Truth value testing, [bool(v)]. *)
Definition truthy (v : value) : bool :=
  match v with
  | VNone => false
  | VBool b => b
  | VInt z => negb (Z.eqb z 0)
  | VStr s => negb (String.eqb s "")
  | VList l => match l with [] => false | _ => true end
  | VDict d => match d with [] => false | _ => true end
  end.

(** *** Dictionaries *)

Fixpoint dict_get (k : string) (d : dict) : option value :=
  match d with
  | [] => None
  | (k', v) :: d' => if String.eqb k k' then Some v else dict_get k d'
  end.

Definition dict_mem (k : string) (d : dict) : bool :=
  match dict_get k d with Some _ => true | None => false end.

(** [d[k] = v]: an existing key keeps its position, a new key goes last. *)
Fixpoint dict_set (k : string) (v : value) (d : dict) : dict :=
  match d with
  | [] => [(k, v)]
  | (k', v') :: d' =>
      if String.eqb k k' then (k', v) :: d' else (k', v') :: dict_set k v d'
  end.

Definition keys (d : dict) : list string := map fst d.

(** *** Equality, [x == y]

    [True == 1] and [False == 0] hold in Python; lists are compared
    element by element, dictionaries key by key whatever the order. *)
Fixpoint py_eq (x y : value) {struct x} : bool :=
  match x, y with
  | VNone, VNone => true
  | VBool a, VBool b => Bool.eqb a b
  | VBool a, VInt z => Z.eqb (Z.b2z a) z
  | VInt z, VBool a => Z.eqb z (Z.b2z a)
  | VInt a, VInt b => Z.eqb a b
  | VStr a, VStr b => String.eqb a b
  | VList a, VList b =>
      (fix list_eq (a b : list value) {struct a} : bool :=
         match a, b with
         | [], [] => true
         | x :: a', y :: b' => py_eq x y && list_eq a' b'
         | _, _ => false
         end) a b
  | VDict a, VDict b =>
      Nat.eqb (List.length a) (List.length b) &&
      forallb (fun kv => match dict_get (fst kv) b with
                         | Some w => py_eq (snd kv) w
                         | None => false
                         end) a
  | _, _ => false
  end.

(** [x in l] for a list [l]. *)
Definition py_in (x : value) (l : list value) : bool :=
  existsb (fun e => py_eq e x) l.

(** ** [dict_merge] (stac_generator) *)

Definition is_list (v : value) : bool :=
  match v with VList _ => true | _ => false end.

Definition elements (v : value) : list value :=
  match v with VList l => l | _ => [] end.

(** The inner loop over a list value:
    [for list_value in v: if list_value not in rtn_dct[k]: rtn_dct[k].append(list_value)]. *)
Fixpoint extend_unique (acc v : list value) : list value :=
  match v with
  | [] => acc
  | x :: v' => extend_unique (if py_in x acc then acc else acc ++ [x]) v'
  end.

Section MergeLoop.
(** [on_truthy old v] is what the body does with an incoming value [v]
    for a key whose current value [old] is truthy (the [elif] chain);
    [selected k] is the [add_keys] filter. *)
Variable on_truthy : value -> value -> result value.
Variable selected : string -> bool.

(** [for k, v in merge_dct.items(): ...] *)
Fixpoint merge_items (rtn_dct : dict) (items : dict) {struct items} : result dict :=
  match items with
  | [] => Ok rtn_dct
  | (k, v) :: rest =>
      if selected k then
        match dict_get k rtn_dct with
        | Some old =>
            if truthy old then
              r <- on_truthy old v ;;
              merge_items (dict_set k r rtn_dct) rest
            else merge_items (dict_set k v rtn_dct) rest
        | None => merge_items (dict_set k v rtn_dct) rest
        end
      else merge_items rtn_dct rest
  end.
End MergeLoop.

(** The filter of the [add_keys is False] case: only the keys of
    [set(rtn_dct).intersection(set(merge_dct))] are visited. *)
Definition key_filter (add_keys : bool) (rtn_dct : dict) (k : string) : bool :=
  add_keys || dict_mem k rtn_dct.

(** The reconciliation of mismatched types (lines 173-180). *)
Definition reconcile (old v : value) : result value :=
  if is_list v && py_in old (elements v) then Ok v
  else if is_list old && py_in v (elements old) then Ok old
  else Raise TypeError.

(** One iteration of the loop body for a key whose value [old] is truthy.
    The recursive call [dict_merge(rtn_dct[k], merge_dct[k], add_keys=add_keys)]
    copies [old] and runs the loop over the single incoming layer. *)
Fixpoint merge_value (add_keys : bool) (old v : value) {struct v} : result value :=
  if negb (isinstance v (type_of old)) then reconcile old v
  else
    match old, v with
    | VDict rtn_dct, VDict merge_dct =>
        r <- merge_items (merge_value add_keys) (key_filter add_keys rtn_dct)
               rtn_dct merge_dct ;;
        Ok (VDict r)
    | _, VList l => Ok (VList (extend_unique (elements old) l))
    | _, _ => Ok v
    end.

(** Merging one layer into the accumulator: the body of
    [for merge_dct in merge_dicts]. *)
Definition merge_layer (add_keys : bool) (rtn_dct merge_dct : dict) : result dict :=
  merge_items (merge_value add_keys) (key_filter add_keys rtn_dct) rtn_dct merge_dct.

Fixpoint merge_layers (add_keys : bool) (rtn_dct : dict) (merge_dicts : list dict)
  : result dict :=
  match merge_dicts with
  | [] => Ok rtn_dct
  | merge_dct :: rest =>
      r <- merge_layer add_keys rtn_dct merge_dct ;;
      merge_layers add_keys r rest
  end.

Definition dict_merge (args : list dict) (add_keys : bool) : result dict :=
  match args with
  | rtn_dct :: ((_ :: _) as merge_dicts) => merge_layers add_keys rtn_dct merge_dicts
  | _ => Raise AssertionError
  end.

(** ** [dict_merge] (asset_scanner)

    The older copy compares the exact types, [type(v) != type(rtn_dct[k])],
    and has no reconciliation: a mismatch is always a [TypeError]. *)

Module AssetScanner.

Fixpoint merge_value (add_keys : bool) (old v : value) {struct v} : result value :=
  if negb (pytype_eqb (type_of v) (type_of old)) then Raise TypeError
  else
    match old, v with
    | VDict rtn_dct, VDict merge_dct =>
        r <- merge_items (merge_value add_keys) (key_filter add_keys rtn_dct)
               rtn_dct merge_dct ;;
        Ok (VDict r)
    | _, VList l => Ok (VList (extend_unique (elements old) l))
    | _, _ => Ok v
    end.

Definition merge_layer (add_keys : bool) (rtn_dct merge_dct : dict) : result dict :=
  merge_items (merge_value add_keys) (key_filter add_keys rtn_dct) rtn_dct merge_dct.

Fixpoint merge_layers (add_keys : bool) (rtn_dct : dict) (merge_dicts : list dict)
  : result dict :=
  match merge_dicts with
  | [] => Ok rtn_dct
  | merge_dct :: rest =>
      r <- merge_layer add_keys rtn_dct merge_dct ;;
      merge_layers add_keys r rest
  end.

Definition dict_merge (args : list dict) (add_keys : bool) : result dict :=
  match args with
  | rtn_dct :: ((_ :: _) as merge_dicts) => merge_layers add_keys rtn_dct merge_dicts
  | _ => Raise AssertionError
  end.

End AssetScanner.

(** ** Well-formed values

    A Python dictionary holds each key once; [wf v] says so for every
    dictionary inside [v]. *)

Fixpoint nodupb (l : list string) : bool :=
  match l with
  | [] => true
  | k :: l' => negb (existsb (String.eqb k) l') && nodupb l'
  end.

Fixpoint wf (v : value) : bool :=
  match v with
  | VList l => forallb wf l
  | VDict d => nodupb (map fst d) && forallb (fun kv => wf (snd kv)) d
  | _ => true
  end.

Definition wf_dict (d : dict) : bool := wf (VDict d).

(** ** An induction principle that reaches inside lists and dictionaries *)

Section ValueInd.
Variable P : value -> Prop.
Hypothesis PNone : P VNone.
Hypothesis PBool : forall b, P (VBool b).
Hypothesis PInt : forall z, P (VInt z).
Hypothesis PStr : forall s, P (VStr s).
Hypothesis PList : forall l, Forall P l -> P (VList l).
Hypothesis PDict : forall d, Forall (fun kv => P (snd kv)) d -> P (VDict d).

Fixpoint value_nested_ind (v : value) : P v :=
  match v with
  | VNone => PNone
  | VBool b => PBool b
  | VInt z => PInt z
  | VStr s => PStr s
  | VList l =>
      PList l
        ((fix go (l : list value) : Forall P l :=
            match l with
            | [] => Forall_nil P
            | x :: l' => Forall_cons x (value_nested_ind x) (go l')
            end) l)
  | VDict d =>
      PDict d
        ((fix go (d : list (string * value)) : Forall (fun kv => P (snd kv)) d :=
            match d with
            | [] => Forall_nil _
            | kv :: d' => Forall_cons kv (value_nested_ind (snd kv)) (go d')
            end) d)
  end.
End ValueInd.

(** ** [nested_get] *)

(** [obj.get(key, default)]; only a mapping has the method. *)
Definition py_get (obj : value) (key : string) (default : value) : result value :=
  match obj with
  | VDict d => Ok (match dict_get key d with Some v => v | None => default end)
  | _ => Raise AttributeError
  end.

(** The loop [for key in key_list]; falling off its end returns [None]. *)
Fixpoint nested_get_loop (last_key : string) (key_list : list string)
    (dict_nest : value) : result value :=
  match key_list with
  | [] => Ok VNone
  | key :: rest =>
      if negb (String.eqb key last_key) then
        d <- py_get dict_nest key (VDict []) ;;
        nested_get_loop last_key rest d
      else py_get dict_nest key VNone
  end.

(** [key_list[-1]] *)
Definition last_item (key_list : list string) : result string :=
  match rev key_list with
  | [] => Raise IndexError
  | k :: _ => Ok k
  end.

Definition nested_get (key_list : list string) (input_dict : dict) : result value :=
  last_key <- last_item key_list ;;
  nested_get_loop last_key key_list (VDict input_dict).

(** ** [dot2dict] *)

(** [s.split(sep)] for a one-character separator. *)
Fixpoint split (sep : ascii) (s : string) : list string :=
  match s with
  | EmptyString => [EmptyString]
  | String c s' =>
      if Ascii.eqb c sep then EmptyString :: split sep s'
      else match split sep s' with
           | seg :: segs => String c seg :: segs
           | [] => [String c EmptyString]
           end
  end.

(** [sep.join(parts)] *)
Definition join (sep : string) (parts : list string) : string :=
  String.concat sep parts.

Definition dot : ascii := "."%char.

(** [tail = parts.pop()] returns the last part and leaves the others. *)
Definition pop (parts : list string) : string * list string :=
  (last parts EmptyString, removelast parts).

Lemma length_append (s t : string) :
  String.length (s ++ t)%string = String.length s + String.length t.
Proof. induction s as [|c s IH]; simpl; [reflexivity | now rewrite IH]. Qed.

Lemma split_not_nil (sep : ascii) (s : string) : split sep s <> [].
Proof.
  destruct s as [|c s]; simpl; [discriminate|].
  destruct (Ascii.eqb c sep); [discriminate|].
  destruct (split sep s); discriminate.
Qed.

Lemma join_split (sep : ascii) (s : string) :
  join (String sep EmptyString) (split sep s) = s.
Proof.
  induction s as [|c s IH]; simpl; [reflexivity|].
  destruct (Ascii.eqb_spec c sep) as [->|Hc].
  - generalize (split_not_nil sep s).
    unfold join in *. simpl. destruct (split sep s); [congruence|].
    intros _. simpl. now rewrite <- IH.
  - generalize (split_not_nil sep s).
    unfold join in *. destruct (split sep s) as [|seg segs]; [congruence|].
    intros _. rewrite <- IH. simpl. destruct segs; reflexivity.
Qed.

Lemma join_removelast_shorter (p : string) (ps : list string) :
  ps <> [] ->
  String.length (join "." (removelast (p :: ps))) < String.length (join "." (p :: ps)).
Proof.
  unfold join. revert p. induction ps as [|q qs IH]; [congruence|]. intros p _.
  change (concat "." (p :: q :: qs)) with (p ++ "." ++ concat "." (q :: qs))%string.
  change (removelast (p :: q :: qs)) with (p :: removelast (q :: qs)).
  destruct qs as [|q' qs].
  - simpl. rewrite !length_append. simpl. lia.
  - specialize (IH q ltac:(discriminate)).
    change (removelast (q :: q' :: qs)) with (q :: removelast (q' :: qs)) in *.
    change (concat "." (p :: q :: removelast (q' :: qs)))
      with (p ++ "." ++ concat "." (q :: removelast (q' :: qs)))%string.
    rewrite !length_append. lia.
Qed.

Lemma join_pop_decreases (key : string) :
  key <> EmptyString ->
  String.length (join "." (snd (pop (split dot key)))) < String.length key.
Proof.
  intros Hkey.
  assert (Hs : split dot key <> []) by apply split_not_nil.
  assert (Hj : join "." (split dot key) = key) by apply (join_split dot).
  unfold pop; simpl snd.
  destruct (split dot key) as [|p ps]; [congruence|].
  destruct ps as [|q qs].
  - destruct key; [congruence | simpl; lia].
  - rewrite <- Hj. apply join_removelast_shorter. discriminate.
Qed.

(** The recursion of [dot2dict] is on a key that gets shorter: the last
    segment is cut off at each call. *)
Equations dot2dict (key : string) (val : value) : value
  by wf (String.length key) lt :=
  dot2dict EmptyString val := val;
  dot2dict (String c s) val :=
    dot2dict (join "." (snd (pop (split dot (String c s)))))
             (VDict [(fst (pop (split dot (String c s))), val)]).
Next Obligation. apply (join_pop_decreases (String c s)). discriminate. Qed.

(** ** [load_plugins]

    [HandlerPicker] is not part of these files: the call
    [HandlerPicker(entry_point).get_processor], applied to the entries of
    [plugin_conf] as keyword arguments, is a parameter that either returns
    an instance or raises. *)

Section LoadPlugins.
Variable instance : Type.
Variable failure : Type.
Variable get_processor : string -> dict -> instance + failure.

(** What [LOGGER.error] receives: the value of [plugin_conf["name"]] and
    the exception that was caught. *)
Record diagnostic : Type := Diagnostic { plugin_name : value; detail : failure }.

(** Iterating over a value: a list yields its elements, a dictionary its
    keys, a string its characters; nothing else is iterable. *)
Fixpoint characters (s : string) : list value :=
  match s with
  | EmptyString => []
  | String c s' => VStr (String c EmptyString) :: characters s'
  end.

Definition iterate (v : value) : result (list value) :=
  match v with
  | VList l => Ok l
  | VDict d => Ok (map (fun kv => VStr (fst kv)) d)
  | VStr s => Ok (characters s)
  | _ => Raise TypeError
  end.

(** The [for] loop with its [try]/[except Exception].  A [plugin_conf]
    that is not a mapping makes the keyword unpacking raise inside the [try],
    and [plugin_conf["name"]] raise again inside the handler; a mapping
    without ["name"] makes the handler raise [KeyError]. *)
Fixpoint load_loop (entry_point : string) (plugin_confs : list value)
    (loaded_plugins : list instance) (log : list diagnostic)
  : result (list instance) * list diagnostic :=
  match plugin_confs with
  | [] => (Ok loaded_plugins, log)
  | plugin_conf :: rest =>
      match plugin_conf with
      | VDict kwargs =>
          match get_processor entry_point kwargs with
          | inl loaded_plugin =>
              load_loop entry_point rest (loaded_plugins ++ [loaded_plugin]) log
          | inr e =>
              match dict_get "name" kwargs with
              | Some name =>
                  load_loop entry_point rest loaded_plugins
                    (log ++ [Diagnostic name e])
              | None => (Raise KeyError, log)
              end
          end
      | _ => (Raise TypeError, log)
      end
  end.

Definition no_plugins_message (conf_section : string) : string :=
  ("No plugins were successfully loaded from " ++ conf_section)%string.

Definition load_plugins (conf : dict) (entry_point conf_section : string)
  : result (list instance) * list diagnostic :=
  match dict_get conf_section conf with
  | None => (Raise KeyError, [])
  | Some section =>
      match iterate section with
      | Raise e => (Raise e, [])
      | Ok plugin_confs =>
          match load_loop entry_point plugin_confs [] [] with
          | (Ok [], log) => (Raise (NoPluginsError (no_plugins_message conf_section)), log)
          | (Ok loaded_plugins, log) => (Ok loaded_plugins, log)
          | (Raise e, log) => (Raise e, log)
          end
      end
  end.

(** The specs of a section that [get_processor] accepts, and those it
    rejects, in their order. *)
Fixpoint instances_of (entry_point : string) (specs : list dict) : list instance :=
  match specs with
  | [] => []
  | kwargs :: rest =>
      match get_processor entry_point kwargs with
      | inl p => p :: instances_of entry_point rest
      | inr _ => instances_of entry_point rest
      end
  end.

Fixpoint failures_of (entry_point : string) (specs : list dict)
  : list (dict * failure) :=
  match specs with
  | [] => []
  | kwargs :: rest =>
      match get_processor entry_point kwargs with
      | inl _ => failures_of entry_point rest
      | inr e => (kwargs, e) :: failures_of entry_point rest
      end
  end.

(** A plugin spec is a mapping that has a ["name"]. *)
Definition has_name (kwargs : dict) : Prop := dict_get "name" kwargs <> None.

Definition name_of (kwargs : dict) : value :=
  match dict_get "name" kwargs with Some n => n | None => VNone end.
End LoadPlugins.

Arguments Diagnostic {failure} plugin_name detail.
Arguments plugin_name {failure} d.
Arguments detail {failure} d.

(** ** [dict_merge] over a store of mutable objects

    Lists and dictionaries are Python objects: [args[0].copy()] copies one
    dictionary and shares everything below it, [rtn_dct[k] = v] shares [v]
    with the incoming layer, and [append] changes a list in place.  In this
    second embedding a value is a scalar or a reference into a store, so
    that sharing between the layers and the result is visible. *)

Module Heap.

Definition ref : Type := nat.

Inductive hvalue : Type :=
| HNone
| HBool (b : bool)
| HInt (z : Z)
| HStr (s : string)
| HRef (r : ref).

Inductive object : Type :=
| OList (items : list hvalue)
| ODict (items : list (string * hvalue)).

Definition heap : Type := list object.

(** A computation reads and writes the store and returns, raises, or is
    stuck ([None]: a dangling reference, or the fuel ran out). *)
Definition M (A : Type) : Type := heap -> option (result A * heap).

Definition ret {A} (a : A) : M A := fun h => Some (Ok a, h).
Definition raise {A} (e : exn) : M A := fun h => Some (Raise e, h).
Definition stuck {A} : M A := fun _ => None.
Definition mbind {A B} (m : M A) (f : A -> M B) : M B :=
  fun h =>
    match m h with
    | Some (Ok a, h') => f a h'
    | Some (Raise e, h') => Some (Raise e, h')
    | None => None
    end.

Declare Scope heap_scope.
Delimit Scope heap_scope with heap.
Notation "x <- m ;; k" := (mbind m (fun x => k))
  (at level 61, m at next level, right associativity) : heap_scope.
Notation "m ;; k" := (mbind m (fun _ => k))
  (at level 61, right associativity) : heap_scope.
Local Open Scope heap_scope.

Definition new_object (o : object) : M hvalue :=
  fun h => Some (Ok (HRef (List.length h)), h ++ [o]).

Definition read (r : ref) : M object :=
  fun h => match nth_error h r with
           | Some o => Some (Ok o, h)
           | None => None
           end.

Fixpoint update (h : heap) (r : ref) (o : object) : heap :=
  match h, r with
  | [], _ => []
  | _ :: h', O => o :: h'
  | x :: h', S r' => x :: update h' r' o
  end.

Definition write (r : ref) (o : object) : M unit :=
  fun h => Some (Ok tt, update h r o).

Fixpoint for_each {A} (f : A -> M unit) (l : list A) : M unit :=
  match l with
  | [] => ret tt
  | x :: l' => f x ;; for_each f l'
  end.

Fixpoint hget (k : string) (d : list (string * hvalue)) : option hvalue :=
  match d with
  | [] => None
  | (k', v) :: d' => if String.eqb k k' then Some v else hget k d'
  end.

Fixpoint hset (k : string) (v : hvalue) (d : list (string * hvalue))
  : list (string * hvalue) :=
  match d with
  | [] => [(k, v)]
  | (k', v') :: d' =>
      if String.eqb k k' then (k', v) :: d' else (k', v') :: hset k v d'
  end.

Definition type_of (v : hvalue) : M pytype :=
  match v with
  | HNone => ret TNone
  | HBool _ => ret TBool
  | HInt _ => ret TInt
  | HStr _ => ret TStr
  | HRef r =>
      o <- read r ;;
      match o with OList _ => ret TList | ODict _ => ret TDict end
  end.

Definition truthy (v : hvalue) : M bool :=
  match v with
  | HNone => ret false
  | HBool b => ret b
  | HInt z => ret (negb (Z.eqb z 0))
  | HStr s => ret (negb (String.eqb s ""))
  | HRef r =>
      o <- read r ;;
      match o with
      | OList [] | ODict [] => ret false
      | _ => ret true
      end
  end.

(** *** Equality: the same object, or equal contents *)

Section Equality.
Variable eq : hvalue -> hvalue -> option bool.

Fixpoint all2 (a b : list hvalue) : option bool :=
  match a, b with
  | [], [] => Some true
  | x :: a', y :: b' =>
      match eq x y with
      | Some true => all2 a' b'
      | other => other
      end
  | _, _ => Some false
  end.

Fixpoint all_items (a b : list (string * hvalue)) : option bool :=
  match a with
  | [] => Some true
  | (k, v) :: a' =>
      match hget k b with
      | None => Some false
      | Some w =>
          match eq v w with
          | Some true => all_items a' b
          | other => other
          end
      end
  end.

Fixpoint any (x : hvalue) (l : list hvalue) : option bool :=
  match l with
  | [] => Some false
  | e :: l' =>
      match eq e x with
      | Some false => any x l'
      | other => other
      end
  end.
End Equality.

Fixpoint heq (fuel : nat) (h : heap) (x y : hvalue) : option bool :=
  match x, y with
  | HNone, HNone => Some true
  | HBool a, HBool b => Some (Bool.eqb a b)
  | HBool a, HInt z => Some (Z.eqb (Z.b2z a) z)
  | HInt z, HBool a => Some (Z.eqb z (Z.b2z a))
  | HInt a, HInt b => Some (Z.eqb a b)
  | HStr a, HStr b => Some (String.eqb a b)
  | HRef r1, HRef r2 =>
      if Nat.eqb r1 r2 then Some true
      else
        match fuel with
        | O => None
        | S n =>
            match nth_error h r1, nth_error h r2 with
            | Some (OList a), Some (OList b) => all2 (heq n h) a b
            | Some (ODict a), Some (ODict b) =>
                if Nat.eqb (List.length a) (List.length b)
                then all_items (heq n h) a b
                else Some false
            | Some _, Some _ => Some false
            | _, _ => None
            end
        end
  | _, _ => Some false
  end.

(** [x in l], for the list object [l]. *)
Definition contains (fuel : nat) (x : hvalue) (l : ref) : M bool :=
  fun h =>
    match nth_error h l with
    | Some (OList items) =>
        match any (heq fuel h) x items with
        | Some b => Some (Ok b, h)
        | None => None
        end
    | _ => None
    end.

(** *** The merge *)

Section Body.
Variable fuel : nat.
(** The recursive call [dict_merge(rtn_dct[k], merge_dct[k], add_keys=add_keys)]. *)
Variable dict_merge_rec : list hvalue -> bool -> M hvalue.
Variable add_keys : bool.

Definition get_dict (v : hvalue) : M (list (string * hvalue)) :=
  match v with
  | HRef r =>
      o <- read r ;;
      match o with
      | ODict d => ret d
      | OList _ => raise AttributeError
      end
  | _ => raise AttributeError
  end.

(** [rtn_dct[k] = v] *)
Definition set_item (rtn_dct : ref) (k : string) (v : hvalue) : M unit :=
  d <- get_dict (HRef rtn_dct) ;;
  write rtn_dct (ODict (hset k v d)).

(** [for list_value in v: if list_value not in rtn_dct[k]:
    rtn_dct[k].append(list_value)]: the iteration reads the list [v]
    by index, as it is when the index is reached. *)
Fixpoint extend_loop (n : nat) (v old : ref) (i : nat) : M unit :=
  match n with
  | O => stuck
  | S n' =>
      src <- read v ;;
      match src with
      | ODict _ => stuck
      | OList items =>
          match nth_error items i with
          | None => ret tt
          | Some list_value =>
              present <- contains fuel list_value old ;;
              (if present then ret tt
               else
                 dst <- read old ;;
                 match dst with
                 | OList olds => write old (OList (olds ++ [list_value]))
                 | ODict _ => stuck
                 end) ;;
              extend_loop n' v old (S i)
          end
      end
  end.

Definition member_of (x v : hvalue) (tv : pytype) : M bool :=
  match tv, v with
  | TList, HRef l => contains fuel x l
  | _, _ => ret false
  end.

(** The body of [for k, v in merge_dct.items()]. *)
Definition merge_step (rtn_dct : ref) (kv : string * hvalue) : M unit :=
  let (k, v) := kv in
  d <- get_dict (HRef rtn_dct) ;;
  match hget k d with
  | None => set_item rtn_dct k v
  | Some old =>
      t <- truthy old ;;
      if negb t then set_item rtn_dct k v
      else
        tv <- type_of v ;;
        told <- type_of old ;;
        if negb (issubclass tv told) then
          old_in_v <- member_of old v tv ;;
          if old_in_v then set_item rtn_dct k v
          else
            v_in_old <- member_of v old told ;;
            if v_in_old then set_item rtn_dct k old
            else raise TypeError
        else
          match told, tv with
          | TDict, TDict =>
              r <- dict_merge_rec [old; v] add_keys ;;
              set_item rtn_dct k r
          | _, TList =>
              match v, old with
              | HRef rv, HRef ro => extend_loop fuel rv ro 0
              | _, _ => stuck
              end
          | _, _ => set_item rtn_dct k v
          end
  end.

Definition merge_layer (rtn_dct : ref) (merge_dct : hvalue) : M unit :=
  items <- get_dict merge_dct ;;
  present <- get_dict (HRef rtn_dct) ;;
  let selected :=
    if add_keys then items
    else filter (fun kv => match hget (fst kv) present with
                           | Some _ => true
                           | None => false
                           end) items in
  for_each (merge_step rtn_dct) selected.

Definition dict_merge_body (args : list hvalue) : M hvalue :=
  match args with
  | root :: ((_ :: _) as merge_dicts) =>
      d <- get_dict root ;;
      rtn <- new_object (ODict d) ;;
      match rtn with
      | HRef rtn_dct =>
          for_each (merge_layer rtn_dct) merge_dicts ;;
          ret rtn
      | _ => stuck
      end
  | _ => raise AssertionError
  end.
End Body.

Fixpoint dict_merge (fuel : nat) (args : list hvalue) (add_keys : bool) : M hvalue :=
  match fuel with
  | O => stuck
  | S n => dict_merge_body fuel (dict_merge n) add_keys args
  end.

(** *** Moving between plain values and the store *)

(** A plain value is built in the store as a tree of fresh objects. *)
Section Building.
Variable build : value -> M hvalue.

Fixpoint build_all (l : list value) : M (list hvalue) :=
  match l with
  | [] => ret []
  | x :: l' => hx <- build x ;; hl <- build_all l' ;; ret (hx :: hl)
  end.

Fixpoint build_items (d : list (string * value)) : M (list (string * hvalue)) :=
  match d with
  | [] => ret []
  | kv :: d' =>
      hx <- build (snd kv) ;; hl <- build_items d' ;; ret ((fst kv, hx) :: hl)
  end.
End Building.

Fixpoint alloc (v : value) : M hvalue :=
  match v with
  | VNone => ret HNone
  | VBool b => ret (HBool b)
  | VInt z => ret (HInt z)
  | VStr s => ret (HStr s)
  | VList l => items <- build_all alloc l ;; new_object (OList items)
  | VDict d => items <- build_items alloc d ;; new_object (ODict items)
  end.

(** The plain value that a store value stands for. *)
Section Reading.
Variable read : hvalue -> option value.

Fixpoint read_all (l : list hvalue) : option (list value) :=
  match l with
  | [] => Some []
  | x :: l' =>
      match read x, read_all l' with
      | Some a, Some b => Some (a :: b)
      | _, _ => None
      end
  end.

Fixpoint read_items (d : list (string * hvalue)) : option (list (string * value)) :=
  match d with
  | [] => Some []
  | (k, x) :: d' =>
      match read x, read_items d' with
      | Some a, Some b => Some ((k, a) :: b)
      | _, _ => None
      end
  end.
End Reading.

Fixpoint reify (fuel : nat) (h : heap) (v : hvalue) : option value :=
  match v with
  | HNone => Some VNone
  | HBool b => Some (VBool b)
  | HInt z => Some (VInt z)
  | HStr s => Some (VStr s)
  | HRef r =>
      match fuel with
      | O => None
      | S n =>
          match nth_error h r with
          | Some (OList items) => option_map VList (read_all (reify n h) items)
          | Some (ODict items) => option_map VDict (read_items (reify n h) items)
          | None => None
          end
      end
  end.

End Heap.

(** Equality of two lists, element by element. *)
Fixpoint py_eq_list (a b : list value) : bool :=
  match a, b with
  | [], [] => true
  | x :: a', y :: b' => py_eq x y && py_eq_list a' b'
  | _, _ => false
  end.

(** ** The loop body, key by key

    What one iteration does to the value under its key: [merge_entry] is
    the [if not rtn_dct.get(k)] test followed by the [elif] chain, and
    [merge_opt] extends it to a key that the incoming layer may not have. *)

Definition merge_entry (on_truthy : value -> value -> result value)
    (current : option value) (v : value) : result value :=
  match current with
  | Some old => if truthy old then on_truthy old v else Ok v
  | None => Ok v
  end.

Definition merge_opt (on_truthy : value -> value -> result value)
    (current incoming : option value) : result (option value) :=
  match incoming with
  | None => Ok current
  | Some v => x <- merge_entry on_truthy current v ;; Ok (Some x)
  end.

(** The [elif] chain sorted by the kinds of the two values. *)
Definition merge_cases (add_keys : bool) (old v : value) : result value :=
  match old, v with
  | VDict rtn_dct, VDict merge_dct =>
      r <- merge_layer add_keys rtn_dct merge_dct ;; Ok (VDict r)
  | VList l, VList l' => Ok (VList (extend_unique l l'))
  | _, VList l' => if py_in old l' then Ok v else Raise TypeError
  | VList l, _ => if py_in v l then Ok old else Raise TypeError
  | _, _ => if isinstance v (type_of old) then Ok v else Raise TypeError
  end.

(** Associativity, for the values under one key: [a] and [b] may be
    absent, [c] is the value of the last layer. *)
Definition wf_option (o : option value) : Prop :=
  forall v, o = Some v -> wf v = true.

Definition assoc_at (c : value) : Prop :=
  forall (a b ab : option value) (l bc r : value),
    wf_option a -> wf_option b -> wf c = true ->
    merge_opt (merge_value true) a b = Ok ab ->
    merge_entry (merge_value true) ab c = Ok l ->
    merge_entry (merge_value true) b c = Ok bc ->
    merge_entry (merge_value true) a bc = Ok r ->
    l = r.

(** The diagnostic logged for a rejected spec. *)
Definition diagnostic_of {failure : Type} (rejected : dict * failure)
  : diagnostic failure :=
  Diagnostic (name_of (fst rejected)) (snd rejected).

(** ** Definitions that follow the wording of the design document *)

(** "Same general category": mapping, sequence, or scalar. *)
Inductive category : Type := Mapping | Sequence | Scalar.

Definition category_of (v : value) : category :=
  match v with
  | VDict _ => Mapping
  | VList _ => Sequence
  | _ => Scalar
  end.

Definition category_eqb (c1 c2 : category) : bool :=
  match c1, c2 with
  | Mapping, Mapping | Sequence, Sequence | Scalar, Scalar => true
  | _, _ => false
  end.

(** "Each element of the incoming sequence not already present by
    equality, in order of first appearance": [seen] holds what is present. *)
Fixpoint first_appearances (seen v : list value) : list value :=
  match v with
  | [] => []
  | x :: v' =>
      if py_in x seen then first_appearances seen v'
      else x :: first_appearances (x :: seen) v'
  end.

(** "Walks [source] through all but the last key using a
    get-with-empty-mapping-default at each step, then performs a final
    lookup of the last key": the keys are told apart by their position. *)
Fixpoint nested_get_by_position (key_path : list string) (source : value)
  : result value :=
  match key_path with
  | [] => Raise IndexError
  | [last_key] => py_get source last_key VNone
  | key :: rest =>
      d <- py_get source key (VDict []) ;;
      nested_get_by_position rest d
  end.

(** "A single-branch nested mapping with [value] at the leaf named by the
    last segment". *)
Fixpoint single_branch (segments : list string) (val : value) : value :=
  match segments with
  | [] => val
  | s :: rest => VDict [(s, single_branch rest val)]
  end.

(** A segment of a dotted key: not empty, and without a dot. *)
Fixpoint dot_free (s : string) : bool :=
  match s with
  | EmptyString => true
  | String c s' => negb (Ascii.eqb c dot) && dot_free s'
  end.

Definition segment (s : string) : bool :=
  negb (String.eqb s EmptyString) && dot_free s.

(** Neither containment reconciliation applies. *)
Definition reconciles (old v : value) : bool :=
  (is_list v && py_in old (elements v)) || (is_list old && py_in v (elements old)).

(** ** Sample layers *)

Definition layer_a : dict :=
  [("x", VList [VInt 1]); ("y", VDict [("p", VInt 1)]); ("w", VInt 0)].
Definition layer_b : dict :=
  [("x", VList [VInt 2]); ("y", VDict [("q", VBool true)])].
Definition layer_c : dict :=
  [("x", VList [VInt 1; VInt 3]); ("z", VStr "s")].
Definition merged_ab : dict :=
  [("x", VList [VInt 1; VInt 2]);
   ("y", VDict [("p", VInt 1); ("q", VBool true)]); ("w", VInt 0)].
Definition merged_bc : dict :=
  [("x", VList [VInt 2; VInt 1; VInt 3]);
   ("y", VDict [("q", VBool true)]); ("z", VStr "s")].
Definition merged_abc : dict :=
  [("x", VList [VInt 1; VInt 2; VInt 3]);
   ("y", VDict [("p", VInt 1); ("q", VBool true)]); ("w", VInt 0);
   ("z", VStr "s")].

(** ** A sample registry of plugins

    Three names are registered under every entry point; the factory of
    ["broken"] raises. *)

Definition sample_get_processor (entry_point : string) (kwargs : dict)
  : string + string :=
  match dict_get "name" kwargs with
  | Some (VStr "regex") => inl "regex instance"
  | Some (VStr "header") => inl "header instance"
  | Some (VStr "broken") => inr "factory failed"
  | _ => inr "plugin not found"
  end.

Definition sample_specs : list dict :=
  [[("name", VStr "regex"); ("pattern", VStr "x")];
   [("name", VStr "unregistered")];
   [("name", VStr "header")]].

Definition sample_conf : dict :=
  [("extractors", VList (map VDict sample_specs))].

(** ** Two sample layers in a store *)

Definition store_layer_1 : value := VDict [("x", VList [VInt 1; VInt 2])].
Definition store_layer_2 : value := VDict [("x", VList [VInt 2; VInt 3])].
Definition store_merged : value := VDict [("x", VList [VInt 1; VInt 2; VInt 3])].

(** The store after building the two layers, and the references to them. *)
Definition sample_store : option (Heap.hvalue * Heap.hvalue * Heap.heap) :=
  match Heap.alloc store_layer_1 [] with
  | Some (Ok l1, h1) =>
      match Heap.alloc store_layer_2 h1 with
      | Some (Ok l2, h2) => Some (l1, l2, h2)
      | _ => None
      end
  | _ => None
  end.

(** ** Running both embeddings on the same layers *)

(** The layers are built in an empty store one after the other, merged
    there, and the result is read back as a plain value. *)
Fixpoint alloc_all (layers : list value) : Heap.M (list Heap.hvalue) :=
  match layers with
  | [] => Heap.ret []
  | v :: rest =>
      Heap.mbind (Heap.alloc v) (fun hv =>
      Heap.mbind (alloc_all rest) (fun hvs => Heap.ret (hv :: hvs)))
  end.

Definition run_in_store (fuel : nat) (layers : list dict) (add_keys : bool)
  : option (result value) :=
  match alloc_all (map VDict layers) [] with
  | Some (Ok refs, h) =>
      match Heap.dict_merge fuel refs add_keys h with
      | Some (Ok r, h') => option_map Ok (Heap.reify fuel h' r)
      | Some (Raise e, _) => Some (Raise e)
      | None => None
      end
  | _ => None
  end.

Definition run_plain (layers : list dict) (add_keys : bool) : option (result value) :=
  Some (r <- dict_merge layers add_keys ;; Ok (VDict r)).

Definition sample_runs : list (list dict) :=
  [ [layer_a; layer_b];
    [layer_a; layer_b; layer_c];
    [layer_c; layer_b; layer_a; layer_a];
    [[("x", VInt 1)]; [("x", VInt 2)]];
    [[("x", VInt 1)]; [("x", VBool true)]];
    [[("x", VBool true)]; [("x", VInt 1)]];
    [[("x", VStr "a")]; [("x", VList [VInt 1; VInt 2])]];
    [[("x", VInt 1)]; [("x", VList [VBool true; VInt 2])]; [("x", VList [VInt 3])]];
    [[("x", VList [VStr "a"; VStr "b"])]; [("x", VStr "b")]; [("y", VNone)]];
    [[("x", VDict [("y", VInt 1)])]; [("x", VDict [("z", VInt 2)])]];
    [[("x", VDict [("y", VList [VDict []])])];
     [("x", VDict [("y", VList [VDict []; VDict [("k", VNone)]])]); ("n", VInt 0)]];
    [[("x", VDict [("y", VInt 1)])]; [("x", VList [VDict [("y", VBool true)]])]];
    [[("x", VDict [("y", VStr "a")])]; [("x", VDict [("y", VInt 1)])]];
    [[("x", VList [])]; [("x", VList [VInt 2; VInt 2])]; [("x", VList [VInt 2; VInt 3])]];
    [[]; [("x", VList [VInt 1])]; [("x", VList [VInt 2])]];
    [layer_a] ].

(** ** What a store value stands for

    [repr L h hv v]: in the store [h] the value [hv] stands for the plain
    value [v], and none of the objects involved is at a location of [L]. *)

#[local] Set Warnings "-register-all".

Inductive repr (L : list Heap.ref) (h : Heap.heap) : Heap.hvalue -> value -> Prop :=
| repr_none : repr L h Heap.HNone VNone
| repr_bool b : repr L h (Heap.HBool b) (VBool b)
| repr_int z : repr L h (Heap.HInt z) (VInt z)
| repr_str s : repr L h (Heap.HStr s) (VStr s)
| repr_list r items l :
    ~ In r L -> nth_error h r = Some (Heap.OList items) ->
    Forall2 (repr L h) items l ->
    repr L h (Heap.HRef r) (VList l)
| repr_dict r items d :
    ~ In r L -> nth_error h r = Some (Heap.ODict items) ->
    Forall2 (fun hkv kv => fst hkv = fst kv /\ repr L h (snd hkv) (snd kv)) items d ->
    repr L h (Heap.HRef r) (VDict d).

(** Every object of [h] is still there in [h']. *)
Definition preserved (h h' : Heap.heap) : Prop :=
  forall r o, nth_error h r = Some o -> nth_error h' r = Some o.

(** ... except, possibly, at the locations of [L]. *)
Definition preserved_outside (L : list Heap.ref) (h h' : Heap.heap) : Prop :=
  forall r o, ~ In r L -> nth_error h r = Some o -> nth_error h' r = Some o.

(** The number of nodes of a value: it bounds the fuel that the merge and
    the comparisons need. *)
Fixpoint size (v : value) : nat :=
  match v with
  | VList l => S (fold_right (fun x n => size x + n) 0 l)
  | VDict d => S (fold_right (fun kv n => size (snd kv) + n) 0 d)
  | _ => 1
  end.

(** Merging a dictionary object with itself: the statement that is proved
    by induction on the value. *)
Definition self_merge_ok (v : value) : Prop :=
  forall (L : list Heap.ref) (h : Heap.heap) (hv : Heap.hvalue) (fuel : nat)
         (add_keys : bool) (d : dict),
    v = VDict d ->
    repr L h hv v -> wf v = true ->
    (forall r, In r L -> r < List.length h) ->
    size v < fuel ->
    exists r h',
      Heap.dict_merge fuel [hv; hv] add_keys h = Some (Ok r, h') /\
      repr L h' r v /\ preserved h h'.


(** ** The three groupings of a merge, evaluated in one store

    [dict_merge(dict_merge(a, b), c) == dict_merge(a, dict_merge(b, c))
     == dict_merge(a, b, c)], evaluated from left to right on three layers
    that are allocated once: every call sees what the earlier calls did to
    the layers and to the results that share objects with them. *)
Definition values_equal (fuel : nat) (x y : Heap.hvalue) : Heap.M bool :=
  fun h => match Heap.heq fuel h x y with
           | Some b => Some (Ok b, h)
           | None => None
           end.

Definition chained_merges (fuel : nat) (add_keys : bool) (a b c : dict)
  : option (result bool) :=
  let run : Heap.M bool :=
    Heap.mbind (alloc_all (map VDict [a; b; c])) (fun refs =>
    match refs with
    | [ha; hb; hc] =>
        Heap.mbind (Heap.dict_merge fuel [ha; hb] add_keys) (fun ab =>
        Heap.mbind (Heap.dict_merge fuel [ab; hc] add_keys) (fun lhs =>
        Heap.mbind (Heap.dict_merge fuel [hb; hc] add_keys) (fun bc =>
        Heap.mbind (Heap.dict_merge fuel [ha; bc] add_keys) (fun rhs =>
        Heap.mbind (values_equal fuel lhs rhs) (fun same =>
        if same then
          Heap.mbind (Heap.dict_merge fuel [ha; hb; hc] add_keys) (fun abc =>
          values_equal fuel rhs abc)
        else Heap.ret false)))))
    | _ => Heap.stuck
    end) in
  match run [] with
  | Some (r, _) => Some r
  | None => None
  end.

(** The two-layer merges of the hypothesis of associativity all succeed. *)
Definition merges_succeed (add_keys : bool) (a b c : dict) : bool :=
  match dict_merge [a; b] add_keys, dict_merge [b; c] add_keys with
  | Ok ab, Ok bc =>
      match dict_merge [ab; c] add_keys, dict_merge [a; bc] add_keys with
      | Ok _, Ok _ => true
      | _, _ => false
      end
  | _, _ => false
  end.

Definition sample_values : list value :=
  [VNone; VBool true; VBool false; VInt 0; VInt 1; VInt 2; VStr ""; VStr "a";
   VList []; VList [VInt 1]; VList [VInt 1; VInt 2]; VList [VInt 2; VInt 2];
   VList [VBool true]; VList [VInt 0]; VList [VBool false; VInt 1];
   VList [VList [VInt 1]]; VList [VStr ""]; VList [VNone];
   VDict []; VDict [("p", VInt 1)]; VDict [("p", VInt 0)];
   VDict [("q", VList [VInt 1])];
   VList [VDict []]; VList [VDict [("p", VInt 1)]]; VList [VDict [("p", VBool true)]];
   VList [VList []];
   VDict [("p", VList [VInt 1; VInt 2])]; VDict [("p", VDict [])];
   VDict [("p", VInt 1); ("q", VInt 2)];
   VDict [("p", VList [VInt 2; VInt 3])]; VDict [("p", VList [VInt 3])];
   VList [VInt 3; VInt 1]].

Definition sample_layers : list dict :=
  [] :: map (fun v => [("x", v)]) sample_values.

Definition chained_merges_agree (add_keys : bool) (a b c : dict) : bool :=
  if merges_succeed add_keys a b c then
    match chained_merges 40 add_keys a b c with
    | Some (Ok true) => true
    | _ => false
    end
  else true.

(** Three layers on which every merge of the three groupings succeeds when
    it is given objects of its own.  Under ["x"] the first two layers hold
    dictionaries with a list under ["p"], the second one a further key
    ["q"]; the third holds a list with the first layer's dictionary, the
    second layer's and their merge. *)
Definition regroup_a : dict := [("x", VDict [("p", VList [VInt 1])])].

Definition regroup_b : dict :=
  [("x", VDict [("p", VList [VInt 2]); ("q", VInt 5)])].

Definition regroup_c : dict :=
  [("x", VList [VDict [("p", VList [VInt 1; VInt 2]); ("q", VInt 5)];
                VDict [("p", VList [VInt 2]); ("q", VInt 5)];
                VDict [("p", VList [VInt 1])]])].

(** The first layer once [dict_merge(a, b)] has run on it: the list under
    ["p"] has the element of the second layer's list appended. *)
Definition regroup_a_after : dict :=
  [("x", VDict [("p", VList [VInt 1; VInt 2])])].

(** Layers for which the merge of [regroup_a] with the merge of the other
    two raises on objects of its own. *)
Definition conflict_b : dict := [("x", VDict [("p", VList [VInt 2])])].

Definition conflict_c : dict :=
  [("x", VList [VDict [("p", VList [VInt 2])];
                VDict [("p", VList [VInt 1; VInt 2])]])].

(** ** A layer that holds one object twice

    [m = [1]; a = {"k": m, "z": [m]}] (as a YAML anchor with two aliases
    gives) and [b = {"k": [2], "z": [[1]]}], the latter also with its items
    in the other order. *)
Definition shared_store : Heap.heap :=
  [ Heap.OList [Heap.HInt 1];
    Heap.OList [Heap.HRef 0];
    Heap.ODict [("k", Heap.HRef 0); ("z", Heap.HRef 1)];
    Heap.OList [Heap.HInt 2];
    Heap.OList [Heap.HInt 1];
    Heap.OList [Heap.HRef 4];
    Heap.ODict [("k", Heap.HRef 3); ("z", Heap.HRef 5)];
    Heap.ODict [("z", Heap.HRef 5); ("k", Heap.HRef 3)] ].

Definition shared_a : Heap.hvalue := Heap.HRef 2.
Definition shared_b : Heap.hvalue := Heap.HRef 6.
Definition shared_b_reordered : Heap.hvalue := Heap.HRef 7.

(** ** Unshared values in the store

    Two footprints (sets of locations) with no location in common. *)
Definition disjoint (F G : list Heap.ref) : Prop :=
  forall r, In r F -> In r G -> False.

(** [owns h F hv v]: in the store [h], [hv] stands for the plain value [v] as
    a tree of objects whose locations all lie in the footprint [F], no object
    being reached twice; the entries of a dictionary have footprints that
    are pairwise apart. This is the shape of values that come from separate
    literals or from parsing a configuration file. *)
Inductive owns (h : Heap.heap) : list Heap.ref -> Heap.hvalue -> value -> Prop :=
| owns_none F : owns h F Heap.HNone VNone
| owns_bool F b : owns h F (Heap.HBool b) (VBool b)
| owns_int F z : owns h F (Heap.HInt z) (VInt z)
| owns_str F s : owns h F (Heap.HStr s) (VStr s)
| owns_list F G r items l :
    In r F -> ~ In r G -> incl G F ->
    nth_error h r = Some (Heap.OList items) ->
    Forall2 (owns h G) items l ->
    owns h F (Heap.HRef r) (VList l)
| owns_dict F G r items d :
    In r F -> ~ In r G -> incl G F ->
    nth_error h r = Some (Heap.ODict items) ->
    owns_items h G items d ->
    owns h F (Heap.HRef r) (VDict d)
with owns_items (h : Heap.heap)
  : list Heap.ref -> list (string * Heap.hvalue) -> dict -> Prop :=
| owns_items_nil G : owns_items h G [] []
| owns_items_cons G F1 G2 k x v xs vs :
    incl F1 G -> incl G2 G -> disjoint F1 G2 ->
    owns h F1 x v -> owns_items h G2 xs vs ->
    owns_items h G ((k, x) :: xs) ((k, v) :: vs).

(** The objects at the locations of [F] are the same in [h] and [h']. *)
Definition agree_on (F : list Heap.ref) (h h' : Heap.heap) : Prop :=
  forall r o, In r F -> nth_error h r = Some o -> nth_error h' r = Some o.

(** The locations that exist in [h'] and not yet in [h]. *)
Definition allocated (h h' : Heap.heap) : list Heap.ref :=
  seq (List.length h) (List.length h' - List.length h).

(** Every location of [F] exists in [h]. *)
Definition bounded (h : Heap.heap) (F : list Heap.ref) : Prop :=
  forall r, In r F -> r < List.length h.

(** The statement proved by induction on the incoming value: on two
    dictionaries with footprints that are apart, the merge in the store does
    what [merge_layer] does, returns a new unshared object, and raises
    exactly when [merge_layer] raises. *)
Definition merge_sim_ok (w : value) : Prop :=
  forall (add_keys : bool) (h : Heap.heap) (Fo Fw : list Heap.ref)
         (hold hw : Heap.hvalue) (dold dw : dict) (fuel : nat),
    w = VDict dw ->
    owns h Fo hold (VDict dold) -> owns h Fw hw (VDict dw) ->
    disjoint Fo Fw -> bounded h Fo -> bounded h Fw ->
    wf (VDict dold) = true -> wf (VDict dw) = true ->
    size (VDict dold) + size (VDict dw) < fuel ->
    match merge_layer add_keys dold dw with
    | Ok d' =>
        exists r' h',
          Heap.dict_merge fuel [hold; hw] add_keys h = Some (Ok (Heap.HRef r'), h') /\
          owns h' (Fo ++ Fw ++ allocated h h') (Heap.HRef r') (VDict d') /\
          preserved_outside (Fo ++ Fw) h h' /\ List.length h <= List.length h'
    | Raise e =>
        exists h', Heap.dict_merge fuel [hold; hw] add_keys h = Some (Raise e, h')
    end.

(** The layers of a call, each an unshared dictionary, with footprints that
    are pairwise apart. *)
Inductive owns_layers (h : Heap.heap)
  : list Heap.ref -> list Heap.hvalue -> list dict -> Prop :=
| owns_layers_nil G : owns_layers h G [] []
| owns_layers_cons G F1 G2 x d xs ds :
    incl F1 G -> incl G2 G -> disjoint F1 G2 ->
    owns h F1 x (VDict d) -> owns_layers h G2 xs ds ->
    owns_layers h G (x :: xs) (d :: ds).

(** Sizes of the elements of a list, of the entries of a dictionary and of
    the layers of a call. *)
Definition sizes (l : list value) : nat := fold_right (fun x n => size x + n) 0 l.

Definition entry_sizes (d : dict) : nat :=
  fold_right (fun kv n => size (snd kv) + n) 0 d.

Definition total_size (layers : list dict) : nat :=
  fold_right (fun d n => size (VDict d) + n) 0 layers.


(** The keys after merging a layer with [add_keys=True]: the keys so far,
    then the keys of the layer that are new, in the order of the layer. *)
Definition add_new_keys (present : list string) (layer : dict) : list string :=
  present ++ filter (fun k => negb (existsb (String.eqb k) present)) (keys layer).

(** A value that is neither a list nor a dictionary. *)
Definition is_scalar (v : value) : bool :=
  match v with
  | VList _ | VDict _ => false
  | _ => true
  end.

(** The segments of a dotted key as [dot2dict] uses them: an empty first
    segment (a key that starts with a dot, or the empty key) is dropped. *)
Definition strip_leading_empty (segments : list string) : list string :=
  match segments with
  | EmptyString :: rest => rest
  | _ => segments
  end.

(** ** [Coordinates]

    The methods move the numbers around and never compute with them: the
    type of the numbers ([float] or [int] in the annotations) is a
    parameter.  [seq[i]] raises [IndexError] past the end. *)

Definition item {A : Type} (seq : list A) (i : nat) : result A :=
  match nth_error seq i with
  | Some x => Ok x
  | None => Raise IndexError
  end.

Section CoordinatesClass.
Variable num : Type.

Record Coordinates : Type := MkCoordinates {
  minlon : num;
  maxlon : num;
  minlat : num;
  maxlat : num
}.

(** [[[minLon, maxLat], [maxLon, minLat]]] *)
Definition from_geojson (coordinates : list (list num)) : result Coordinates :=
  row <- item coordinates 0 ;; minlon <- item row 0 ;;
  row <- item coordinates 1 ;; maxlon <- item row 0 ;;
  row <- item coordinates 1 ;; minlat <- item row 1 ;;
  row <- item coordinates 0 ;; maxlat <- item row 1 ;;
  Ok (MkCoordinates minlon maxlon minlat maxlat).

(** [[minLon, minLat, maxLon, maxLat]] *)
Definition from_wgs84 (coordinates : list num) : result Coordinates :=
  minlon <- item coordinates 0 ;;
  maxlon <- item coordinates 2 ;;
  minlat <- item coordinates 1 ;;
  maxlat <- item coordinates 3 ;;
  Ok (MkCoordinates minlon maxlon minlat maxlat).

Definition to_wgs84 (self : Coordinates) : list num :=
  [minlon self; minlat self; maxlon self; maxlat self].

Definition to_geojson (self : Coordinates) : list (list num) :=
  [[minlon self; maxlat self]; [maxlon self; minlat self]].
End CoordinatesClass.

Arguments MkCoordinates {num} minlon maxlon minlat maxlat.
Arguments minlon {num} c.
Arguments maxlon {num} c.
Arguments minlat {num} c.
Arguments maxlat {num} c.
Arguments from_geojson {num} coordinates.
Arguments from_wgs84 {num} coordinates.
Arguments to_wgs84 {num} self.
Arguments to_geojson {num} self.

(** ** [Stats.from_boto]

    [dict(size=s3.get("ContentLength"), ...)]: a dictionary with four
    entries in the order of the keyword arguments. *)
Module Stats.
Definition from_boto (s3 : value) : result value :=
  size <- py_get s3 "ContentLength" VNone ;;
  last_modified <- py_get s3 "LastModified" VNone ;;
  content_type <- py_get s3 "ContentType" VNone ;;
  etag <- py_get s3 "Etag" VNone ;;
  Ok (VDict [("size", size); ("last_modified", last_modified);
             ("content_type", content_type); ("Etag", etag)]).
End Stats.

(** The keys of the response that [from_boto] reads. *)
Definition boto_keys : list string :=
  ["ContentLength"; "LastModified"; "ContentType"; "Etag"].

(** ** [is_remote_uri]

    [bool(re.search(r"^[a-z][a-z0-9]*(\://|\:\:)", path))].  The pattern is
    written as a regular expression and matched by derivatives; as it starts
    with [^] (and the flags are the default ones) the search succeeds when a
    prefix of the path matches. *)

Inductive regex : Type :=
| Never                        (* no string: arises in derivatives only *)
| Empty                        (* the empty string *)
| Chars (p : ascii -> bool)    (* one character of a class *)
| Seq (r s : regex)
| Alt (r s : regex)
| Star (r : regex).

Fixpoint nullable (r : regex) : bool :=
  match r with
  | Never => false
  | Empty => true
  | Chars _ => false
  | Seq r s => nullable r && nullable s
  | Alt r s => nullable r || nullable s
  | Star _ => true
  end.

Fixpoint derivative (c : ascii) (r : regex) : regex :=
  match r with
  | Never => Never
  | Empty => Never
  | Chars p => if p c then Empty else Never
  | Seq r s =>
      if nullable r then Alt (Seq (derivative c r) s) (derivative c s)
      else Seq (derivative c r) s
  | Alt r s => Alt (derivative c r) (derivative c s)
  | Star r => Seq (derivative c r) (Star r)
  end.

(** Some prefix of [s] matches [r]. *)
Fixpoint search_at_start (r : regex) (s : string) : bool :=
  nullable r ||
  match s with
  | EmptyString => false
  | String c s' => search_at_start (derivative c r) s'
  end.

(** A range [[lo-hi]] of a character class. *)
Definition in_range (lo hi c : ascii) : bool :=
  (nat_of_ascii lo <=? nat_of_ascii c)%nat && (nat_of_ascii c <=? nat_of_ascii hi)%nat.

Fixpoint literal (s : string) : regex :=
  match s with
  | EmptyString => Empty
  | String c s' => Seq (Chars (Ascii.eqb c)) (literal s')
  end.

Definition scheme_start (c : ascii) : bool := in_range "a" "z" c.

Definition scheme_char (c : ascii) : bool := in_range "a" "z" c || in_range "0" "9" c.

Definition remote_uri_pattern : regex :=
  Seq (Chars scheme_start)
      (Seq (Star (Chars scheme_char)) (Alt (literal "://") (literal "::"))).

Definition is_remote_uri (path : string) : bool :=
  search_at_start remote_uri_pattern path.

(** The strings that a regular expression matches. *)
Inductive matches : regex -> string -> Prop :=
| matches_empty : matches Empty EmptyString
| matches_chars p c : p c = true -> matches (Chars p) (String c EmptyString)
| matches_seq r s x y : matches r x -> matches s y -> matches (Seq r s) (x ++ y)
| matches_alt_l r s x : matches r x -> matches (Alt r s) x
| matches_alt_r r s x : matches s x -> matches (Alt r s) x
| matches_star_nil r : matches (Star r) EmptyString
| matches_star_cons r x y :
    matches r x -> matches (Star r) y -> matches (Star r) (x ++ y).

(** Every character of a string satisfies [p]. *)
Fixpoint all_chars (p : ascii -> bool) (s : string) : bool :=
  match s with
  | EmptyString => true
  | String c s' => p c && all_chars p s'
  end.

(** ** [isoformat_date]

    [datetime.strptime(date_string, format).isoformat()] and
    [parse(date_string).isoformat()] (dateutil) are parameters: they return
    the ISO 8601 string, or raise [ValueError] ([None] here).  [if format]
    is false for [None] and for the empty string. *)
Section IsoformatDate.
Variable strptime_isoformat : string -> string -> option string.
Variable parse_isoformat : string -> option string.

Definition format_given (format : option string) : option string :=
  match format with
  | Some f => if String.eqb f "" then None else Some f
  | None => None
  end.

(** What [LOGGER.warning] and [LOGGER.error] are called with, without the
    text. *)
Inductive log_level : Type := WARNING | ERROR.

Definition isoformat_date (date_string : string) (format : option string)
  : (option string * bool) * list log_level :=
  let '(output_date, format_errors, log) :=
    match format_given format with
    | Some f =>
        match strptime_isoformat date_string f with
        | Some iso => (Some iso, false, [])
        | None => (None, true, [WARNING])
        end
    | None =>
        match parse_isoformat date_string with
        | Some iso => (Some iso, false, [])
        | None => (None, false, [ERROR])
        end
    end in
  if format_errors then
    match parse_isoformat date_string with
    | Some iso => ((Some iso, format_errors), log)
    | None => ((output_date, format_errors), log ++ [ERROR])
    end
  else ((output_date, format_errors), log).
End IsoformatDate.

(** ** [CEDAObservationPreProcessor.run]

    [Template(self.url_template).substitute(uri=uri)], [requests.get(url)]
    and [r.json()] are parameters, with their own failures; what [run] does
    with the response is the code below. *)
Module CEDAObservationPreProcessor.
Section Run.
Variable failure : Type.

Record response : Type := Response {
  status_code : Z;
  json : failure + value
}.

Variable substitute : string -> string -> failure + string.
Variable requests_get : string -> failure + response.

Inductive outcome (A : Type) : Type :=
| Returns (a : A)
| Raises (e : exn)
| Fails (f : failure).

(** [url.split("/")[-1]] *)
Definition last_segment (url : string) : string :=
  last (split "/" url) EmptyString.

Definition run (url_template uri : string) (kwargs : dict)
  : outcome (string * dict) :=
  match substitute url_template uri with
  | inl f => Fails _ f
  | inr url =>
      match requests_get url with
      | inl f => Fails _ f
      | inr r =>
          if Z.eqb (status_code r) 200 then
            match json r with
            | inl f => Fails _ f
            | inr response =>
                match py_get response "record_type" VNone with
                | Raise e => Raises _ e
                | Ok record_type =>
                    match py_get response "url" VNone with
                    | Raise e => Raises _ e
                    | Ok url =>
                        if py_eq record_type (VStr "Dataset") && truthy url then
                          match url with
                          | VStr s =>
                              Returns _ (uri, dict_set "uuid" (VStr (last_segment s)) kwargs)
                          | _ => Raises _ AttributeError
                          end
                        else Returns _ (uri, kwargs)
                    end
                end
            end
          else Returns _ (uri, kwargs)
      end
  end.
End Run.

Arguments Response {failure} status_code json.
Arguments status_code {failure} r.
Arguments json {failure} r.
Arguments Returns {failure A} a.
Arguments Raises {failure A} e.
Arguments Fails {failure A} f.
End CEDAObservationPreProcessor.

(** A sample service: one dataset record, one record of another kind. *)
Definition sample_substitute (url_template uri : string) : string + string :=
  inr (url_template ++ uri)%string.

Definition sample_requests_get (url : string)
  : string + CEDAObservationPreProcessor.response string :=
  if String.eqb url "http://api/info/data/a" then
    inr (CEDAObservationPreProcessor.Response 200
           (inr (VDict [("record_type", VStr "Dataset");
                        ("url", VStr "http://catalogue/uuid/abc123")])))
  else if String.eqb url "http://api/info/data/b" then
    inr (CEDAObservationPreProcessor.Response 200
           (inr (VDict [("record_type", VStr "Collection");
                        ("url", VStr "http://catalogue/uuid/def456")])))
  else inr (CEDAObservationPreProcessor.Response 404 (inl "not json")).

(** ** What a call may change in the store

    [grows h h']: every object of [h] is still there in [h']; a dictionary
    object holds what it held, a list object holds what it held, possibly
    followed by more elements. *)
Definition grown (o o' : Heap.object) : Prop :=
  match o with
  | Heap.ODict d => o' = Heap.ODict d
  | Heap.OList l => exists more, o' = Heap.OList (l ++ more)
  end.

Definition grows (h h' : Heap.heap) : Prop :=
  forall r o, nth_error h r = Some o ->
              exists o', nth_error h' r = Some o' /\ grown o o'.

(** The same, except for the object at [l]. *)
Definition grows_except (l : Heap.ref) (h h' : Heap.heap) : Prop :=
  forall r o, r <> l -> nth_error h r = Some o ->
              exists o', nth_error h' r = Some o' /\ grown o o'.

(** Every run of [m] that ends relates the store before and after by [P]. *)
Definition frames {A : Type} (P : Heap.heap -> Heap.heap -> Prop) (m : Heap.M A) : Prop :=
  forall h res h', m h = Some (res, h') -> P h h'.

(** ** Merging a layer a second time

    The statement that is proved by induction on the incoming value: what
    the merge made of [old] and [v] is left as it is when [v] comes again. *)
Definition absorbs (add_keys : bool) (v : value) : Prop :=
  forall old x,
    wf old = true -> wf v = true -> truthy old = true ->
    merge_value add_keys old v = Ok x ->
    merge_entry (merge_value add_keys) (Some x) v = Ok x.


(** * Properties *)

(** ** Results *)

Lemma bind_ok {A B} (m : result A) (f : A -> result B) (b : B) :
  bind m f = Ok b -> exists a, m = Ok a /\ f a = Ok b.
Proof. destruct m as [a|e]; simpl; [eauto | discriminate]. Qed.

Lemma bind_raise {A B} (m : result A) (f : A -> result B) (e : exn) :
  bind m f = Raise e -> m = Raise e \/ exists a, m = Ok a /\ f a = Raise e.
Proof. destruct m as [a|e']; simpl; [eauto | intros [= ->]; auto]. Qed.

(** ** Dictionaries as association lists *)

Lemma dict_get_set_same (k : string) (v : value) (d : dict) :
  dict_get k (dict_set k v d) = Some v.
Proof.
  induction d as [|[k' v'] d IH]; simpl.
  - now rewrite String.eqb_refl.
  - destruct (String.eqb k k') eqn:E; simpl; rewrite E; auto.
Qed.

Lemma dict_get_set_other (k k' : string) (v : value) (d : dict) :
  k <> k' -> dict_get k' (dict_set k v d) = dict_get k' d.
Proof.
  intros Hk. induction d as [|[k0 v0] d IH]; simpl.
  - destruct (String.eqb_spec k' k); congruence.
  - destruct (String.eqb_spec k k0) as [->|]; simpl.
    + destruct (String.eqb_spec k' k0); congruence.
    + now rewrite IH.
Qed.

Lemma dict_set_same_value (k : string) (v : value) (d : dict) :
  dict_get k d = Some v -> dict_set k v d = d.
Proof.
  induction d as [|[k' v'] d IH]; simpl; [discriminate|].
  destruct (String.eqb k k'); [intros [= ->]; reflexivity|].
  intros H. now rewrite IH.
Qed.

Lemma dict_mem_In (k : string) (d : dict) :
  dict_mem k d = true <-> In k (keys d).
Proof.
  unfold dict_mem. induction d as [|[k' v'] d IH]; simpl.
  - split; [discriminate | tauto].
  - destruct (String.eqb_spec k k') as [->|Hk].
    + split; auto.
    + rewrite IH. split; [auto | intros [?|?]; congruence].
Qed.

Lemma dict_get_None (k : string) (d : dict) :
  dict_get k d = None <-> ~ In k (keys d).
Proof.
  rewrite <- dict_mem_In. unfold dict_mem.
  destruct (dict_get k d); split; congruence.
Qed.

Lemma dict_get_In (k : string) (v : value) (d : dict) :
  dict_get k d = Some v -> In (k, v) d.
Proof.
  induction d as [|[k' v'] d IH]; simpl; [discriminate|].
  destruct (String.eqb_spec k k') as [->|]; [intros [= ->]; auto | auto].
Qed.

Lemma keys_dict_set (k : string) (v : value) (d : dict) :
  keys (dict_set k v d) = if dict_mem k d then keys d else keys d ++ [k].
Proof.
  unfold dict_mem. induction d as [|[k' v'] d IH]; simpl; [reflexivity|].
  destruct (String.eqb k k'); simpl; [reflexivity|].
  rewrite IH. now destruct (dict_get k d).
Qed.

Lemma nodupb_NoDup (l : list string) : nodupb l = true <-> NoDup l.
Proof.
  induction l as [|k l IH]; simpl.
  - split; [constructor | reflexivity].
  - rewrite andb_true_iff, negb_true_iff, IH. split.
    + intros [Hk Hl]. constructor; [|assumption].
      intros Hin.
      assert (existsb (String.eqb k) l = true); [|congruence].
      apply existsb_exists. exists k. split; [assumption | apply String.eqb_refl].
    + intros H. inversion H as [|? ? Hk Hl]; subst. split; [|assumption].
      destruct (existsb (String.eqb k) l) eqn:E; [|reflexivity].
      apply existsb_exists in E as (x & Hx & Heq).
      apply String.eqb_eq in Heq. subst. contradiction.
Qed.

Lemma NoDup_dict_get (d : dict) (k : string) (v : value) :
  NoDup (keys d) -> In (k, v) d -> dict_get k d = Some v.
Proof.
  induction d as [|[k' v'] d IH]; simpl; [tauto|].
  intros Hnd [[= -> ->]|Hin].
  - now rewrite String.eqb_refl.
  - inversion Hnd as [|? ? Hk Hd]; subst.
    destruct (String.eqb_spec k k') as [->|]; [|auto].
    exfalso. apply Hk. change (In (fst (k', v)) (map fst d)). now apply in_map.
Qed.

(** Two dictionaries with the same keys in the same order and the same
    value under each key are the same dictionary. *)
Lemma dict_ext (d1 d2 : dict) :
  NoDup (keys d1) -> keys d1 = keys d2 ->
  (forall k, dict_get k d1 = dict_get k d2) -> d1 = d2.
Proof.
  revert d2. induction d1 as [|[k v] d1 IH]; intros [|[k2 v2] d2]; simpl;
    try discriminate; [reflexivity|].
  intros Hnd [= <- Hkeys] Hget.
  inversion Hnd as [|? ? Hk Hd]; subst.
  pose proof (Hget k) as Hk0. rewrite String.eqb_refl in Hk0.
  injection Hk0 as <-. f_equal.
  apply IH; [assumption..|].
  intros k'. specialize (Hget k').
  destruct (String.eqb_spec k' k) as [E|E]; [subst k'|assumption].
  transitivity (@None value); [|symmetry]; apply dict_get_None;
    [|rewrite <- Hkeys]; assumption.
Qed.

(** ** Python equality *)

Lemma py_eq_VList (a b : list value) : py_eq (VList a) (VList b) = py_eq_list a b.
Proof. reflexivity. Qed.

Lemma py_eq_VDict (a b : dict) :
  py_eq (VDict a) (VDict b) =
  Nat.eqb (List.length a) (List.length b) &&
  forallb (fun kv => match dict_get (fst kv) b with
                     | Some w => py_eq (snd kv) w
                     | None => false
                     end) a.
Proof. reflexivity. Qed.

Lemma wf_VDict (d : dict) :
  wf (VDict d) = true <->
  NoDup (keys d) /\ forall k v, In (k, v) d -> wf v = true.
Proof.
  simpl. rewrite andb_true_iff, nodupb_NoDup, forallb_forall. unfold keys.
  split; intros [Hn Hw]; split; try assumption.
  - intros k v Hin. apply (Hw (k, v) Hin).
  - intros [k v] Hin. apply (Hw k v Hin).
Qed.

Lemma wf_VList (l : list value) :
  wf (VList l) = true <-> forall x, In x l -> wf x = true.
Proof. simpl. apply forallb_forall. Qed.

(** On well-formed values [==] is reflexive. *)
Lemma py_eq_refl (v : value) : wf v = true -> py_eq v v = true.
Proof.
  induction v as [| b | z | s | l IH | d IH] using value_nested_ind; intros Hwf.
  - reflexivity.
  - apply Bool.eqb_reflx.
  - apply Z.eqb_refl.
  - apply String.eqb_refl.
  - rewrite py_eq_VList. rewrite wf_VList in Hwf.
    induction IH as [|x l Hx _ IHl]; simpl; [reflexivity|].
    rewrite Hx by (apply Hwf; simpl; auto). apply IHl.
    intros y Hy. apply Hwf. simpl; auto.
  - rewrite py_eq_VDict, Nat.eqb_refl. simpl andb.
    apply wf_VDict in Hwf as [Hnd Hwf].
    rewrite Forall_forall in IH. apply forallb_forall. intros [k v] Hin. simpl.
    rewrite (NoDup_dict_get d k v Hnd Hin).
    apply (IH (k, v) Hin). eauto.
Qed.

Lemma b2z_inj (a b : bool) : Z.b2z a = Z.b2z b -> a = b.
Proof. destruct a, b; simpl; congruence. Qed.

(** [==] is transitive. *)
Lemma py_eq_trans (x y z : value) :
  py_eq x y = true -> py_eq y z = true -> py_eq x z = true.
Proof.
  revert y z.
  induction x as [| a | a | a | l IH | d IH] using value_nested_ind;
    intros y z; destruct y as [| b | b | b | m | e]; try discriminate;
    destruct z as [| c | c | c | n | f]; try discriminate; simpl py_eq;
    rewrite ?Z.eqb_eq, ?String.eqb_eq, ?Bool.eqb_true_iff;
    try congruence;
    try solve [intros H1 H2; subst;
               repeat match goal with
                      | H : Z.b2z _ = Z.b2z _ |- _ => apply b2z_inj in H
                      | |- Z.b2z _ = Z.b2z _ => f_equal
                      end; congruence].
  - change (py_eq_list l m = true -> py_eq_list m n = true ->
            py_eq_list l n = true).
    revert m n.
    induction IH as [|x l Hx _ IHl]; intros [|y m] [|w n]; simpl;
      try discriminate; [reflexivity|].
    rewrite !andb_true_iff. intros [H1 H1'] [H2 H2']. eauto.
  - rewrite !andb_true_iff, !Nat.eqb_eq, !forallb_forall.
    intros [L1 H1] [L2 H2]. split; [congruence|].
    rewrite Forall_forall in IH.
    intros [k v] Hin. simpl. specialize (H1 (k, v) Hin). simpl in H1.
    destruct (dict_get k e) as [w|] eqn:Ew; [|discriminate].
    specialize (H2 (k, w) (dict_get_In _ _ _ Ew)). simpl in H2.
    destruct (dict_get k f) as [u|]; [|discriminate].
    apply (IH (k, v) Hin w u); assumption.
Qed.

(** ** Membership and the list union *)

Lemma py_in_app (x : value) (a b : list value) :
  py_in x (a ++ b) = py_in x a || py_in x b.
Proof. apply existsb_app. Qed.

Lemma py_in_exists (x : value) (l : list value) :
  py_in x l = true <-> exists e, In e l /\ py_eq e x = true.
Proof. apply existsb_exists. Qed.

Lemma py_in_self (x : value) (l : list value) :
  wf x = true -> In x l -> py_in x l = true.
Proof.
  intros Hwf Hin. apply py_in_exists. exists x. auto using py_eq_refl.
Qed.

(** If [x] equals an element of [b] and every element of [b] has an equal
    in [acc], then [x] has an equal in [acc]. *)
Lemma py_in_trans (x : value) (b acc : list value) :
  py_in x b = true ->
  (forall e, In e b -> py_in e acc = true) ->
  py_in x acc = true.
Proof.
  intros Hx Hb. apply py_in_exists in Hx as (e & He & Hex).
  apply Hb, py_in_exists in He as (e' & He' & Hee).
  apply py_in_exists. exists e'. eauto using py_eq_trans.
Qed.

Lemma extend_unique_app (acc v w : list value) :
  extend_unique acc (v ++ w) = extend_unique (extend_unique acc v) w.
Proof. revert acc. induction v as [|x v IH]; intros acc; simpl; auto. Qed.

(** The accumulator is a prefix of the result; what follows comes from [v]. *)
Lemma extend_unique_prefix (acc v : list value) :
  exists new, extend_unique acc v = acc ++ new /\ incl new v.
Proof.
  revert acc. induction v as [|x v IH]; intros acc; simpl.
  - exists []. split; [now rewrite app_nil_r | apply incl_nil_l].
  - destruct (py_in x acc).
    + destruct (IH acc) as (new & -> & Hincl).
      exists new. split; [reflexivity | now apply incl_tl].
    + destruct (IH (acc ++ [x])) as (new & -> & Hincl).
      exists (x :: new). split; [now rewrite <- app_assoc|].
      apply incl_cons; [now left | now apply incl_tl].
Qed.

Lemma py_in_extend_l (x : value) (acc v : list value) :
  py_in x acc = true -> py_in x (extend_unique acc v) = true.
Proof.
  intros H. destruct (extend_unique_prefix acc v) as (new & -> & _).
  rewrite py_in_app, H. reflexivity.
Qed.

Lemma py_in_extend_r (e : value) (acc v : list value) :
  wf e = true -> In e v -> py_in e (extend_unique acc v) = true.
Proof.
  intros Hwf. revert acc. induction v as [|x v IH]; intros acc; simpl; [tauto|].
  intros [->|Hin]; [|auto].
  apply py_in_extend_l.
  destruct (py_in e acc) eqn:E; [assumption|].
  rewrite py_in_app, E. simpl. now rewrite py_eq_refl.
Qed.

(** Nothing is appended when everything is already there. *)
Lemma extend_unique_absorb (acc v : list value) :
  (forall x, In x v -> py_in x acc = true) -> extend_unique acc v = acc.
Proof.
  induction v as [|x v IH]; simpl; intros H; [reflexivity|].
  rewrite (H x) by auto. auto.
Qed.

Lemma extend_unique_not_nil (acc v : list value) :
  acc <> [] -> extend_unique acc v <> [].
Proof.
  intros H. destruct (extend_unique_prefix acc v) as (new & -> & _).
  destruct acc; [congruence | discriminate].
Qed.

Lemma extend_unique_assoc (a b c : list value) :
  (forall x, In x b -> wf x = true) ->
  (forall x, In x c -> wf x = true) ->
  extend_unique (extend_unique a b) c = extend_unique a (extend_unique b c).
Proof.
  revert b. induction c as [|x c IH]; intros b Hb Hc; simpl; [reflexivity|].
  destruct (py_in x b) eqn:E.
  - rewrite (py_in_trans x b (extend_unique a b) E)
      by (intros e He; apply py_in_extend_r; auto).
    apply IH; [assumption|]. intros y Hy. apply Hc. now right.
  - rewrite <- IH.
    + rewrite extend_unique_app. reflexivity.
    + intros y Hy. apply in_app_or in Hy as [Hy|[<-|[]]]; [auto|].
      apply Hc. now left.
    + intros y Hy. apply Hc. now right.
Qed.

(** ** The loop over the items of a layer *)

(** Values stay well formed. *)
Lemma dict_set_wf (k : string) (x : value) (d : dict) :
  wf (VDict d) = true -> wf x = true -> wf (VDict (dict_set k x d)) = true.
Proof.
  rewrite !wf_VDict. intros [Hnd Hv] Hx. split.
  - rewrite keys_dict_set. destruct (dict_mem k d) eqn:E; [assumption|].
    apply NoDup_app; [assumption | repeat constructor; simpl; tauto |].
    intros k' Hk' [<-|[]]. apply dict_mem_In in Hk'. congruence.
  - intros k' v'. clear Hnd. induction d as [|[k0 v0] d IH]; simpl.
    + intros [[= <- <-]|[]]. assumption.
    + destruct (String.eqb k k0); simpl.
      * intros [[= <- <-]|Hin]; [assumption|]. apply (Hv k' v'). simpl; auto.
      * intros [[= <- <-]|Hin]; [apply (Hv k0 v0); simpl; auto|].
        apply IH; [|assumption]. intros k1 v1 H1. apply (Hv k1 v1). simpl; auto.
Qed.

Section MergeItems.
Variable f : value -> value -> result value.
Variable selected : string -> bool.

Lemma merge_items_cons (rtn : dict) (k : string) (v : value) (rest : dict) :
  merge_items f selected rtn ((k, v) :: rest) =
  if selected k then
    x <- merge_entry f (dict_get k rtn) v ;;
    merge_items f selected (dict_set k x rtn) rest
  else merge_items f selected rtn rest.
Proof.
  simpl. destruct (selected k); [|reflexivity].
  unfold merge_entry. destruct (dict_get k rtn) as [old|]; [|reflexivity].
  destruct (truthy old); reflexivity.
Qed.

(** The value under each key after the loop. *)
Lemma merge_items_get (items rtn r : dict) :
  NoDup (keys items) ->
  merge_items f selected rtn items = Ok r ->
  forall k,
    if selected k
    then merge_opt f (dict_get k rtn) (dict_get k items) = Ok (dict_get k r)
    else dict_get k r = dict_get k rtn.
Proof.
  revert rtn. induction items as [|[k0 v0] items IH]; intros rtn Hnd Hm k.
  - simpl in *. injection Hm as <-. now destruct (selected k).
  - inversion Hnd as [|? ? Hk0 Hnd']; subst.
    rewrite merge_items_cons in Hm.
    assert (Hrest : dict_get k0 items = None) by now apply dict_get_None.
    destruct (selected k0) eqn:Esel.
    + apply bind_ok in Hm as (x & Hx & Hm).
      specialize (IH _ Hnd' Hm). simpl dict_get.
      destruct (String.eqb_spec k k0) as [->|Hne].
      * specialize (IH k0). rewrite Esel, Hrest in *.
        simpl in IH. injection IH as IH.
        rewrite dict_get_set_same in IH. simpl. rewrite Hx. simpl. congruence.
      * specialize (IH k). rewrite dict_get_set_other in IH by congruence.
        exact IH.
    + specialize (IH _ Hnd' Hm k). simpl dict_get.
      destruct (String.eqb_spec k k0) as [->|Hne]; [|exact IH].
      rewrite Esel in *. exact IH.
Qed.

(** The keys after the loop: those of the accumulator, then the new ones
    in the order of the layer. *)
Lemma merge_items_keys (items rtn r : dict) :
  NoDup (keys items) ->
  merge_items f selected rtn items = Ok r ->
  keys r =
  keys rtn ++ filter (fun k => selected k && negb (dict_mem k rtn)) (keys items).
Proof.
  revert rtn. induction items as [|[k0 v0] items IH]; intros rtn Hnd Hm.
  - simpl in *. injection Hm as <-. now rewrite app_nil_r.
  - inversion Hnd as [|? ? Hk0 Hnd']; subst.
    rewrite merge_items_cons in Hm. simpl keys. simpl filter.
    destruct (selected k0) eqn:Esel; simpl andb.
    + apply bind_ok in Hm as (x & Hx & Hm).
      rewrite (IH _ Hnd' Hm), keys_dict_set.
      assert (Hf : filter (fun k => selected k && negb (dict_mem k (dict_set k0 x rtn)))
                     (keys items)
                   = filter (fun k => selected k && negb (dict_mem k rtn)) (keys items)).
      { apply filter_ext_in. intros k Hk. unfold dict_mem.
        rewrite dict_get_set_other; [reflexivity|]. intros ->. contradiction. }
      rewrite Hf. destruct (dict_mem k0 rtn); simpl; [reflexivity|].
      now rewrite <- app_assoc.
    + now apply IH.
Qed.

Lemma merge_items_wf (items rtn r : dict) :
  (forall old v x, wf old = true -> In v (map snd items) -> f old v = Ok x ->
                   wf x = true) ->
  (forall v, In v (map snd items) -> wf v = true) ->
  wf (VDict rtn) = true ->
  merge_items f selected rtn items = Ok r ->
  wf (VDict r) = true.
Proof.
  revert rtn. induction items as [|[k0 v0] items IH]; intros rtn Hf Hv Hrtn Hm.
  - simpl in Hm. now injection Hm as <-.
  - rewrite merge_items_cons in Hm.
    assert (Hf' : forall old v x, wf old = true -> In v (map snd items) ->
                                  f old v = Ok x -> wf x = true)
      by (intros old v x Ho Hin; apply Hf; simpl; auto).
    assert (Hv' : forall v, In v (map snd items) -> wf v = true)
      by (intros v Hin; apply Hv; simpl; auto).
    destruct (selected k0); [|eauto].
    apply bind_ok in Hm as (x & Hx & Hm).
    apply (IH (dict_set k0 x rtn)); [assumption..| |assumption].
    apply dict_set_wf; [assumption|].
    unfold merge_entry in Hx.
    destruct (dict_get k0 rtn) as [old|] eqn:E.
    + destruct (truthy old).
      * apply (Hf old v0 x); simpl; auto.
        apply wf_VDict in Hrtn as [_ Hrtn]. apply (Hrtn k0 old).
        now apply dict_get_In.
      * injection Hx as <-. apply Hv. simpl; auto.
    + injection Hx as <-. apply Hv. simpl; auto.
Qed.

End MergeItems.

(** ** The loop body by cases *)

Lemma merge_value_cases (add_keys : bool) (old v : value) :
  merge_value add_keys old v = merge_cases add_keys old v.
Proof. destruct old, v; reflexivity. Qed.

Lemma merge_layer_nil (add_keys : bool) (rtn : dict) :
  merge_layer add_keys rtn [] = Ok rtn.
Proof. reflexivity. Qed.

Lemma extend_unique_wf (acc v : list value) :
  wf (VList acc) = true -> wf (VList v) = true ->
  wf (VList (extend_unique acc v)) = true.
Proof.
  rewrite !wf_VList. intros Ha Hv x Hx.
  destruct (extend_unique_prefix acc v) as (new & E & Hincl).
  rewrite E in Hx. apply in_app_or in Hx as [Hx|Hx]; auto.
Qed.

Lemma merge_value_wf (add_keys : bool) (old v x : value) :
  wf old = true -> wf v = true -> merge_value add_keys old v = Ok x ->
  wf x = true.
Proof.
  revert old x.
  induction v as [| b | z | s | l IH | d IH] using value_nested_ind;
    intros old x Hold Hv; rewrite merge_value_cases;
    destruct old as [| b' | z' | s' | l' | d']; simpl;
    repeat match goal with
           | |- (if ?c then _ else _) = _ -> _ => destruct c
           end;
    try discriminate; try (intros [= <-]; assumption).
  - intros [= <-]. now apply extend_unique_wf.
  - intros H. apply bind_ok in H as (r & Hr & [= <-]).
    unfold merge_layer in Hr.
    apply wf_VDict in Hv as Hv'. destruct Hv' as [Hnd Hvals].
    apply (merge_items_wf _ _ _ _ _ ) in Hr; auto.
    + intros o w y Ho Hin. rewrite Forall_forall in IH.
      apply in_map_iff in Hin as ([k w'] & <- & Hin).
      apply (IH (k, w') Hin); eauto.
    + intros w Hin. apply in_map_iff in Hin as ([k w'] & <- & Hin). eauto.
Qed.

Lemma merge_layer_wf (add_keys : bool) (rtn layer r : dict) :
  wf (VDict rtn) = true -> wf (VDict layer) = true ->
  merge_layer add_keys rtn layer = Ok r -> wf (VDict r) = true.
Proof.
  intros Hr Hl Hm.
  apply (merge_value_wf add_keys (VDict rtn) (VDict layer)); auto.
  rewrite merge_value_cases. simpl. now rewrite Hm.
Qed.

Lemma merge_entry_wf (add_keys : bool) (o : option value) (v x : value) :
  (forall old, o = Some old -> wf old = true) -> wf v = true ->
  merge_entry (merge_value add_keys) o v = Ok x -> wf x = true.
Proof.
  intros Ho Hv. unfold merge_entry. destruct o as [old|]; [|now intros [= <-]].
  destruct (truthy old); [|now intros [= <-]].
  apply merge_value_wf; auto.
Qed.

(** A non-empty accumulator stays non-empty. *)
Lemma merge_layer_truthy (add_keys : bool) (rtn layer r : dict) :
  NoDup (keys layer) ->
  merge_layer add_keys rtn layer = Ok r -> rtn <> [] -> r <> [].
Proof.
  intros Hnd Hm Hne. apply merge_items_keys in Hm; [|assumption].
  intros ->. destruct rtn; [congruence | discriminate].
Qed.

(** ** Associativity of the merge with [add_keys=True], on plain values

    What the regrouping of the calls does to layers that are objects in a
    store comes after the store model has been related to the plain one. *)

Lemma filter_filter_and {A} (f g : A -> bool) (l : list A) :
  filter f (filter g l) = filter (fun x => g x && f x) l.
Proof.
  induction l as [|x l IH]; simpl; [reflexivity|].
  destruct (g x); simpl; [destruct (f x)|]; now rewrite IH.
Qed.

Lemma merge_layer_get (rtn layer r : dict) (k : string) :
  NoDup (keys layer) ->
  merge_layer true rtn layer = Ok r ->
  merge_opt (merge_value true) (dict_get k rtn) (dict_get k layer)
  = Ok (dict_get k r).
Proof.
  intros Hnd Hm.
  exact (merge_items_get _ _ layer rtn r Hnd Hm k).
Qed.

Lemma merge_layer_keys (rtn layer r : dict) :
  NoDup (keys layer) ->
  merge_layer true rtn layer = Ok r ->
  keys r = keys rtn ++ filter (fun k => negb (dict_mem k rtn)) (keys layer).
Proof.
  intros Hnd Hm. exact (merge_items_keys _ _ layer rtn r Hnd Hm).
Qed.

Lemma merge_layer_mem (rtn layer r : dict) (k : string) :
  NoDup (keys layer) ->
  merge_layer true rtn layer = Ok r ->
  dict_mem k r = dict_mem k rtn || dict_mem k layer.
Proof.
  intros Hnd Hm. apply merge_layer_keys in Hm; [|assumption].
  apply eq_true_iff_eq.
  rewrite orb_true_iff, !dict_mem_In, Hm, in_app_iff, filter_In, negb_true_iff.
  destruct (dict_mem k rtn) eqn:E.
  - apply dict_mem_In in E. tauto.
  - assert (~ In k (keys rtn)) by (rewrite <- dict_mem_In; congruence). tauto.
Qed.

Lemma wf_option_get (d : dict) (k : string) :
  wf (VDict d) = true -> wf_option (dict_get k d).
Proof.
  intros Hwf v Hv. apply wf_VDict in Hwf as [_ Hwf].
  apply (Hwf k v). now apply dict_get_In.
Qed.

Lemma merge_layer_assoc (da db dc m l bc r : dict) :
  wf (VDict da) = true -> wf (VDict db) = true -> wf (VDict dc) = true ->
  Forall (fun kv => assoc_at (snd kv)) dc ->
  merge_layer true da db = Ok m ->
  merge_layer true m dc = Ok l ->
  merge_layer true db dc = Ok bc ->
  merge_layer true da bc = Ok r ->
  l = r.
Proof.
  intros Ha Hb Hc IH Hm Hl Hbc Hr.
  assert (Wm : wf (VDict m) = true) by eauto using merge_layer_wf.
  assert (Wl : wf (VDict l) = true) by eauto using merge_layer_wf.
  assert (Wbc : wf (VDict bc) = true) by eauto using merge_layer_wf.
  assert (Nb : NoDup (keys db)) by (now apply wf_VDict in Hb).
  assert (Nc : NoDup (keys dc)) by (now apply wf_VDict in Hc).
  assert (Nbc : NoDup (keys bc)) by (now apply wf_VDict in Wbc).
  apply dict_ext.
  - now apply wf_VDict in Wl.
  - rewrite (merge_layer_keys _ _ _ Nc Hl), (merge_layer_keys _ _ _ Nb Hm),
      (merge_layer_keys _ _ _ Nbc Hr), (merge_layer_keys _ _ _ Nc Hbc).
    rewrite filter_app, filter_filter_and, <- app_assoc. do 2 f_equal.
    apply filter_ext. intros k.
    rewrite (merge_layer_mem _ _ _ k Nb Hm), negb_orb. apply andb_comm.
  - intros k.
    pose proof (merge_layer_get _ _ _ k Nb Hm) as G1.
    pose proof (merge_layer_get _ _ _ k Nc Hl) as G2.
    pose proof (merge_layer_get _ _ _ k Nc Hbc) as G3.
    pose proof (merge_layer_get _ _ _ k Nbc Hr) as G4.
    destruct (dict_get k dc) as [v|] eqn:Ev.
    + simpl in G2, G3.
      apply bind_ok in G2 as (x2 & G2 & [= G2']).
      apply bind_ok in G3 as (x3 & G3 & [= G3']).
      rewrite <- G3' in G4. simpl in G4.
      apply bind_ok in G4 as (x4 & G4 & [= G4']).
      rewrite <- G2', <- G4'. f_equal.
      rewrite Forall_forall in IH.
      apply (IH (k, v) (dict_get_In _ _ _ Ev)
               (dict_get k da) (dict_get k db) (dict_get k m) x2 x3 x4);
        auto using wf_option_get.
      apply wf_VDict in Hc as [_ Hc]. apply (Hc k v). now apply dict_get_In.
    + simpl in G2, G3. injection G2 as G2. injection G3 as G3.
      rewrite <- G3, G1 in G4. congruence.
Qed.

Lemma truthy_VList (l : list value) : truthy (VList l) = true <-> l <> [].
Proof. destruct l; simpl; split; congruence. Qed.

Lemma truthy_VDict (d : dict) : truthy (VDict d) = true <-> d <> [].
Proof. destruct d; simpl; split; congruence. Qed.

Ltac split_results :=
  repeat match goal with
         | H : Ok _ = Ok _ |- _ => injection H as H; try subst
         | H : Raise _ = Ok _ |- _ => discriminate H
         | H : bind _ _ = Ok _ |- _ =>
             let x := fresh "x" in
             let Hx := fresh "Hx" in
             apply bind_ok in H as (x & Hx & H)
         | H : (if ?c then _ else _) = Ok _ |- _ =>
             let E := fresh "E" in destruct c eqn:E
         end.

Lemma merge_entry_Some (add_keys : bool) (old v : value) :
  merge_entry (merge_value add_keys) (Some old) v =
  if truthy old then merge_cases add_keys old v else Ok v.
Proof. unfold merge_entry. now rewrite merge_value_cases. Qed.

Lemma merge_entry_None (add_keys : bool) (v : value) :
  merge_entry (merge_value add_keys) None v = Ok v.
Proof. reflexivity. Qed.

#[local] Arguments py_in : simpl never.
#[local] Arguments extend_unique : simpl never.
#[local] Arguments merge_layer : simpl never.
#[local] Arguments wf : simpl never.
#[local] Arguments truthy : simpl never.

(** A truthy value merged with a truthy value is truthy. *)
Lemma merge_cases_truthy (va vb x : value) :
  wf vb = true ->
  truthy va = true -> truthy vb = true ->
  merge_cases true va vb = Ok x -> truthy x = true.
Proof.
  intros Wb Ta Tb H.
  destruct va as [| a | a | a | la | da], vb as [| b | b | b | lb | db];
    simpl in H; split_results; try assumption.
  - apply truthy_VList, extend_unique_not_nil. now apply truthy_VList.
  - apply truthy_VDict. apply wf_VDict in Wb as [Nb _].
    eapply merge_layer_truthy; [exact Nb | eassumption | now apply truthy_VDict].
Qed.

(** A truthy value merged with a falsy one stays as it is, or both are
    scalars and the falsy one replaces it. *)
Lemma merge_cases_falsy (va vb x : value) :
  truthy va = true -> truthy vb = false ->
  merge_cases true va vb = Ok x ->
  x = va \/ (x = vb /\ forall c r, merge_cases true va c = Ok r -> r = c).
Proof.
  intros Ta Tb H.
  destruct va as [| a | a | a | la | da], vb as [| b | b | b | lb | db];
    simpl in H; split_results; auto;
    try (right; split; [reflexivity|];
         intros c r Hc; destruct c; simpl in Hc; split_results; reflexivity).
  - left. destruct lb; [reflexivity | discriminate].
  - destruct lb; [discriminate | discriminate].
  - left. destruct db; [|discriminate].
    unfold merge_layer in Hx. simpl in Hx. congruence.
Qed.

Lemma merge_cases_assoc (va vb c x l bc r : value) :
  wf va = true -> wf vb = true -> wf c = true ->
  match c with
  | VDict dc => Forall (fun kv => assoc_at (snd kv)) dc
  | _ => True
  end ->
  truthy va = true -> truthy vb = true ->
  merge_cases true va vb = Ok x ->
  merge_cases true x c = Ok l ->
  merge_cases true vb c = Ok bc ->
  merge_cases true va bc = Ok r ->
  l = r.
Proof.
  intros Wa Wb Wc IH Ta Tb Hx Hl Hbc Hr.
  destruct va as [| a | a | a | la | da], vb as [| b | b | b | lb | db];
    simpl in Hx; split_results;
    destruct c as [| c | c | c | lc | dc];
    simpl in Hl, Hbc; split_results; simpl in Hr; split_results;
    try congruence.
  - f_equal. apply extend_unique_assoc; now apply wf_VList.
  - f_equal. eapply (merge_layer_assoc da db dc); eassumption.
Qed.

Lemma assoc_at_intro (c : value) :
  match c with
  | VDict dc => Forall (fun kv => assoc_at (snd kv)) dc
  | _ => True
  end ->
  assoc_at c.
Proof.
  intros IH a b ab l bc r Wa Wb Wc Hab Hl Hbc Hr.
  destruct a as [va|]; [pose proof (Wa va eq_refl) as Wva|];
    (destruct b as [vb|]; [pose proof (Wb vb eq_refl) as Wvb|]);
    unfold merge_opt in Hab;
    rewrite ?merge_entry_Some, ?merge_entry_None in *;
    simpl in Hab; split_results;
    rewrite ?merge_entry_Some, ?merge_entry_None in *;
    split_results; try congruence.
  - eapply (merge_cases_assoc va vb c); eassumption.
  - pose proof (merge_cases_truthy va vb x Wvb E E0 Hx). congruence.
  - destruct (merge_cases_falsy va vb x E E0 Hx) as [-> | [-> Hc]];
      congruence.
  - destruct (merge_cases_falsy va vb x E E0 Hx) as [-> | [-> Hc]];
      [congruence|]. symmetry. eauto.
Qed.

Lemma merge_assoc_value (c : value) : assoc_at c.
Proof.
  induction c using value_nested_ind; apply assoc_at_intro; auto.
Qed.

Lemma dict_merge_two (add_keys : bool) (a b : dict) :
  dict_merge [a; b] add_keys = merge_layer add_keys a b.
Proof. simpl. destruct (merge_layer add_keys a b); reflexivity. Qed.

Lemma dict_merge_three (add_keys : bool) (a b c : dict) :
  dict_merge [a; b; c] add_keys =
  (ab <- dict_merge [a; b] add_keys ;; dict_merge [ab; c] add_keys).
Proof.
  rewrite dict_merge_two. simpl.
  destruct (merge_layer add_keys a b) as [ab|e]; reflexivity.
Qed.

(** On plain values, that is when every call is given objects of its own:
    when none of the merges raises, merging [a] with [b] and then with [c]
    gives the same dictionary as merging [a] with the merge of [b] and [c],
    and as the three-layer call; the layers are dictionaries, each key
    occurring once. *)
Theorem dict_merge_associative (a b c ab bc l r : dict) :
  wf_dict a = true -> wf_dict b = true -> wf_dict c = true ->
  dict_merge [a; b] true = Ok ab ->
  dict_merge [ab; c] true = Ok l ->
  dict_merge [b; c] true = Ok bc ->
  dict_merge [a; bc] true = Ok r ->
  l = r /\ dict_merge [a; b; c] true = Ok l /\ py_eq (VDict l) (VDict r) = true.
Proof.
  intros Wa Wb Wc Hab Hl Hbc Hr.
  assert (E : l = r).
  { rewrite dict_merge_two in Hab, Hl, Hbc, Hr.
    apply (merge_layer_assoc a b c ab l bc r); auto.
    apply Forall_forall. intros kv _. apply merge_assoc_value. }
  split; [exact E|]. split.
  - rewrite dict_merge_three, Hab. exact Hl.
  - subst r. apply py_eq_refl.
    rewrite dict_merge_two in Hab, Hl.
    eapply merge_layer_wf; [|exact Wc|exact Hl].
    eapply merge_layer_wf; [exact Wa|exact Wb|exact Hab].
Qed.

Lemma dict_merge_associative_witness :
  (wf_dict layer_a = true /\ wf_dict layer_b = true /\ wf_dict layer_c = true /\
   dict_merge [layer_a; layer_b] true = Ok merged_ab /\
   dict_merge [merged_ab; layer_c] true = Ok merged_abc /\
   dict_merge [layer_b; layer_c] true = Ok merged_bc /\
   dict_merge [layer_a; merged_bc] true = Ok merged_abc) /\
  (merged_abc = merged_abc /\
   dict_merge [layer_a; layer_b; layer_c] true = Ok merged_abc /\
   py_eq (VDict merged_abc) (VDict merged_abc) = true).
Proof.
  split; [repeat split; reflexivity|].
  apply (dict_merge_associative layer_a layer_b layer_c
           merged_ab merged_bc merged_abc merged_abc); reflexivity.
Defined.

(** Without [add_keys] the merge is not associative: a key of the first
    layer that the second one lacks is refined by the third layer on one
    side only. *)
Lemma dict_merge_not_associative_without_add_keys :
  let a := [("x", VInt 1)] in
  let c := [("x", VInt 2)] in
  (ab <- dict_merge [a; []] false ;; dict_merge [ab; c] false) = Ok [("x", VInt 2)] /\
  (bc <- dict_merge [[]; c] false ;; dict_merge [a; bc] false) = Ok [("x", VInt 1)].
Proof. split; reflexivity. Qed.

(** One grouping may raise while the other does not. *)
Lemma dict_merge_conflict_on_one_side :
  let a := [("x", VInt 1)] in
  let b := [("x", VInt 0)] in
  let c := [("x", VStr "s")] in
  (ab <- dict_merge [a; b] true ;; dict_merge [ab; c] true) = Ok [("x", VStr "s")] /\
  (bc <- dict_merge [b; c] true ;; dict_merge [a; bc] true) = Raise TypeError.
Proof. split; reflexivity. Qed.

(** ** Idempotence *)

Lemma merge_items_same (f : value -> value -> result value)
    (selected : string -> bool) (rtn items : dict) :
  (forall k v, In (k, v) items ->
               dict_get k rtn = Some v /\ (truthy v = true -> f v v = Ok v)) ->
  merge_items f selected rtn items = Ok rtn.
Proof.
  induction items as [|[k v] items IH]; intros H; [reflexivity|].
  rewrite merge_items_cons.
  assert (IH' : merge_items f selected rtn items = Ok rtn)
    by (apply IH; intros k' v' Hin; apply H; simpl; auto).
  destruct (selected k); [|assumption].
  destruct (H k v (or_introl eq_refl)) as [Hget Hf].
  unfold merge_entry. rewrite Hget.
  destruct (truthy v).
  - rewrite Hf by reflexivity. simpl. now rewrite dict_set_same_value.
  - simpl. now rewrite dict_set_same_value.
Qed.

Lemma merge_value_same (add_keys : bool) (x : value) :
  wf x = true -> merge_value add_keys x x = Ok x.
Proof.
  induction x as [| b | z | s | l _ | d IH] using value_nested_ind;
    intros Hwf; rewrite merge_value_cases; simpl.
  - reflexivity.
  - reflexivity.
  - reflexivity.
  - unfold isinstance. simpl. reflexivity.
  - rewrite extend_unique_absorb; [reflexivity|].
    intros x Hx. apply py_in_self; [|assumption].
    rewrite wf_VList in Hwf. auto.
  - unfold merge_layer. rewrite merge_items_same; [reflexivity|].
    apply wf_VDict in Hwf as [Hnd Hwf].
    rewrite Forall_forall in IH.
    intros k v Hin. split; [now apply NoDup_dict_get|].
    intros _. apply (IH (k, v) Hin). eauto.
Qed.

(** As plain values: merging a dictionary with itself returns it. *)
Lemma dict_merge_same_layers (add_keys : bool) (x : dict) :
  wf_dict x = true -> dict_merge [x; x] add_keys = Ok x.
Proof.
  intros Hwf. rewrite dict_merge_two.
  pose proof (merge_value_same add_keys (VDict x) Hwf) as H.
  rewrite merge_value_cases in H. simpl in H.
  destruct (merge_layer add_keys x x); simpl in H; congruence.
Qed.

(** ** The union of two lists *)

Lemma extend_unique_first_appearances (acc seen v : list value) :
  (forall x, py_in x acc = py_in x seen) ->
  extend_unique acc v = acc ++ first_appearances seen v.
Proof.
  revert acc seen. induction v as [|x v IH]; intros acc seen H.
  - simpl. unfold extend_unique. now rewrite app_nil_r.
  - unfold extend_unique; fold extend_unique. simpl first_appearances.
    rewrite <- (H x). destruct (py_in x acc) eqn:E.
    + now apply IH.
    + rewrite (IH (acc ++ [x]) (x :: seen)).
      * now rewrite <- app_assoc.
      * intros y. rewrite py_in_app, H. unfold py_in. simpl.
        rewrite orb_false_r. apply orb_comm.
Qed.

Lemma first_appearances_In (seen v : list value) (x : value) :
  In x (first_appearances seen v) -> In x v /\ py_in x seen = false.
Proof.
  revert seen. induction v as [|y v IH]; intros seen; simpl; [tauto|].
  destruct (py_in y seen) eqn:E.
  - intros H. apply IH in H. tauto.
  - intros [<-|H]; [auto|].
    apply IH in H as [Hin Hseen]. split; [auto|].
    unfold py_in in *. simpl in Hseen. now apply orb_false_iff in Hseen.
Qed.

(** An element kept later differs from every element kept earlier. *)
Lemma first_appearances_distinct (seen v : list value) :
  ForallOrdPairs (fun x y => py_eq x y = false) (first_appearances seen v).
Proof.
  revert seen. induction v as [|y v IH]; intros seen; simpl; [constructor|].
  destruct (py_in y seen); [apply IH|].
  constructor; [|apply IH].
  apply Forall_forall. intros z Hz.
  apply first_appearances_In in Hz as [_ Hz].
  unfold py_in in Hz. simpl in Hz. now apply orb_false_iff in Hz.
Qed.

Lemma merge_value_lists (add_keys : bool) (old v : list value) :
  merge_value add_keys (VList old) (VList v)
  = Ok (VList (old ++ first_appearances old v)).
Proof.
  rewrite merge_value_cases. simpl.
  now rewrite (extend_unique_first_appearances old old v).
Qed.

(** C7: under a key whose value is a non-empty list and whose incoming
    value is a list, the merged value is the old list followed by the
    elements of the incoming list that are not yet present, each once, in
    the order in which they first appear. *)
Theorem dict_merge_list_union (add_keys : bool) (rtn layer r : dict)
    (k : string) (old v : list value) :
  NoDup (keys layer) ->
  dict_get k rtn = Some (VList old) ->
  truthy (VList old) = true ->
  dict_get k layer = Some (VList v) ->
  dict_merge [rtn; layer] add_keys = Ok r ->
  dict_get k r = Some (VList (old ++ first_appearances old v)) /\
  (forall x, In x (first_appearances old v) -> In x v /\ py_in x old = false) /\
  ForallOrdPairs (fun x y => py_eq x y = false) (first_appearances old v) /\
  (forall x, wf x = true -> In x v ->
             py_in x (old ++ first_appearances old v) = true) /\
  dict_merge [[("x", VList [VInt 1; VInt 2])]; [("x", VList [VInt 2; VInt 3])]]
    add_keys = Ok [("x", VList [VInt 1; VInt 2; VInt 3])].
Proof.
  intros Hnd Hold Ht Hv Hm. rewrite dict_merge_two in Hm.
  repeat split.
  - pose proof (merge_items_get _ _ layer rtn r Hnd Hm k) as G.
    assert (Hsel : key_filter add_keys rtn k = true).
    { unfold key_filter, dict_mem. rewrite Hold. apply orb_true_r. }
    rewrite Hsel, Hold, Hv in G. unfold merge_opt, merge_entry in G.
    rewrite Ht, merge_value_lists in G. simpl in G. congruence.
  - now apply first_appearances_In in H.
  - now apply first_appearances_In in H.
  - apply first_appearances_distinct.
  - intros x Wx Hx.
    rewrite <- (extend_unique_first_appearances old old v) by reflexivity.
    now apply py_in_extend_r.
  - now destruct add_keys.
Qed.

Lemma dict_merge_list_union_witness :
  (NoDup (keys layer_b) /\
   dict_get "x" layer_a = Some (VList [VInt 1]) /\
   truthy (VList [VInt 1]) = true /\
   dict_get "x" layer_b = Some (VList [VInt 2]) /\
   dict_merge [layer_a; layer_b] true = Ok merged_ab) /\
  dict_get "x" merged_ab
  = Some (VList ([VInt 1] ++ first_appearances [VInt 1] [VInt 2])).
Proof.
  assert (Hnd : NoDup (keys layer_b)) by (now apply nodupb_NoDup).
  split; [repeat split; try reflexivity; exact Hnd|].
  apply (dict_merge_list_union true layer_a layer_b merged_ab "x"
           [VInt 1] [VInt 2] Hnd); reflexivity.
Defined.

(** ** Type conflicts *)

(** The only exception that the loop body raises is [TypeError]. *)
Lemma merge_items_raise (f : value -> value -> result value)
    (selected : string -> bool) (items rtn : dict) (e : exn) :
  (forall old v e', In v (map snd items) -> f old v = Raise e' -> e' = TypeError) ->
  merge_items f selected rtn items = Raise e -> e = TypeError.
Proof.
  revert rtn. induction items as [|[k v] items IH]; intros rtn Hf; [discriminate|].
  rewrite merge_items_cons.
  assert (Hf' : forall old w e', In w (map snd items) -> f old w = Raise e' ->
                                 e' = TypeError)
    by (intros old w e' Hin; apply Hf; simpl; auto).
  destruct (selected k); [|eauto].
  intros H. apply bind_raise in H as [H|(x & _ & H)]; [|eauto].
  unfold merge_entry in H. destruct (dict_get k rtn) as [old|]; [|discriminate].
  destruct (truthy old); [|discriminate].
  apply (Hf old v e); simpl; auto.
Qed.

Lemma merge_value_raise (add_keys : bool) (old v : value) (e : exn) :
  merge_value add_keys old v = Raise e -> e = TypeError.
Proof.
  revert old e.
  induction v as [| b | z | s | l _ | d IH] using value_nested_ind;
    intros old e; rewrite merge_value_cases; destruct old; simpl;
    repeat match goal with
           | |- (if ?c then _ else _) = _ -> _ => destruct c
           end;
    try discriminate; try (intros [= <-]; reflexivity).
  intros H. apply bind_raise in H as [H|(x & _ & H)]; [|discriminate].
  unfold merge_layer in H. apply merge_items_raise in H; [assumption|].
  intros o w e' Hin. rewrite Forall_forall in IH.
  apply in_map_iff in Hin as ([k w'] & <- & Hin). apply (IH (k, w') Hin o e').
Qed.

(** The keys of the accumulator pass the [add_keys] filter throughout. *)
Lemma merge_items_selected (f : value -> value -> result value)
    (selected : string -> bool) (items rtn r : dict) :
  (forall k, dict_mem k rtn = true -> selected k = true) ->
  merge_items f selected rtn items = Ok r ->
  forall k, dict_mem k r = true -> selected k = true.
Proof.
  revert rtn. induction items as [|[k0 v0] items IH]; intros rtn Hrtn Hm.
  - simpl in Hm. now injection Hm as <-.
  - rewrite merge_items_cons in Hm. destruct (selected k0) eqn:E; [|eauto].
    apply bind_ok in Hm as (x & _ & Hm).
    apply (IH (dict_set k0 x rtn)); [|assumption].
    intros k. unfold dict_mem.
    destruct (String.eqb_spec k0 k) as [<-|Hne]; [auto|].
    rewrite dict_get_set_other by assumption. apply Hrtn.
Qed.

(** An exception raised by the body leaves the loop over the items. *)
Lemma merge_items_abort (f : value -> value -> result value)
    (selected : string -> bool) (pre post rtn0 rtn : dict) (k : string)
    (old v : value) (e : exn) :
  merge_items f selected rtn0 pre = Ok rtn ->
  selected k = true ->
  dict_get k rtn = Some old -> truthy old = true ->
  f old v = Raise e ->
  merge_items f selected rtn0 (pre ++ (k, v) :: post) = Raise e.
Proof.
  revert rtn0. induction pre as [|[k0 v0] pre IH]; intros rtn0 Hpre Hsel Hget Ht Hf.
  - simpl in Hpre. injection Hpre as ->. simpl app.
    rewrite merge_items_cons, Hsel. unfold merge_entry. now rewrite Hget, Ht, Hf.
  - simpl app. rewrite merge_items_cons in *.
    destruct (selected k0); [|eauto].
    apply bind_ok in Hpre as (x & -> & Hpre). simpl. eauto.
Qed.

(** ... and the loop over the layers. *)
Lemma merge_layers_abort (add_keys : bool) (before after : list dict)
    (first acc layer : dict) (e : exn) :
  merge_layers add_keys first before = Ok acc ->
  merge_layer add_keys acc layer = Raise e ->
  merge_layers add_keys first (before ++ layer :: after) = Raise e.
Proof.
  revert first. induction before as [|b before IH]; intros first Hb Hl; simpl in *.
  - injection Hb as ->. now rewrite Hl.
  - apply bind_ok in Hb as (x & -> & Hb). simpl. eauto.
Qed.

(** C1, as amended: a step at a key whose current value [old] is truthy
    raises [TypeError] exactly when the incoming value is not an instance
    of the type of [old] and neither containment applies, or when both are
    dictionaries and their own merge raises; a list that contains [old] is
    adopted; a list [old] that contains the incoming value is kept; an
    exception raised at a step is the outcome of the whole call. *)
Theorem type_conflict_exactly (add_keys : bool) (old v : value) :
  truthy old = true ->
  (merge_value add_keys old v = Raise TypeError <->
   (isinstance v (type_of old) = false /\ reconciles old v = false) \/
   (exists d d', old = VDict d /\ v = VDict d' /\
                 dict_merge [d; d'] add_keys = Raise TypeError)) /\
  (is_list v = true -> is_list old = false -> py_in old (elements v) = true ->
   merge_value add_keys old v = Ok v) /\
  (is_list old = true -> is_list v = false -> py_in v (elements old) = true ->
   merge_value add_keys old v = Ok old) /\
  (forall (e : exn) (first acc rtn pre post : dict) (before after : list dict)
          (k : string),
      merge_value add_keys old v = Raise e ->
      merge_layers add_keys first before = Ok acc ->
      merge_items (merge_value add_keys) (key_filter add_keys acc) acc pre = Ok rtn ->
      dict_get k rtn = Some old ->
      e = TypeError /\
      dict_merge (first :: before ++ (pre ++ (k, v) :: post) :: after) add_keys
      = Raise e).
Proof.
  intros Ht. repeat split.
  - rewrite merge_value_cases. unfold reconciles.
    destruct old as [| a | a | a | la | da], v as [| b | b | b | lb | db];
      simpl; rewrite ?orb_false_r;
      try (intros H; left; split; [reflexivity|]);
      repeat match goal with
             | H : (if ?c then _ else _) = _ |- _ => destruct c eqn:?
             | |- (if ?c then _ else _) = _ -> _ => destruct c eqn:?
             end; try discriminate; try reflexivity; try (intros; assumption).
    intros H. right. exists da, db. repeat split.
    destruct (merge_layer add_keys da db); simpl in *; congruence.
  - rewrite merge_value_cases. unfold reconciles.
    intros [[Hi Hr]|(d & d' & -> & -> & Hd)].
    + destruct old as [| a | a | a | la | da], v as [| b | b | b | lb | db];
        simpl in *; rewrite ?orb_false_r in Hr; try rewrite Hr;
        try rewrite Hi; try reflexivity; try discriminate.
    + rewrite dict_merge_two in Hd. simpl. now rewrite Hd.
  - rewrite merge_value_cases.
    destruct old, v; simpl; try discriminate; intros _ _ ->; reflexivity.
  - rewrite merge_value_cases.
    destruct old, v; simpl; try discriminate; intros _ _ ->; reflexivity.
  - now apply merge_value_raise in H.
  - assert (Hlen : exists l ls, before ++ (pre ++ (k, v) :: post) :: after = l :: ls).
    { destruct before; simpl; eauto. }
    destruct Hlen as (l & ls & Hlen). unfold dict_merge. rewrite Hlen, <- Hlen.
    apply (merge_layers_abort add_keys before after first acc); [assumption|].
    unfold merge_layer.
    apply (merge_items_abort _ _ pre post acc rtn k old v e); auto.
    apply (merge_items_selected (merge_value add_keys) _ pre acc rtn);
      [|assumption|].
    + intros k' Hk'. unfold key_filter. rewrite Hk'. apply orb_true_r.
    + unfold dict_mem. now rewrite H2.
Qed.

Lemma type_conflict_exactly_witness :
  truthy (VInt 1) = true /\
  merge_value true (VInt 1) (VList [VInt 1; VInt 2]) = Ok (VList [VInt 1; VInt 2]).
Proof.
  split; [reflexivity|].
  apply (type_conflict_exactly true (VInt 1) (VList [VInt 1; VInt 2]) eq_refl);
    reflexivity.
Defined.

(** C1, as it is stated, fails: a string and an integer are both scalars,
    and merging them raises [TypeError]. *)
Lemma type_conflict_within_scalars :
  truthy (VStr "a") = true /\
  category_of (VInt 1) = category_of (VStr "a") /\
  reconciles (VStr "a") (VInt 1) = false /\
  dict_merge [[("x", VStr "a")]; [("x", VInt 1)]] true = Raise TypeError /\
  ~ (forall old v,
        truthy old = true ->
        (merge_value true old v = Raise TypeError <->
         category_of v <> category_of old /\ reconciles old v = false)).
Proof.
  repeat split.
  intros H. specialize (H (VStr "a") (VInt 1) eq_refl) as [H _].
  destruct (H eq_refl) as [Hc _]. now apply Hc.
Qed.

(** ** The two copies of [dict_merge] *)

Lemma merge_items_mono (f g : value -> value -> result value)
    (selected : string -> bool) (items rtn r : dict) :
  (forall old v x, In v (map snd items) -> f old v = Ok x -> g old v = Ok x) ->
  merge_items f selected rtn items = Ok r ->
  merge_items g selected rtn items = Ok r.
Proof.
  revert rtn. induction items as [|[k v] items IH]; intros rtn Hfg; [auto|].
  rewrite !merge_items_cons.
  assert (Hfg' : forall old w x, In w (map snd items) -> f old w = Ok x ->
                                 g old w = Ok x)
    by (intros old w x Hin; apply Hfg; simpl; auto).
  destruct (selected k); [|eauto].
  intros H. apply bind_ok in H as (x & Hx & H).
  assert (Hg : merge_entry g (dict_get k rtn) v = Ok x).
  { unfold merge_entry in *. destruct (dict_get k rtn) as [old|]; [|assumption].
    destruct (truthy old); [|assumption]. apply Hfg; simpl; auto. }
  rewrite Hg. simpl. eauto.
Qed.

Lemma asset_merge_value_refines (add_keys : bool) (old v x : value) :
  AssetScanner.merge_value add_keys old v = Ok x ->
  merge_value add_keys old v = Ok x.
Proof.
  revert old x.
  induction v as [| b | z | s | l _ | d IH] using value_nested_ind;
    intros old x; destruct old; simpl; try discriminate; auto.
  intros H. apply bind_ok in H as (r & Hr & [= <-]).
  apply (merge_items_mono _ (merge_value add_keys)) in Hr.
  - unfold isinstance. simpl. now rewrite Hr.
  - intros o w y Hin. rewrite Forall_forall in IH.
    apply in_map_iff in Hin as ([k w'] & <- & Hin). apply (IH (k, w') Hin o y).
Qed.

Lemma asset_merge_value_raise (add_keys : bool) (old v : value) (e : exn) :
  AssetScanner.merge_value add_keys old v = Raise e -> e = TypeError.
Proof.
  revert old e.
  induction v as [| b | z | s | l _ | d IH] using value_nested_ind;
    intros old e; destruct old; simpl;
    try discriminate; try (intros [= <-]; reflexivity).
  intros H. apply bind_raise in H as [H|(x & _ & H)]; [|discriminate].
  apply merge_items_raise in H; [assumption|].
  intros o w e' Hin. rewrite Forall_forall in IH.
  apply in_map_iff in Hin as ([k w'] & <- & Hin). apply (IH (k, w') Hin o e').
Qed.

Lemma asset_merge_layers_refine (add_keys : bool) (layers : list dict)
    (rtn r : dict) :
  AssetScanner.merge_layers add_keys rtn layers = Ok r ->
  merge_layers add_keys rtn layers = Ok r.
Proof.
  revert rtn. induction layers as [|layer layers IH]; intros rtn; simpl; [auto|].
  intros H. apply bind_ok in H as (x & Hx & H).
  unfold AssetScanner.merge_layer in Hx.
  apply (merge_items_mono _ (merge_value add_keys)) in Hx;
    [|intros o w y _; apply asset_merge_value_refines].
  unfold merge_layer. rewrite Hx. simpl. auto.
Qed.

Lemma merge_layers_raise (add_keys : bool) (layers : list dict) (rtn : dict)
    (e : exn) :
  merge_layers add_keys rtn layers = Raise e -> e = TypeError.
Proof.
  revert rtn. induction layers as [|layer layers IH]; intros rtn; simpl;
    [discriminate|].
  intros H. apply bind_raise in H as [H|(x & _ & H)]; [|eauto].
  apply merge_items_raise in H; [assumption|].
  intros o w e' _. apply merge_value_raise.
Qed.

Lemma asset_merge_layers_raise (add_keys : bool) (layers : list dict)
    (rtn : dict) (e : exn) :
  AssetScanner.merge_layers add_keys rtn layers = Raise e -> e = TypeError.
Proof.
  revert rtn. induction layers as [|layer layers IH]; intros rtn; simpl;
    [discriminate|].
  intros H. apply bind_raise in H as [H|(x & _ & H)]; [|eauto].
  apply merge_items_raise in H; [assumption|].
  intros o w e' _. apply asset_merge_value_raise.
Qed.

(** C9, as amended: whatever the older copy returns, the newer copy returns
    too, and whenever the newer copy raises, the older one raises the same
    exception. *)
Theorem asset_scanner_dict_merge_refines (args : list dict) (add_keys : bool) :
  (forall r, AssetScanner.dict_merge args add_keys = Ok r ->
             dict_merge args add_keys = Ok r) /\
  (forall e, dict_merge args add_keys = Raise e ->
             AssetScanner.dict_merge args add_keys = Raise e).
Proof.
  destruct args as [|rtn [|layer layers]];
    unfold dict_merge, AssetScanner.dict_merge;
    try (split; [discriminate | auto]).
  split.
  - intros r H.
    apply (asset_merge_layers_refine add_keys (layer :: layers) rtn r H).
  - intros e H.
    pose proof (merge_layers_raise add_keys (layer :: layers) rtn e H) as ->.
    destruct (AssetScanner.merge_layers add_keys rtn (layer :: layers))
      as [r|e'] eqn:E.
    + apply asset_merge_layers_refine in E. congruence.
    + now apply asset_merge_layers_raise in E as ->.
Qed.

(** C9, as it is stated, fails: the newer copy reconciles a scalar with a
    list that contains it, the older copy raises. *)
Lemma dict_merge_copies_differ :
  AssetScanner.dict_merge [[("x", VInt 1)]; [("x", VList [VInt 1; VInt 2])]] true
  = Raise TypeError /\
  dict_merge [[("x", VInt 1)]; [("x", VList [VInt 1; VInt 2])]] true
  = Ok [("x", VList [VInt 1; VInt 2])] /\
  ~ (forall args add_keys,
        (exists r r', AssetScanner.dict_merge args add_keys = Ok r /\
                      dict_merge args add_keys = Ok r' /\
                      py_eq (VDict r) (VDict r') = true) \/
        (exists e e', AssetScanner.dict_merge args add_keys = Raise e /\
                      dict_merge args add_keys = Raise e')).
Proof.
  repeat split.
  intros H.
  destruct (H [[("x", VInt 1)]; [("x", VList [VInt 1; VInt 2])]] true)
    as [(r & r' & H1 & _)|(e & e' & _ & H2)]; discriminate.
Qed.

(** ** [nested_get] *)

(** C10: an empty key list fails at [key_list[-1]]. *)
Theorem nested_get_empty_key_list (input_dict : dict) :
  nested_get [] input_dict = Raise IndexError.
Proof. reflexivity. Qed.

Lemma last_item_snoc (key_list : list string) (k : string) :
  last_item (key_list ++ [k]) = Ok k.
Proof. unfold last_item. now rewrite rev_unit. Qed.

Lemma nested_get_by_position_cons (key : string) (rest : list string)
    (source : value) :
  rest <> [] ->
  nested_get_by_position (key :: rest) source =
  (d <- py_get source key (VDict []) ;; nested_get_by_position rest d).
Proof. destruct rest; [congruence | reflexivity]. Qed.

Lemma nested_get_loop_by_position (last_key : string) (key_list : list string)
    (source : value) :
  ~ In last_key key_list ->
  nested_get_loop last_key (key_list ++ [last_key]) source
  = nested_get_by_position (key_list ++ [last_key]) source.
Proof.
  revert source. induction key_list as [|k ks IH]; intros source Hnot.
  - simpl. now rewrite String.eqb_refl.
  - change ((k :: ks) ++ [last_key]) with (k :: (ks ++ [last_key])).
    rewrite nested_get_by_position_cons by now destruct ks.
    simpl nested_get_loop.
    destruct (String.eqb_spec k last_key) as [->|Hne]; [simpl in Hnot; tauto|].
    simpl negb. cbv iota.
    destruct (py_get source k (VDict [])); simpl; [|reflexivity].
    apply IH. simpl in Hnot. tauto.
Qed.

(** When the last key does not occur earlier in the path, [nested_get]
    walks the path key by key. *)
Lemma nested_get_fresh_last_key (key_list : list string) (last_key : string)
    (input_dict : dict) :
  ~ In last_key key_list ->
  nested_get (key_list ++ [last_key]) input_dict
  = nested_get_by_position (key_list ++ [last_key]) (VDict input_dict).
Proof.
  intros H. unfold nested_get. rewrite last_item_snoc. simpl.
  now apply nested_get_loop_by_position.
Qed.

(** C4 (and the round trip of C8): the loop recognises the last key by its
    value, [key != last_key], so that a path in which the last key occurs
    earlier stops at that earlier occurrence. *)
Theorem nested_get_stops_at_repeated_key :
  let source := [("a", VDict [("b", VDict [("a", VInt 5)])])] in
  nested_get ["a"; "b"; "a"] source = Ok (VDict [("b", VDict [("a", VInt 5)])]) /\
  nested_get_by_position ["a"; "b"; "a"] (VDict source) = Ok (VInt 5).
Proof. split; reflexivity. Qed.

(** A value that is not a mapping in the middle of the path makes [get]
    fail. *)
Lemma nested_get_through_scalar :
  nested_get ["a"; "b"] [("a", VInt 5)] = Raise AttributeError.
Proof. reflexivity. Qed.

(** ** [dot2dict] *)

Lemma dot2dict_nonempty (key : string) (val : value) :
  key <> EmptyString ->
  dot2dict key val =
  dot2dict (join "." (snd (pop (split dot key))))
           (VDict [(fst (pop (split dot key)), val)]).
Proof.
  destruct key as [|c s]; [congruence|]. intros _.
  now rewrite dot2dict_equation_2.
Qed.

Lemma split_dot_free (s : string) : dot_free s = true -> split dot s = [s].
Proof.
  induction s as [|c s IH]; simpl; [reflexivity|].
  rewrite andb_true_iff, negb_true_iff. intros [-> Hs]. now rewrite IH.
Qed.

Lemma split_segment_dot (s t : string) :
  dot_free s = true ->
  split dot (s ++ String dot t)%string = s :: split dot t.
Proof.
  induction s as [|c s IH]; simpl.
  - reflexivity.
  - rewrite andb_true_iff, negb_true_iff. intros [-> Hs]. now rewrite IH.
Qed.

Lemma split_join (segments : list string) :
  segments <> [] -> Forall (fun s => dot_free s = true) segments ->
  split dot (join "." segments) = segments.
Proof.
  unfold join. induction segments as [|s rest IH]; [congruence|].
  intros _ H. inversion H as [|? ? Hs Hrest]; subst.
  destruct rest as [|s' rest'].
  - simpl. now apply split_dot_free.
  - change (concat "." (s :: s' :: rest'))
      with (s ++ String dot (concat "." (s' :: rest')))%string.
    rewrite split_segment_dot by assumption.
    f_equal. apply IH; [discriminate | assumption].
Qed.

Lemma segment_dot_free (segments : list string) :
  Forall (fun s => segment s = true) segments ->
  Forall (fun s => dot_free s = true) segments.
Proof.
  apply Forall_impl. intros s H. unfold segment in H.
  now apply andb_true_iff in H.
Qed.

Lemma single_branch_snoc (segments : list string) (s : string) (val : value) :
  single_branch (segments ++ [s]) val = single_branch segments (VDict [(s, val)]).
Proof. induction segments as [|x l IH]; simpl; [reflexivity | now rewrite IH]. Qed.

(** For a dotted key made of segments, [dot2dict] builds the single
    branch that leads to the value. *)
Lemma dot2dict_single_branch (segments : list string) (val : value) :
  segments <> [] -> Forall (fun s => segment s = true) segments ->
  dot2dict (join "." segments) val = single_branch segments val.
Proof.
  revert val. induction segments as [|s rest IH] using rev_ind; [congruence|].
  intros val _ Hseg.
  assert (Hfree : Forall (fun s => dot_free s = true) (rest ++ [s]))
    by now apply segment_dot_free.
  assert (Hsplit : split dot (join "." (rest ++ [s])) = rest ++ [s])
    by (apply split_join; [now destruct rest | assumption]).
  apply Forall_app in Hseg as [Hrest Hs].
  inversion Hs as [|? ? Hs' _]; subst.
  rewrite dot2dict_nonempty.
  - rewrite Hsplit. unfold pop. simpl fst. simpl snd.
    rewrite last_last, removelast_last, single_branch_snoc.
    destruct rest as [|r rest'].
    + simpl. now rewrite dot2dict_equation_1.
    + apply IH; [discriminate | assumption].
  - intros Hempty. rewrite Hempty in Hsplit. simpl in Hsplit.
    destruct rest as [|r [|r' rest']]; try discriminate.
    injection Hsplit as <-. discriminate.
Qed.

Lemma nested_get_by_position_single_branch (segments : list string)
    (val : value) :
  segments <> [] ->
  nested_get_by_position segments (single_branch segments val) = Ok val.
Proof.
  induction segments as [|s rest IH]; [congruence|]. intros _.
  destruct rest as [|s' rest'].
  - simpl. now rewrite String.eqb_refl.
  - rewrite nested_get_by_position_cons by discriminate.
    simpl single_branch. simpl py_get. rewrite String.eqb_refl. simpl bind.
    apply IH. discriminate.
Qed.

(** The round trip, for a key whose last segment does not occur earlier. *)
Lemma dot2dict_nested_get_fresh_last (segments : list string) (last : string)
    (val : value) :
  Forall (fun s => segment s = true) (segments ++ [last]) ->
  ~ In last segments ->
  exists d, dot2dict (join "." (segments ++ [last])) val = VDict d /\
            nested_get (segments ++ [last]) d = Ok val.
Proof.
  intros Hseg Hnot.
  assert (Hne : segments ++ [last] <> []) by now destruct segments.
  rewrite (dot2dict_single_branch _ val Hne Hseg).
  destruct (segments ++ [last]) as [|s rest] eqn:E; [congruence|].
  simpl. eexists. split; [reflexivity|].
  rewrite <- E, nested_get_fresh_last_key by assumption.
  rewrite E. apply (nested_get_by_position_single_branch (s :: rest) val Hne).
Qed.

(** C8: [dot2dict("a.b.c", 5)] and its round trip are as documented, but
    with the key ["a.b.a"] the round trip returns the mapping found under
    the first ["a"] instead of the value. *)
Theorem dot2dict_round_trip_repeated_segment :
  dot2dict "a.b.c" (VInt 5) = VDict [("a", VDict [("b", VDict [("c", VInt 5)])])] /\
  nested_get ["a"; "b"; "c"] [("a", VDict [("b", VDict [("c", VInt 5)])])]
  = Ok (VInt 5) /\
  Forall (fun s => segment s = true) ["a"; "b"; "a"] /\
  join "." ["a"; "b"; "a"] = "a.b.a" /\
  dot2dict "a.b.a" (VInt 5) = VDict [("a", VDict [("b", VDict [("a", VInt 5)])])] /\
  nested_get ["a"; "b"; "a"] [("a", VDict [("b", VDict [("a", VInt 5)])])]
  = Ok (VDict [("b", VDict [("a", VInt 5)])]).
Proof. repeat split; repeat constructor. Qed.

(** ** [load_plugins] *)

Section LoadPluginsProperties.
Variable instance : Type.
Variable failure : Type.
Variable get_processor : string -> dict -> instance + failure.

Lemma load_loop_spec (entry_point : string) (specs : list dict)
    (loaded : list instance) (log : list (diagnostic failure)) :
  Forall has_name specs ->
  load_loop instance failure get_processor entry_point (map VDict specs) loaded log
  = (Ok (loaded ++ instances_of instance failure get_processor entry_point specs),
     log ++ map diagnostic_of
              (failures_of instance failure get_processor entry_point specs)).
Proof.
  revert loaded log. induction specs as [|kwargs specs IH]; intros loaded log H.
  - simpl. now rewrite !app_nil_r.
  - inversion H as [|? ? Hname Hrest]; subst. simpl.
    destruct (get_processor entry_point kwargs) as [p|e].
    + rewrite IH by assumption. now rewrite <- app_assoc.
    + unfold has_name in Hname.
      destruct (dict_get "name" kwargs) as [name|] eqn:E; [|congruence].
      rewrite IH by assumption. simpl. rewrite <- app_assoc.
      unfold diagnostic_of, name_of. simpl. now rewrite E.
Qed.

(** C3: for a section that holds a list of plugin specs, [load_plugins]
    logs one diagnostic, with the name and the exception, for each spec
    that [get_processor] rejects, and goes on; it returns the instances of
    the accepted specs in their order, a list that is not empty, or raises
    [NoPluginsError] with the name of the section when no spec was
    accepted. *)
Theorem load_plugins_partial_failure (conf : dict) (entry_point conf_section : string)
    (specs : list dict) :
  dict_get conf_section conf = Some (VList (map VDict specs)) ->
  Forall has_name specs ->
  let accepted := instances_of instance failure get_processor entry_point specs in
  let rejected := failures_of instance failure get_processor entry_point specs in
  let outcome := load_plugins instance failure get_processor conf entry_point
                   conf_section in
  snd outcome = map diagnostic_of rejected /\
  (accepted = [] ->
   fst outcome = Raise (NoPluginsError
                          ("No plugins were successfully loaded from " ++ conf_section))) /\
  (accepted <> [] -> fst outcome = Ok accepted) /\
  (forall plugins, fst outcome = Ok plugins -> plugins = accepted /\ plugins <> []).
Proof.
  intros Hsec Hnames accepted rejected outcome.
  subst outcome. unfold load_plugins. rewrite Hsec. simpl iterate. cbv iota.
  rewrite (load_loop_spec entry_point specs [] [] Hnames). simpl app.
  fold accepted. fold rejected.
  destruct accepted as [|p ps]; simpl; repeat split; congruence.
Qed.

End LoadPluginsProperties.

Lemma load_plugins_partial_failure_witness :
  (dict_get "extractors" sample_conf = Some (VList (map VDict sample_specs)) /\
   Forall has_name sample_specs) /\
  load_plugins string string sample_get_processor sample_conf "entry" "extractors"
  = (Ok ["regex instance"; "header instance"],
     [Diagnostic (VStr "unregistered") "plugin not found"]).
Proof.
  assert (Hnames : Forall has_name sample_specs)
    by (repeat constructor; discriminate).
  split; [split; [reflexivity | exact Hnames]|].
  pose proof (load_plugins_partial_failure string string sample_get_processor
                sample_conf "entry" "extractors" sample_specs eq_refl Hnames)
    as (Hlog & _ & Hok & _).
  rewrite (surjective_pairing (load_plugins _ _ _ _ _ _)).
  rewrite Hlog, Hok; [reflexivity | discriminate].
Defined.

(** When every spec fails, the error names the section. *)
Lemma load_plugins_all_fail :
  load_plugins string string sample_get_processor
    [("extractors", VList [VDict [("name", VStr "broken")];
                           VDict [("name", VStr "unregistered")]])]
    "entry" "extractors"
  = (Raise (NoPluginsError "No plugins were successfully loaded from extractors"),
     [Diagnostic (VStr "broken") "factory failed";
      Diagnostic (VStr "unregistered") "plugin not found"]).
Proof. reflexivity. Qed.

(** A spec without a ["name"] that is rejected makes the handler itself
    raise, and the call with it. *)
Lemma load_plugins_nameless_spec :
  fst (load_plugins string string sample_get_processor
         [("extractors", VList [VDict [("method", VStr "regex")];
                                VDict [("name", VStr "regex")]])]
         "entry" "extractors")
  = Raise KeyError.
Proof. reflexivity. Qed.

(** ** Sharing between the layers and the result *)

(** C2: the copy of the first layer is shallow, and [append] changes the
    list that the first layer still holds: after merging [{"x": [1, 2]}]
    with [{"x": [2, 3]}] the first layer is [{"x": [1, 2, 3]}]. *)
Theorem dict_merge_changes_first_layer (add_keys : bool) :
  exists l1 l2 h r h',
    sample_store = Some (l1, l2, h) /\
    Heap.reify 2 h l1 = Some store_layer_1 /\
    Heap.reify 2 h l2 = Some store_layer_2 /\
    Heap.dict_merge 4 [l1; l2] add_keys h = Some (Ok r, h') /\
    Heap.reify 2 h' r = Some store_merged /\
    Heap.reify 2 h' l1 = Some store_merged /\
    Heap.reify 2 h' l2 = Some store_layer_2 /\
    store_merged <> store_layer_1.
Proof.
  destruct add_keys; do 5 eexists; repeat split; discriminate.
Qed.

(** On the sample runs, which go through every branch of the body, the
    merge in the store returns what the merge of plain values returns. *)
Lemma store_and_plain_agree_on_samples (add_keys : bool) :
  Forall (fun layers => run_in_store 6 layers add_keys = run_plain layers add_keys)
    sample_runs.
Proof. destruct add_keys; repeat constructor. Qed.

(** ** The order in which the items of a layer are visited

    With [add_keys=False] the layer is rebuilt from a set of keys, whose
    order is not specified.  On plain values the order does not matter:
    every key is visited once and no key is added. *)

Section ItemOrder.
Variable f : value -> value -> result value.
Variable selected : string -> bool.

Lemma merge_items_succeeds (items rtn : dict) :
  NoDup (keys items) ->
  (forall k v, In (k, v) items -> selected k = true ->
               exists x, merge_entry f (dict_get k rtn) v = Ok x) ->
  exists r, merge_items f selected rtn items = Ok r.
Proof.
  revert rtn. induction items as [|[k0 v0] items IH]; intros rtn Hnd H.
  - simpl. eauto.
  - inversion Hnd as [|? ? Hk0 Hnd']; subst. rewrite merge_items_cons.
    destruct (selected k0) eqn:E.
    + destruct (H k0 v0 (or_introl eq_refl) E) as (x & ->). simpl.
      apply IH; [assumption|]. intros k v Hin Hsel.
      rewrite dict_get_set_other; [apply H; simpl; auto|].
      intros ->. apply Hk0. change (In (fst (k, v)) (map fst items)).
      now apply in_map.
    + apply IH; [assumption|]. intros k v Hin. apply H. simpl; auto.
Qed.

Lemma merge_items_entries (items rtn r : dict) (k : string) (v : value) :
  NoDup (keys items) ->
  merge_items f selected rtn items = Ok r ->
  In (k, v) items -> selected k = true ->
  exists x, merge_entry f (dict_get k rtn) v = Ok x.
Proof.
  intros Hnd Hm Hin Hsel.
  pose proof (merge_items_get f selected items rtn r Hnd Hm k) as G.
  rewrite Hsel, (NoDup_dict_get items k v Hnd Hin) in G. simpl in G.
  apply bind_ok in G as (x & Hx & _). eauto.
Qed.

Lemma dict_get_permutation (items items' : dict) (k : string) :
  NoDup (keys items) -> Permutation items items' ->
  dict_get k items = dict_get k items'.
Proof.
  intros Hnd Hp.
  assert (Hnd' : NoDup (keys items'))
    by (eapply Permutation_NoDup; [apply Permutation_map; exact Hp | exact Hnd]).
  destruct (dict_get k items) as [v|] eqn:E.
  - symmetry. apply NoDup_dict_get; [assumption|].
    eapply Permutation_in; [exact Hp | now apply dict_get_In].
  - symmetry. apply dict_get_None. apply dict_get_None in E.
    intros Hin. apply E. unfold keys in *.
    eapply Permutation_in; [apply Permutation_map, Permutation_sym; exact Hp|].
    exact Hin.
Qed.

Lemma filter_none {A} (p : A -> bool) (l : list A) :
  (forall x, In x l -> p x = false) -> filter p l = [].
Proof.
  induction l as [|x l IH]; simpl; intros H; [reflexivity|].
  rewrite (H x) by auto. auto.
Qed.

Lemma merge_items_any_order (items items' rtn r : dict) :
  NoDup (keys rtn) -> NoDup (keys items) -> Permutation items items' ->
  (forall k, selected k = true -> dict_mem k rtn = true) ->
  merge_items f selected rtn items = Ok r ->
  merge_items f selected rtn items' = Ok r.
Proof.
  intros Hrtn Hnd Hp Hsel Hm.
  assert (Hnd' : NoDup (keys items'))
    by (eapply Permutation_NoDup; [apply Permutation_map; exact Hp | exact Hnd]).
  destruct (merge_items_succeeds items' rtn Hnd') as (r' & Hm').
  { intros k v Hin Hk. apply (merge_items_entries items rtn r k v); auto.
    eapply Permutation_in; [apply Permutation_sym; exact Hp | exact Hin]. }
  rewrite Hm'. f_equal.
  assert (Hkeys : forall its r0, NoDup (keys its) ->
                    merge_items f selected rtn its = Ok r0 -> keys r0 = keys rtn).
  { intros its r0 Hn H0. rewrite (merge_items_keys f selected its rtn r0 Hn H0).
    rewrite filter_none; [apply app_nil_r|].
    intros k _. destruct (selected k) eqn:E; [|reflexivity].
    now rewrite (Hsel k E). }
  apply dict_ext.
  - now rewrite (Hkeys items' r' Hnd' Hm').
  - now rewrite (Hkeys items' r' Hnd' Hm'), (Hkeys items r Hnd Hm).
  - intros k.
    pose proof (merge_items_get f selected items rtn r Hnd Hm k) as G.
    pose proof (merge_items_get f selected items' rtn r' Hnd' Hm' k) as G'.
    rewrite <- (dict_get_permutation items items' k Hnd Hp) in G'.
    destruct (selected k); congruence.
Qed.

End ItemOrder.

(** ** Merging an object with itself in the store *)

Lemma preserved_refl (h : Heap.heap) : preserved h h.
Proof. intros r o H; exact H. Qed.

Lemma preserved_trans (h1 h2 h3 : Heap.heap) :
  preserved h1 h2 -> preserved h2 h3 -> preserved h1 h3.
Proof. intros H1 H2 r o H. auto. Qed.

Lemma preserved_app (h h' : Heap.heap) : preserved h (h ++ h').
Proof.
  intros r o H. rewrite nth_error_app1; [assumption|].
  apply nth_error_Some. congruence.
Qed.

Lemma nth_error_update_same (h : Heap.heap) (r : Heap.ref) (o : Heap.object) :
  r < List.length h -> nth_error (Heap.update h r o) r = Some o.
Proof.
  revert r. induction h as [|x h IH]; intros [|r] H; simpl in *; try lia; auto.
  apply IH. lia.
Qed.

Lemma nth_error_update_other (h : Heap.heap) (r r' : Heap.ref) (o : Heap.object) :
  r <> r' -> nth_error (Heap.update h r o) r' = nth_error h r'.
Proof.
  revert r r'. induction h as [|x h IH]; intros [|r] [|r'] H; simpl; try congruence; auto.
Qed.

Lemma length_update (h : Heap.heap) (r : Heap.ref) (o : Heap.object) :
  List.length (Heap.update h r o) = List.length h.
Proof. revert r. induction h as [|x h IH]; intros [|r]; simpl; auto. Qed.

Lemma update_unchanged (h : Heap.heap) (r : Heap.ref) (o : Heap.object) :
  nth_error h r = Some o -> Heap.update h r o = h.
Proof.
  revert r. induction h as [|x h IH]; intros [|r]; simpl; try discriminate; auto.
  - now intros [= ->].
  - intros H. now rewrite IH.
Qed.

Lemma preserved_outside_update (h : Heap.heap) (r : Heap.ref) (o : Heap.object) :
  preserved_outside [r] h (Heap.update h r o).
Proof.
  intros r' o' Hr H. rewrite nth_error_update_other; [assumption|].
  intros ->. apply Hr. now left.
Qed.

Lemma repr_preserved_outside (L : list Heap.ref) (h h' : Heap.heap) (v : value) :
  forall hv, repr L h hv v ->
  (forall r o, ~ In r L -> nth_error h r = Some o -> nth_error h' r = Some o) ->
  repr L h' hv v.
Proof.
  induction v as [| b | z | s | l IH | d IH] using value_nested_ind;
    intros hv Hr Hp; inversion Hr; subst; try constructor.
  - econstructor; eauto.
    match goal with H : Forall2 _ _ _ |- _ => revert H end.
    clear -IH Hp. intros H. induction H as [|x v xs vs Hx _ IHl]; constructor.
    + inversion IH; subst. auto.
    + inversion IH; subst. auto.
  - econstructor; eauto.
    match goal with H : Forall2 _ _ _ |- _ => revert H end.
    clear -IH Hp. intros H. induction H as [|x v xs vs [Hk Hx] _ IHl]; constructor.
    + inversion IH; subst. auto.
    + inversion IH; subst. auto.
Qed.

Lemma repr_preserved (L : list Heap.ref) (h h' : Heap.heap) (hv : Heap.hvalue)
    (v : value) :
  repr L h hv v -> preserved h h' -> repr L h' hv v.
Proof. intros H Hp. eapply repr_preserved_outside; eauto. Qed.

(** A location beyond the store is avoided by every structure in it. *)
Lemma repr_avoid_more (L : list Heap.ref) (h : Heap.heap) (v : value) :
  forall hv r0, repr L h hv v -> List.length h <= r0 -> repr (r0 :: L) h hv v.
Proof.
  induction v as [| b | z | s | l IH | d IH] using value_nested_ind;
    intros hv r0 Hr Hlen; inversion Hr; subst; try constructor.
  - assert (Hlt : r < List.length h) by (apply nth_error_Some; congruence).
    econstructor; eauto.
    + simpl. intros [->|?]; [lia | contradiction].
    + match goal with H : Forall2 _ _ _ |- _ => revert H end.
      clear -IH Hlen. intros H. induction H as [|x v xs vs Hx _ IHl]; constructor;
        inversion IH; subst; auto.
  - assert (Hlt : r < List.length h) by (apply nth_error_Some; congruence).
    econstructor; eauto.
    + simpl. intros [->|?]; [lia | contradiction].
    + match goal with H : Forall2 _ _ _ |- _ => revert H end.
      clear -IH Hlen. intros H. induction H as [|x v xs vs [Hk Hx] _ IHl]; constructor;
        inversion IH; subst; auto.
Qed.

Lemma repr_avoid_less (L : list Heap.ref) (h : Heap.heap) (v : value) :
  forall hv r0, repr (r0 :: L) h hv v -> repr L h hv v.
Proof.
  induction v as [| b | z | s | l IH | d IH] using value_nested_ind;
    intros hv r0 Hr; inversion Hr; subst; try constructor.
  - econstructor; eauto.
    + simpl in *. tauto.
    + match goal with H : Forall2 _ _ _ |- _ => revert H end.
      clear -IH. intros H. induction H as [|x v xs vs Hx _ IHl]; constructor;
        inversion IH; subst; eauto.
  - econstructor; eauto.
    + simpl in *. tauto.
    + match goal with H : Forall2 _ _ _ |- _ => revert H end.
      clear -IH. intros H. induction H as [|x v xs vs [Hk Hx] _ IHl]; constructor;
        inversion IH; subst; eauto.
Qed.



Lemma size_pos (v : value) : 1 <= size v.
Proof. destruct v; simpl; lia. Qed.

Lemma reify_repr (L : list Heap.ref) (h : Heap.heap) (v : value) :
  forall hv fuel, repr L h hv v -> size v <= fuel -> Heap.reify fuel h hv = Some v.
Proof.
  induction v as [| b | z | s | l IH | d IH] using value_nested_ind;
    intros hv fuel Hr Hs;
    (destruct fuel as [|n]; [pose proof (size_pos (ltac:(match type of Hr with repr _ _ _ ?v => exact v end))); lia|]);
    inversion Hr; subst; simpl; try reflexivity.
  - match goal with H : nth_error _ _ = _ |- _ => rewrite H end.
    match goal with H : Forall2 _ _ _ |- _ => revert H end.
    simpl in Hs. apply le_S_n in Hs. revert Hs. clear -IH.
    intros Hs H.
    assert (E : Heap.read_all (Heap.reify n h) items = Some l); [|now rewrite E].
    revert Hs.
    induction H as [|x v xs vs Hx _ IHl]; intros Hs; [reflexivity|].
    inversion IH as [|? ? IHv IHvs]; subst. simpl in Hs. simpl.
    rewrite (IHv x n Hx) by lia. rewrite IHl by (auto; lia). reflexivity.
  - match goal with H : nth_error _ _ = _ |- _ => rewrite H end.
    match goal with H : Forall2 _ _ _ |- _ => revert H end.
    simpl in Hs. apply le_S_n in Hs. revert Hs. clear -IH.
    intros Hs H.
    assert (E : Heap.read_items (Heap.reify n h) items = Some d); [|now rewrite E].
    revert Hs.
    induction H as [|[k x] [k' v] xs vs [Hk Hx] _ IHl]; intros Hs; [reflexivity|].
    inversion IH as [|? ? IHv IHvs]; subst. simpl in *. subst k'.
    rewrite (IHv x n Hx) by lia. rewrite IHl by (auto; lia). reflexivity.
Qed.



Lemma heq_same (fuel : nat) (h : Heap.heap) (x : Heap.hvalue) : Heap.heq fuel h x x = Some true.
Proof.
  destruct fuel, x; simpl;
    rewrite ?Bool.eqb_reflx, ?Z.eqb_refl, ?String.eqb_refl, ?Nat.eqb_refl;
    reflexivity.
Qed.

Lemma hget_repr (L : list Heap.ref) (h : Heap.heap) (items : list (string * Heap.hvalue))
    (d : dict) (k : string) :
  Forall2 (fun hkv kv => fst hkv = fst kv /\ repr L h (snd hkv) (snd kv)) items d ->
  match Heap.hget k items with
  | Some hv => exists v, dict_get k d = Some v /\ repr L h hv v
  | None => dict_get k d = None
  end.
Proof.
  induction 1 as [|[k1 x] [k2 v] xs vs [Hk Hx] _ IH]; simpl in *; [reflexivity|].
  subst k2. destruct (String.eqb k k1); eauto.
Qed.

Lemma size_element (l : list value) (x : value) :
  In x l -> size x < size (VList l).
Proof.
  simpl. induction l as [|y l IH]; simpl; [tauto|].
  intros [->|H]; [lia|]. specialize (IH H). lia.
Qed.

Lemma size_entry (d : dict) (k : string) (v : value) :
  In (k, v) d -> size v < size (VDict d).
Proof.
  simpl. induction d as [|[k' y] d IH]; simpl; [tauto|].
  intros [[= -> ->]|H]; [lia|]. specialize (IH H). lia.
Qed.

Lemma heq_total (L : list Heap.ref) (h : Heap.heap) (vx : value) :
  forall x y vy fuel,
    repr L h x vx -> repr L h y vy -> size vx <= fuel ->
    exists b, Heap.heq fuel h x y = Some b.
Proof.
  induction vx as [| b | z | s | l IH | d IH] using value_nested_ind;
    intros x y vy fuel Hx Hy Hs; inversion Hx; subst;
    try (destruct fuel, y; simpl; eauto; fail).
  - (* list *)
    inversion Hy; subst; try (destruct fuel; simpl; eauto; fail).
    + destruct fuel as [|n]; [simpl in Hs; lia|]. simpl.
      destruct (Nat.eqb r r0); [eauto|].
      repeat match goal with H : nth_error _ _ = _ |- _ => rewrite H; clear H end.
      simpl in Hs. apply le_S_n in Hs.
      match goal with H : Forall2 _ items l |- _ => rename H into H1 end.
      match goal with H : Forall2 _ items0 l0 |- _ => rename H into H2 end.
      clear -IH H1 H2 Hs. revert items0 l0 H2 Hs.
      induction H1 as [|x v xs vs Hxv _ IHl]; intros items0 l0 H2 Hs;
        inversion H2 as [|y w ys ws Hyw Hrest]; subst; simpl; eauto.
      inversion IH as [|? ? IHv IHvs]; subst. simpl in Hs.
      destruct (IHv x y w n Hxv Hyw ltac:(lia)) as ([|] & ->); eauto.
      apply (IHl IHvs ys ws); [assumption | lia].
    + destruct fuel as [|n]; [simpl in Hs; lia|]. simpl.
      destruct (Nat.eqb r r0); [eauto|].
      repeat match goal with H : nth_error _ _ = _ |- _ => rewrite H; clear H end.
      eauto.
  - (* dict *)
    inversion Hy; subst; try (destruct fuel; simpl; eauto; fail).
    + destruct fuel as [|n]; [simpl in Hs; lia|]. simpl.
      destruct (Nat.eqb r r0); [eauto|].
      repeat match goal with H : nth_error _ _ = _ |- _ => rewrite H; clear H end.
      eauto.
    + destruct fuel as [|n]; [simpl in Hs; lia|]. simpl.
      destruct (Nat.eqb r r0); [eauto|].
      repeat match goal with H : nth_error _ _ = _ |- _ => rewrite H; clear H end.
      destruct (Nat.eqb _ _); [|eauto].
      simpl in Hs. apply le_S_n in Hs.
      match goal with H : Forall2 _ items d |- _ => rename H into H1 end.
      match goal with H : Forall2 _ items0 d0 |- _ => rename H into H2 end.
      clear -IH H1 H2 Hs. revert Hs.
      induction H1 as [|[k x] [k' v] xs vs [Hk Hxv] _ IHl]; intros Hs; simpl; eauto.
      inversion IH as [|? ? IHv IHvs]; subst. simpl in *. subst k'.
      pose proof (hget_repr L h items0 d0 k H2) as G.
      destruct (Heap.hget k items0) as [w|]; [|eauto].
      destruct G as (vw & _ & Hw).
      destruct (IHv x w vw n Hxv Hw ltac:(lia)) as ([|] & ->); eauto.
      apply IHl; [assumption | lia].
Qed.

(** A list contains each of its own elements. *)
Lemma any_own_element (L : list Heap.ref) (h : Heap.heap) (fuel : nat)
    (items : list Heap.hvalue) (l : list value) (x : Heap.hvalue) :
  Forall2 (repr L h) items l ->
  size (VList l) <= S fuel ->
  In x items ->
  Heap.any (Heap.heq fuel h) x items = Some true.
Proof.
  intros H Hs Hin.
  assert (Hx : exists vx, repr L h x vx).
  { clear Hs. induction H as [|y v ys vs Hy _ IH]; [contradiction|].
    destruct Hin as [->|Hin]; eauto. }
  destruct Hx as (vx & Hx).
  simpl in Hs. apply le_S_n in Hs. revert Hs Hin.
  induction H as [|y v ys vs Hy _ IH]; intros Hs Hin; [contradiction|].
  simpl. simpl in Hs.
  destruct Hin as [->|Hin]; [now rewrite heq_same|].
  destruct (heq_total L h v y x vx fuel Hy Hx ltac:(lia)) as ([|] & ->);
    [reflexivity|].
  apply IH; [lia | assumption].
Qed.



Lemma repr_functional (L : list Heap.ref) (h : Heap.heap) (v : value) :
  forall hv v', repr L h hv v -> repr L h hv v' -> v = v'.
Proof.
  induction v as [| b | z | s | l IH | d IH] using value_nested_ind;
    intros hv v' H1 H2; inversion H1; subst; inversion H2; subst;
    try reflexivity; try congruence.
  - f_equal.
    match goal with H : nth_error h r = Some (Heap.OList items0) |- _ =>
      rewrite H in *; clear H end.
    match goal with H : Some _ = Some _ |- _ => injection H as -> end.
    match goal with H : Forall2 _ items l |- _ => rename H into F1 end.
    match goal with H : Forall2 _ items _ |- _ => rename H into F2 end.
    clear -IH F1 F2. revert l0 F2.
    induction F1 as [|x v xs vs Hx _ IHl]; intros l0 F2;
      inversion F2 as [|? w ? ws Hw Hrest]; subst; [reflexivity|].
    inversion IH as [|? ? IHv IHvs]; subst.
    f_equal; eauto.
  - f_equal.
    match goal with H : nth_error h r = Some (Heap.ODict items0) |- _ =>
      rewrite H in *; clear H end.
    match goal with H : Some _ = Some _ |- _ => injection H as -> end.
    match goal with H : Forall2 _ items d |- _ => rename H into F1 end.
    match goal with H : Forall2 _ items _ |- _ => rename H into F2 end.
    clear -IH F1 F2. revert d0 F2.
    induction F1 as [|[k x] [k1 v] xs vs [Hk Hx] _ IHl]; intros d0 F2;
      inversion F2 as [|? [k2 w] ? ws [Hk2 Hw] Hrest]; subst; [reflexivity|].
    inversion IH as [|? ? IHv IHvs]; subst. simpl in *. subst.
    f_equal; [f_equal|]; eauto.
Qed.

Lemma run_get_dict (h : Heap.heap) (r : Heap.ref) (items : list (string * Heap.hvalue)) :
  nth_error h r = Some (Heap.ODict items) ->
  Heap.get_dict (Heap.HRef r) h = Some (Ok items, h).
Proof. intros H. unfold Heap.get_dict, Heap.mbind, Heap.read. now rewrite H. Qed.

Lemma run_set_item (h : Heap.heap) (l : Heap.ref) (items : list (string * Heap.hvalue))
    (k : string) (v : Heap.hvalue) :
  nth_error h l = Some (Heap.ODict items) ->
  Heap.set_item l k v h
  = Some (Ok tt, Heap.update h l (Heap.ODict (Heap.hset k v items))).
Proof.
  intros H. unfold Heap.set_item, Heap.mbind. now rewrite (run_get_dict h l items H).
Qed.

Lemma run_truthy (L : list Heap.ref) (h : Heap.heap) (hv : Heap.hvalue) (v : value) :
  repr L h hv v -> Heap.truthy hv h = Some (Ok (truthy v), h).
Proof.
  intros H. inversion H; subst; try reflexivity;
    unfold Heap.truthy, Heap.mbind, Heap.read;
    match goal with E : nth_error _ _ = _ |- _ => rewrite E end;
    match goal with F : Forall2 _ _ _ |- _ => inversion F; subst; reflexivity end.
Qed.

Lemma run_type_of (L : list Heap.ref) (h : Heap.heap) (hv : Heap.hvalue) (v : value) :
  repr L h hv v -> Heap.type_of hv h = Some (Ok (type_of v), h).
Proof.
  intros H. inversion H; subst; try reflexivity;
    unfold Heap.type_of, Heap.mbind, Heap.read;
    match goal with E : nth_error _ _ = _ |- _ => rewrite E end; reflexivity.
Qed.

Lemma hset_unchanged (k : string) (v : Heap.hvalue) (items : list (string * Heap.hvalue)) :
  Heap.hget k items = Some v -> Heap.hset k v items = items.
Proof.
  induction items as [|[k' v'] items IH]; simpl; [discriminate|].
  destruct (String.eqb k k'); [intros [= ->]; reflexivity|].
  intros H. now rewrite IH.
Qed.

Lemma hget_hset_other (k k' : string) (v : Heap.hvalue)
    (items : list (string * Heap.hvalue)) :
  k <> k' -> Heap.hget k' (Heap.hset k v items) = Heap.hget k' items.
Proof.
  intros Hk. induction items as [|[k0 v0] items IH]; simpl.
  - destruct (String.eqb_spec k' k); congruence.
  - destruct (String.eqb_spec k k0) as [->|]; simpl.
    + destruct (String.eqb_spec k' k0); congruence.
    + now rewrite IH.
Qed.

Lemma issubclass_refl (t : pytype) : issubclass t t = true.
Proof. now destruct t. Qed.

(** Iterating over a list while testing its own elements against it
    appends nothing. *)
Lemma extend_loop_same_list (L : list Heap.ref) (h : Heap.heap) (fuel : nat)
    (r : Heap.ref) (items : list Heap.hvalue) (l : list value) :
  nth_error h r = Some (Heap.OList items) ->
  Forall2 (repr L h) items l ->
  size (VList l) <= S fuel ->
  forall n i, i <= List.length items -> List.length items < n + i ->
              Heap.extend_loop fuel n r r i h = Some (Ok tt, h).
Proof.
  intros Hr Hitems Hs. induction n as [|n IH]; intros i Hi Hn; [lia|].
  simpl. unfold Heap.mbind at 1. unfold Heap.read at 1. rewrite Hr.
  destruct (nth_error items i) as [x|] eqn:E; [|reflexivity].
  assert (Hlt : i < List.length items) by (apply nth_error_Some; congruence).
  unfold Heap.mbind at 1. unfold Heap.mbind at 1. unfold Heap.contains. rewrite Hr.
  rewrite (any_own_element L h fuel items l x Hitems Hs (nth_error_In _ _ E)).
  unfold Heap.ret at 1. apply IH; lia.
Qed.


Lemma entries_hset (L : list Heap.ref) (h : Heap.heap)
    (cur : list (string * Heap.hvalue)) (d : dict) (k : string)
    (hx : Heap.hvalue) (x : value) :
  Forall2 (fun hkv kv => fst hkv = fst kv /\ repr L h (snd hkv) (snd kv)) cur d ->
  dict_get k d = Some x -> repr L h hx x ->
  Forall2 (fun hkv kv => fst hkv = fst kv /\ repr L h (snd hkv) (snd kv))
    (Heap.hset k hx cur) d.
Proof.
  intros H. induction H as [|[k1 y] [k2 v] ys vs [Hk Hy] Hrest IH]; simpl;
    [discriminate|].
  simpl in Hk. subst k2. destruct (String.eqb k k1).
  - intros [= ->] Hx. constructor; [split; [reflexivity | exact Hx] | exact Hrest].
  - intros Hg Hx. constructor; [split; [reflexivity | exact Hy] | auto].
Qed.

Lemma entries_preserved_outside (L : list Heap.ref) (h h' : Heap.heap)
    (cur : list (string * Heap.hvalue)) (d : dict) :
  Forall2 (fun hkv kv => fst hkv = fst kv /\ repr L h (snd hkv) (snd kv)) cur d ->
  (forall r o, ~ In r L -> nth_error h r = Some o -> nth_error h' r = Some o) ->
  Forall2 (fun hkv kv => fst hkv = fst kv /\ repr L h' (snd hkv) (snd kv)) cur d.
Proof.
  intros H Hp. induction H as [|x y xs ys [Hk Hx] _ IH]; constructor; auto.
  split; [assumption|]. eapply repr_preserved_outside; eauto.
Qed.

Lemma preserved_outside_weaken (l : Heap.ref) (L : list Heap.ref) (h h' : Heap.heap) :
  preserved_outside [l] h h' ->
  forall r o, ~ In r (l :: L) -> nth_error h r = Some o -> nth_error h' r = Some o.
Proof. intros H r o Hr. apply H. simpl in *. tauto. Qed.

Section SelfMergeLoop.
Variables (fuel n : nat) (add_keys : bool) (L : list Heap.ref) (l : Heap.ref) (d : dict).
Hypothesis IHd : Forall (fun kv => self_merge_ok (snd kv)) d.
Hypothesis Hwf : wf (VDict d) = true.
Hypothesis Hsize_n : size (VDict d) <= n.
Hypothesis Hsize_fuel : size (VDict d) <= fuel.

Local Abbreviation entries h := (Forall2 (fun hkv kv => fst hkv = fst kv /\ repr (l :: L) h (snd hkv) (snd kv))).

Lemma self_merge_step (h : Heap.heap) (cur : list (string * Heap.hvalue))
    (k : string) (hv : Heap.hvalue) (w : value) :
  nth_error h l = Some (Heap.ODict cur) ->
  entries h cur d ->
  In (k, w) d ->
  repr (l :: L) h hv w ->
  Heap.hget k cur = Some hv ->
  (forall r, In r (l :: L) -> r < List.length h) ->
  exists h' cur',
    Heap.merge_step fuel (Heap.dict_merge n) add_keys l (k, hv) h = Some (Ok tt, h') /\
    nth_error h' l = Some (Heap.ODict cur') /\
    entries h' cur' d /\
    preserved_outside [l] h h' /\
    (forall k', k <> k' -> Heap.hget k' cur' = Heap.hget k' cur).
Proof.
  intros Hl Hcur Hin Hw Hget HL.
  assert (Hunchanged :
    Heap.set_item l k hv h = Some (Ok tt, h)).
  { rewrite (run_set_item h l cur k hv Hl), hset_unchanged by assumption.
    now rewrite update_unchanged. }
  assert (Hsame : exists h' cur',
    Some (Ok tt, h) = Some (Ok tt, h') /\
    nth_error h' l = Some (Heap.ODict cur') /\
    entries h' cur' d /\
    preserved_outside [l] h h' /\
    (forall k', k <> k' -> Heap.hget k' cur' = Heap.hget k' cur)).
  { exists h, cur. repeat split; auto. intros r o _ H. exact H. }
  unfold Heap.merge_step.
  unfold Heap.mbind at 1. rewrite (run_get_dict h l cur Hl). rewrite Hget.
  unfold Heap.mbind at 1. rewrite (run_truthy _ h hv w Hw).
  destruct (truthy w) eqn:Et; cbn [negb]; cbv beta iota; [|now rewrite Hunchanged].
  unfold Heap.mbind at 1. rewrite (run_type_of _ h hv w Hw).
  unfold Heap.mbind at 1. rewrite (run_type_of _ h hv w Hw).
  rewrite issubclass_refl. cbn [negb]. cbv beta iota.
  destruct w as [| b | z | s | lw | dw]; cbn [type_of]; cbv beta iota;
    try (now rewrite Hunchanged).
  - (* a list: the loop over its own elements *)
    inversion Hw; subst.
    assert (Hlen : List.length items = List.length lw)
      by (eapply Forall2_length; eassumption).
    assert (Hsz : size (VList lw) < size (VDict d)) by (eapply size_entry; eauto).
    assert (Hlw : List.length lw < size (VList lw)).
    { clear. simpl. induction lw as [|x lw IH]; simpl; [lia|].
      pose proof (size_pos x). lia. }
    rewrite (extend_loop_same_list (l :: L) h fuel r items lw); auto; try lia.
  - (* a dictionary: the recursive call *)
    rewrite Forall_forall in IHd.
    assert (Hsz : size (VDict dw) < size (VDict d)) by (eapply size_entry; eauto).
    assert (Wd : wf (VDict dw) = true).
    { apply wf_VDict in Hwf as [_ Hwf']. eauto. }
    pose proof (IHd (k, VDict dw) Hin) as IHw. cbn [snd] in IHw.
    destruct (IHw (l :: L) h hv n add_keys dw eq_refl Hw Wd HL ltac:(lia))
      as (r' & h' & Hrun & Hr' & Hpres).
    unfold Heap.mbind at 1. rewrite Hrun.
    assert (Hl' : nth_error h' l = Some (Heap.ODict cur)) by (apply Hpres; exact Hl).
    rewrite (run_set_item h' l cur k r' Hl').
    assert (Hlt : l < List.length h') by (apply nth_error_Some; congruence).
    do 2 eexists. split; [reflexivity|]. split; [now apply nth_error_update_same|].
    assert (Hout : forall r o, ~ In r (l :: L) -> nth_error h r = Some o ->
                               nth_error (Heap.update h' l (Heap.ODict (Heap.hset k r' cur))) r
                               = Some o).
    { intros r o Hr Ho. rewrite nth_error_update_other; [now apply Hpres|].
      intros ->. apply Hr. now left. }
    split; [|split].
    + pose proof (hget_repr (l :: L) h cur d k Hcur) as G. rewrite Hget in G.
      destruct G as (w0 & Hw0 & Hrep0).
      assert (w0 = VDict dw) by (eapply repr_functional; eauto). subst w0.
      apply entries_hset with (x := VDict dw); [|assumption|].
      * eapply entries_preserved_outside; [exact Hcur | exact Hout].
      * eapply repr_preserved_outside; [exact Hr'|].
        intros r o Hr Ho. rewrite nth_error_update_other; [assumption|].
        intros ->. apply Hr. now left.
    + intros r o Hr Ho. rewrite nth_error_update_other; [now apply Hpres|].
      intros ->. apply Hr. now left.
    + intros k' Hk'. now apply hget_hset_other.
Qed.

Lemma self_merge_loop (todo_h : list (string * Heap.hvalue)) (todo : dict) :
  forall (h : Heap.heap) (cur : list (string * Heap.hvalue)),
    nth_error h l = Some (Heap.ODict cur) ->
    entries h cur d ->
    entries h todo_h todo ->
    incl todo d ->
    NoDup (map fst todo_h) ->
    (forall k hv, In (k, hv) todo_h -> Heap.hget k cur = Some hv) ->
    (forall r, In r (l :: L) -> r < List.length h) ->
    exists h' cur',
      Heap.for_each (Heap.merge_step fuel (Heap.dict_merge n) add_keys l) todo_h h
      = Some (Ok tt, h') /\
      nth_error h' l = Some (Heap.ODict cur') /\
      entries h' cur' d /\
      preserved_outside [l] h h'.
Proof.
  revert todo. induction todo_h as [|[k hv] rest IH]; intros todo h cur Hl Hcur Htodo Hincl Hnd Hget HL.
  - exists h, cur. repeat split; auto. intros r o _ H. exact H.
  - inversion Htodo as [|? [k' w] ? todo' [Hk Hw] Hrest]; subst. simpl in Hk. subst k'.
    simpl in Hw. inversion Hnd as [|? ? Hknot Hnd']; subst.
    destruct (self_merge_step h cur k hv w Hl Hcur (Hincl _ (or_introl eq_refl)) Hw
                (Hget k hv (or_introl eq_refl)) HL)
      as (h1 & cur1 & Hrun & Hl1 & Hcur1 & Hp1 & Hother).
    assert (HL1 : forall r, In r (l :: L) -> r < List.length h1).
    { intros r [<-|Hr].
      - apply nth_error_Some. congruence.
      - assert (Hr' : r < List.length h) by (apply HL; now right).
        destruct (nth_error h r) as [o|] eqn:E;
          [|apply nth_error_None in E; lia].
        destruct (Nat.eq_dec r l) as [->|Hne]; [apply nth_error_Some; congruence|].
        apply nth_error_Some. rewrite (Hp1 r o); [discriminate| |assumption].
        intros [->|[]]. congruence. }
    destruct (IH todo' h1 cur1 Hl1 Hcur1) as (h2 & cur2 & Hrun2 & Hl2 & Hcur2 & Hp2);
      auto.
    + eapply entries_preserved_outside; [exact Hrest|].
      now apply preserved_outside_weaken.
    + intros x Hx. apply Hincl. now right.
    + intros k' hv' Hin'. rewrite Hother; [apply Hget; now right|].
      intros ->. apply Hknot. change (In (fst (k', hv')) (map fst rest)).
      now apply in_map.
    + exists h2, cur2. repeat split; auto.
      * cbn [Heap.for_each]. unfold Heap.mbind at 1. rewrite Hrun. exact Hrun2.
      * intros r o Hr Ho. apply Hp2; [assumption|]. now apply Hp1.
Qed.

End SelfMergeLoop.

Lemma filter_all {A} (p : A -> bool) (l : list A) :
  (forall x, In x l -> p x = true) -> filter p l = l.
Proof.
  induction l as [|x l IH]; simpl; intros H; [reflexivity|].
  rewrite (H x) by auto. f_equal. auto.
Qed.

Lemma entries_keys (L : list Heap.ref) (h : Heap.heap)
    (items : list (string * Heap.hvalue)) (d : dict) :
  Forall2 (fun hkv kv => fst hkv = fst kv /\ repr L h (snd hkv) (snd kv)) items d ->
  map fst items = keys d.
Proof.
  induction 1 as [|x y xs ys [Hk _] _ IH]; simpl; [reflexivity|]. congruence.
Qed.

Lemma NoDup_hget (items : list (string * Heap.hvalue)) (k : string) (v : Heap.hvalue) :
  NoDup (map fst items) -> In (k, v) items -> Heap.hget k items = Some v.
Proof.
  induction items as [|[k' v'] items IH]; simpl; [tauto|].
  intros Hnd [[= -> ->]|Hin].
  - now rewrite String.eqb_refl.
  - inversion Hnd as [|? ? Hk Hd]; subst.
    destruct (String.eqb_spec k k') as [->|]; [|auto].
    exfalso. apply Hk. change (In (fst (k', v)) (map fst items)). now apply in_map.
Qed.

Lemma self_merge (v : value) : self_merge_ok v.
Proof.
  induction v as [| b | z | s | lv _ | d IH] using value_nested_ind;
    intros L h hv fuel add_keys d0 E Hr Hwf HL Hsize; try discriminate.
  injection E as <-.
  destruct fuel as [|n]; [lia|].
  inversion Hr as [| | | | |r items d' Hnot Hnth Hitems]; subst.
  set (l := List.length h).
  set (h1 := h ++ [Heap.ODict items]).
  assert (Hl1 : nth_error h1 l = Some (Heap.ODict items)).
  { unfold h1, l. rewrite nth_error_app2, Nat.sub_diag by lia. reflexivity. }
  assert (Hp1 : preserved h h1) by apply preserved_app.
  assert (Hlen : r < l) by (apply nth_error_Some; congruence).
  assert (Hentries : Forall2 (fun hkv kv => fst hkv = fst kv /\
                                repr (l :: L) h1 (snd hkv) (snd kv)) items d).
  { assert (Hl0 : List.length h <= l) by (unfold l; lia).
    clearbody l h1. clear -Hitems Hp1 Hl0.
    induction Hitems as [|x y xs ys [Hk Hx] _ IHl]; constructor; auto.
    split; [assumption|].
    eapply repr_preserved; [|exact Hp1]. now apply repr_avoid_more. }
  assert (Hnd : NoDup (map fst items)).
  { rewrite (entries_keys _ _ _ _ Hitems). now apply wf_VDict in Hwf. }
  assert (HL1 : forall r0, In r0 (l :: L) -> r0 < List.length h1).
  { unfold h1. rewrite length_app. simpl. intros r0 [<-|H0]; [fold l; lia|].
    specialize (HL r0 H0). lia. }
  destruct (self_merge_loop (S n) n add_keys L l d IH Hwf ltac:(lia) ltac:(lia)
              items d h1 items Hl1 Hentries Hentries (incl_refl d) Hnd
              (fun k hv Hin => NoDup_hget items k hv Hnd Hin) HL1)
    as (h2 & cur2 & Hrun & Hl2 & Hcur2 & Hp2).
  exists (Heap.HRef l), h2. split; [|split].
  - cbn [Heap.dict_merge]. unfold Heap.dict_merge_body.
    unfold Heap.mbind at 1. rewrite (run_get_dict h r items Hnth).
    unfold Heap.mbind at 1. unfold Heap.new_object. fold l. fold h1.
    unfold Heap.mbind at 1. cbn [Heap.for_each].
    unfold Heap.mbind at 1. unfold Heap.merge_layer at 1.
    unfold Heap.mbind at 1. rewrite (run_get_dict h1 r items (Hp1 _ _ Hnth)).
    unfold Heap.mbind at 1. rewrite (run_get_dict h1 l items Hl1).
    assert (Hsel : (if add_keys then items
                    else filter (fun kv => match Heap.hget (fst kv) items with
                                           | Some _ => true
                                           | None => false
                                           end) items) = items).
    { destruct add_keys; [reflexivity|]. apply filter_all.
      intros [k hv] Hin. simpl. now rewrite (NoDup_hget items k hv Hnd Hin). }
    rewrite Hsel. rewrite Hrun. reflexivity.
  - apply repr_dict with (items := cur2); [|assumption|].
    + intros Hin. specialize (HL l Hin). unfold l in HL. lia.
    + clear -Hcur2. induction Hcur2 as [|x y xs ys [Hk Hx] _ IHl]; constructor; auto.
      split; [assumption|]. eapply repr_avoid_less; eauto.
  - intros r0 o Ho. apply Hp2.
    + intros [<-|[]]. assert (l < List.length h) by (apply nth_error_Some; congruence).
      unfold l in *. lia.
    + now apply Hp1.
Qed.


Lemma elements_preserved (L : list Heap.ref) (h h' : Heap.heap)
    (items : list Heap.hvalue) (l : list value) :
  Forall2 (repr L h) items l -> preserved h h' -> Forall2 (repr L h') items l.
Proof.
  intros H Hp. induction H; constructor; auto. eapply repr_preserved; eauto.
Qed.

Lemma entries_preserved (L : list Heap.ref) (h h' : Heap.heap)
    (items : list (string * Heap.hvalue)) (d : dict) :
  Forall2 (fun hkv kv => fst hkv = fst kv /\ repr L h (snd hkv) (snd kv)) items d ->
  preserved h h' ->
  Forall2 (fun hkv kv => fst hkv = fst kv /\ repr L h' (snd hkv) (snd kv)) items d.
Proof.
  intros H Hp. eapply entries_preserved_outside; [exact H|]. intros r o _. apply Hp.
Qed.

Lemma alloc_repr (v : value) :
  forall h, exists hv h',
    Heap.alloc v h = Some (Ok hv, h') /\ repr [] h' hv v /\ preserved h h'.
Proof.
  induction v as [| b | z | s | l IH | d IH] using value_nested_ind; intros h;
    try (do 2 eexists; split; [reflexivity|]; split; [constructor | apply preserved_refl]).
  - assert (H : exists items h1,
               Heap.build_all Heap.alloc l h = Some (Ok items, h1) /\
               Forall2 (repr [] h1) items l /\ preserved h h1).
    { revert h. induction IH as [|x l Hx _ IHl]; intros h.
      - exists [], h. repeat split; [constructor | apply preserved_refl].
      - destruct (Hx h) as (hx & ha & Ea & Ra & Pa).
        destruct (IHl ha) as (hl & hb & Eb & Rb & Pb).
        exists (hx :: hl), hb. split; [|split].
        + cbn [Heap.build_all]. unfold Heap.mbind at 1. rewrite Ea.
          unfold Heap.mbind at 1. rewrite Eb. reflexivity.
        + constructor; [eapply repr_preserved; eauto | assumption].
        + eapply preserved_trans; eauto. }
    destruct H as (items & h1 & E & R & P).
    exists (Heap.HRef (List.length h1)), (h1 ++ [Heap.OList items]). split; [|split].
    + cbn [Heap.alloc]. unfold Heap.mbind. rewrite E. reflexivity.
    + apply repr_list with (items := items); [tauto| |].
      * rewrite nth_error_app2, Nat.sub_diag by lia. reflexivity.
      * eapply elements_preserved; [exact R | apply preserved_app].
    + eapply preserved_trans; [exact P | apply preserved_app].
  - assert (H : exists items h1,
               Heap.build_items Heap.alloc d h = Some (Ok items, h1) /\
               Forall2 (fun hkv kv => fst hkv = fst kv /\ repr [] h1 (snd hkv) (snd kv))
                 items d /\ preserved h h1).
    { revert h. induction IH as [|[k x] d Hx _ IHl]; intros h.
      - exists [], h. repeat split; [constructor | apply preserved_refl].
      - simpl in Hx. destruct (Hx h) as (hx & ha & Ea & Ra & Pa).
        destruct (IHl ha) as (hl & hb & Eb & Rb & Pb).
        exists ((k, hx) :: hl), hb. split; [|split].
        + cbn [Heap.build_items snd fst]. unfold Heap.mbind at 1. rewrite Ea.
          unfold Heap.mbind at 1. rewrite Eb. reflexivity.
        + constructor; [split; [reflexivity|]; eapply repr_preserved; eauto
                       | assumption].
        + eapply preserved_trans; eauto. }
    destruct H as (items & h1 & E & R & P).
    exists (Heap.HRef (List.length h1)), (h1 ++ [Heap.ODict items]). split; [|split].
    + cbn [Heap.alloc]. unfold Heap.mbind. rewrite E. reflexivity.
    + apply repr_dict with (items := items); [tauto| |].
      * rewrite nth_error_app2, Nat.sub_diag by lia. reflexivity.
      * eapply entries_preserved; [exact R | apply preserved_app].
    + eapply preserved_trans; [exact P | apply preserved_app].
Qed.

(** C5: merging a dictionary with itself returns that dictionary, with
    either [add_keys] setting: as plain values, and in the store when the
    same object is passed twice, where the call changes no object that
    existed before. *)
Theorem dict_merge_idempotent (add_keys : bool) (x : dict) :
  wf_dict x = true ->
  dict_merge [x; x] add_keys = Ok x /\
  py_eq (VDict x) (VDict x) = true /\
  forall (h : Heap.heap) (rx : Heap.hvalue) (fuel : nat),
    repr [] h rx (VDict x) -> size (VDict x) < fuel ->
    exists r h',
      Heap.dict_merge fuel [rx; rx] add_keys h = Some (Ok r, h') /\
      Heap.reify fuel h' r = Some (VDict x) /\
      preserved h h'.
Proof.
  intros Hwf. split; [|split].
  - now apply dict_merge_same_layers.
  - now apply py_eq_refl.
  - intros h rx fuel Hrepr Hsize.
    destruct (self_merge (VDict x) [] h rx fuel add_keys x eq_refl Hrepr Hwf
                ltac:(intros r []) Hsize) as (r & h' & Hrun & Hr & Hp).
    exists r, h'. repeat split; [assumption | | assumption].
    eapply reify_repr; [exact Hr | lia].
Qed.

Lemma dict_merge_idempotent_witness :
  wf_dict layer_a = true /\
  dict_merge [layer_a; layer_a] false = Ok layer_a /\
  exists rx h r h',
    Heap.alloc (VDict layer_a) [] = Some (Ok rx, h) /\
    Heap.dict_merge 9 [rx; rx] false h = Some (Ok r, h') /\
    Heap.reify 9 h' r = Some (VDict layer_a).
Proof.
  destruct (dict_merge_idempotent false layer_a eq_refl) as (Hplain & _ & Hstore).
  split; [reflexivity|]. split; [exact Hplain|].
  destruct (alloc_repr (VDict layer_a) []) as (rx & h & Halloc & Hrepr & _).
  destruct (Hstore h rx 9 Hrepr) as (r & h' & Hrun & Hread & _);
    [simpl; lia|].
  exists rx, h, r, h'. auto.
Defined.

(** ** The store and the plain function agree on unshared layers

    When no object is shared between the layers or inside one of them, the
    merge in the store and the plain [dict_merge] return the same value and
    raise the same errors. The plain function is then a faithful account
    of the code; sharing is what [Heap.dict_merge] adds. *)

(** The proofs below compute with these functions again. *)
#[local] Arguments py_in : clear simpl.
#[local] Arguments extend_unique : clear simpl.
#[local] Arguments merge_layer : clear simpl.
#[local] Arguments wf : clear simpl.
#[local] Arguments truthy : clear simpl.

(** *** The size of a merged dictionary *)

Lemma size_VList (l : list value) : size (VList l) = S (sizes l).
Proof. reflexivity. Qed.

Lemma size_VDict (d : dict) : size (VDict d) = S (entry_sizes d).
Proof. reflexivity. Qed.

Lemma sizes_app (l l' : list value) : sizes (l ++ l') = sizes l + sizes l'.
Proof. induction l as [|x l IH]; simpl; [reflexivity | rewrite IH; lia]. Qed.

Lemma extend_unique_size (acc v : list value) :
  sizes (extend_unique acc v) <= sizes acc + sizes v.
Proof.
  revert acc. induction v as [|x v IH]; intros acc; simpl; [lia|].
  destruct (py_in x acc).
  - specialize (IH acc). lia.
  - specialize (IH (acc ++ [x])). rewrite sizes_app in IH. simpl in IH. lia.
Qed.

Lemma sizes_elements (v : value) : sizes (elements v) < size v.
Proof. destruct v; unfold sizes; simpl; lia. Qed.

Lemma entry_sizes_set (k : string) (x : value) (d : dict) :
  entry_sizes (dict_set k x d)
  + match dict_get k d with Some old => size old | None => 0 end
  = entry_sizes d + size x.
Proof.
  induction d as [|[k' v'] d IH]; simpl.
  - lia.
  - destruct (String.eqb k k'); simpl; lia.
Qed.

Section MergeItemsSize.
Variable f : value -> value -> result value.
Variable selected : string -> bool.

Lemma merge_items_size (items : dict) :
  (forall old v x, In v (map snd items) -> f old v = Ok x ->
                   size x <= size old + size v) ->
  forall rtn r,
    merge_items f selected rtn items = Ok r ->
    entry_sizes r <= entry_sizes rtn + entry_sizes items.
Proof.
  induction items as [|[k v] items IH]; intros Hf rtn r Hm.
  - simpl in Hm. injection Hm as <-. simpl. lia.
  - rewrite merge_items_cons in Hm.
    assert (Hf' : forall old v x, In v (map snd items) -> f old v = Ok x ->
                                  size x <= size old + size v).
    { intros old v' x Hin. apply Hf. now right. }
    destruct (selected k).
    + apply bind_ok in Hm as (x & Hx & Hm).
      specialize (IH Hf' _ _ Hm).
      pose proof (entry_sizes_set k x rtn) as Hset.
      assert (Hxs : size x <= match dict_get k rtn with
                              | Some old => size old
                              | None => 0
                              end + size v).
      { unfold merge_entry in Hx. destruct (dict_get k rtn) as [old|].
        - destruct (truthy old).
          + apply (Hf old v x); [now left | assumption].
          + injection Hx as <-. lia.
        - injection Hx as <-. lia. }
      simpl. lia.
    + specialize (IH Hf' _ _ Hm). simpl. lia.
Qed.
End MergeItemsSize.

Lemma merge_value_size (add_keys : bool) (w : value) :
  forall old x, merge_value add_keys old w = Ok x -> size x <= size old + size w.
Proof.
  induction w as [| b | z | s | lw IH | dw IH] using value_nested_ind;
    intros old x; rewrite merge_value_cases;
    destruct old as [| bo | zo | so | lo | dold]; cbn [merge_cases];
    repeat match goal with
           | |- (if ?c then _ else _) = _ -> _ => destruct c
           end;
    try discriminate; try (intros [= <-]; simpl; lia).
  - intros [= <-]. rewrite !size_VList.
    pose proof (extend_unique_size lo lw). lia.
  - intros H. apply bind_ok in H as (r & Hr & [= <-]).
    rewrite !size_VDict.
    assert (entry_sizes r <= entry_sizes dold + entry_sizes dw); [|lia].
    unfold merge_layer in Hr.
    apply (merge_items_size _ _ dw) in Hr; [assumption|].
    intros old v x Hin. rewrite Forall_forall in IH.
    apply in_map_iff in Hin as ([k v'] & <- & Hin).
    apply (IH (k, v') Hin).
Qed.

Lemma merge_layer_size (add_keys : bool) (rtn layer r : dict) :
  merge_layer add_keys rtn layer = Ok r ->
  size (VDict r) + 1 <= size (VDict rtn) + size (VDict layer).
Proof.
  intros H. rewrite !size_VDict.
  assert (entry_sizes r <= entry_sizes rtn + entry_sizes layer); [|lia].
  unfold merge_layer in H.
  apply (merge_items_size _ _ layer) in H; [assumption|].
  intros old v x _. apply merge_value_size.
Qed.

Lemma merge_layers_size (add_keys : bool) (layers : list dict) :
  forall rtn r,
    merge_layers add_keys rtn layers = Ok r ->
    size (VDict r) <= size (VDict rtn) + total_size layers.
Proof.
  induction layers as [|d layers IH]; intros rtn r H; simpl in H.
  - injection H as <-. simpl. lia.
  - apply bind_ok in H as (r1 & H1 & H).
    apply merge_layer_size in H1. apply IH in H.
    change (total_size (d :: layers)) with (size (VDict d) + total_size layers). lia.
Qed.

Lemma disjoint_sym (F G : list Heap.ref) : disjoint F G -> disjoint G F.
Proof. intros H r Hg Hf. exact (H r Hf Hg). Qed.

Lemma disjoint_incl (F F' G G' : list Heap.ref) :
  disjoint F G -> incl F' F -> incl G' G -> disjoint F' G'.
Proof. intros H HF HG r Hr Hr'. exact (H r (HF r Hr) (HG r Hr')). Qed.

Lemma disjoint_app_r (F G1 G2 : list Heap.ref) :
  disjoint F G1 -> disjoint F G2 -> disjoint F (G1 ++ G2).
Proof. intros H1 H2 r Hf Hg. apply in_app_or in Hg as [Hg|Hg]; eauto. Qed.

Lemma owns_mono (h : Heap.heap) (F F' : list Heap.ref) (hv : Heap.hvalue) (v : value) :
  owns h F hv v -> incl F F' -> owns h F' hv v.
Proof.
  intros H Hi. inversion H; subst; try constructor.
  - apply owns_list with (G := G) (items := items); auto.
    eapply incl_tran; eassumption.
  - apply owns_dict with (G := G) (items := items); auto.
    eapply incl_tran; eassumption.
Qed.

Lemma owns_items_mono (h : Heap.heap) (G G' : list Heap.ref)
    (items : list (string * Heap.hvalue)) (d : dict) :
  owns_items h G items d -> incl G G' -> owns_items h G' items d.
Proof.
  intros H Hi. inversion H; subst; [constructor|].
  apply owns_items_cons with (F1 := F1) (G2 := G2); auto;
    eapply incl_tran; eassumption.
Qed.

Lemma elements_mono (h : Heap.heap) (G G' : list Heap.ref)
    (items : list Heap.hvalue) (l : list value) :
  Forall2 (owns h G) items l -> incl G G' -> Forall2 (owns h G') items l.
Proof. intros H Hi. induction H; constructor; eauto using owns_mono. Qed.

(** *** Objects outside a footprint may change *)

Lemma agree_on_incl (F F' : list Heap.ref) (h h' : Heap.heap) :
  agree_on F h h' -> incl F' F -> agree_on F' h h'.
Proof. intros H Hi r o Hr. apply H. auto. Qed.

Lemma owns_frame (h h' : Heap.heap) (v : value) :
  forall F hv, owns h F hv v -> agree_on F h h' -> owns h' F hv v.
Proof.
  induction v as [| b | z | s | l IH | d IH] using value_nested_ind;
    intros F hv Ho Ha; inversion Ho; subst; try constructor.
  - apply owns_list with (G := G) (items := items); auto.
    assert (Ha' : agree_on G h h') by (eapply agree_on_incl; eauto).
    match goal with H : Forall2 _ items l |- _ => revert H end.
    clear -IH Ha'. intros H. induction H as [|x v xs vs Hx _ IHl]; constructor;
      inversion IH; subst; auto.
  - apply owns_dict with (G := G) (items := items); auto.
    assert (Ha' : agree_on G h h') by (eapply agree_on_incl; eauto).
    match goal with H : owns_items _ _ items d |- _ => revert H end.
    clear -IH Ha'. revert G Ha'. revert items.
    induction IH as [|[k v] d Hv _ IHd]; intros items G Ha H; inversion H; subst;
      [constructor|].
    apply owns_items_cons with (F1 := F1) (G2 := G2); auto.
    + apply Hv; [assumption|]. eapply agree_on_incl; eauto.
    + apply IHd; [|assumption]. eapply agree_on_incl; eauto.
Qed.

Lemma owns_items_frame (h h' : Heap.heap) (G : list Heap.ref)
    (items : list (string * Heap.hvalue)) (d : dict) :
  owns_items h G items d -> agree_on G h h' -> owns_items h' G items d.
Proof.
  intros H. revert h'. induction H as [|G F1 G2 k x v xs vs HF HG Hd Hx Hrest IH] using owns_items_ind;
    intros h' Ha; [constructor|].
  apply owns_items_cons with (F1 := F1) (G2 := G2); auto.
  - eapply owns_frame; eauto. eapply agree_on_incl; eauto.
  - apply IH. eapply agree_on_incl; eauto.
Qed.

Lemma elements_frame (h h' : Heap.heap) (G : list Heap.ref)
    (items : list Heap.hvalue) (l : list value) :
  Forall2 (owns h G) items l -> agree_on G h h' -> Forall2 (owns h' G) items l.
Proof. intros H Ha. induction H; constructor; eauto using owns_frame. Qed.

(** *** An owned value is represented *)

Lemma owns_repr (h : Heap.heap) (v : value) :
  forall F hv L, owns h F hv v -> disjoint F L -> repr L h hv v.
Proof.
  induction v as [| b | z | s | l IH | d IH] using value_nested_ind;
    intros F hv L Ho Hd; inversion Ho; subst; try constructor.
  - apply repr_list with (items := items); eauto.
    assert (Hd' : disjoint G L) by (eapply disjoint_incl; eauto using incl_refl).
    match goal with H : Forall2 _ items l |- _ => revert H end.
    clear -IH Hd'. intros H. induction H as [|x v xs vs Hx _ IHl]; constructor;
      inversion IH; subst; eauto.
  - apply repr_dict with (items := items); eauto.
    assert (Hd' : disjoint G L) by (eapply disjoint_incl; eauto using incl_refl).
    match goal with H : owns_items _ _ items d |- _ => revert H end.
    clear -IH Hd'. revert G Hd'. revert items.
    induction IH as [|[k v] d Hv _ IHd]; intros items G Hd H; inversion H; subst;
      constructor.
    + split; [reflexivity|]. simpl.
      match goal with Ho : owns h ?F1 x v |- _ => apply (Hv F1 x L Ho) end.
      eapply disjoint_incl; [exact Hd | assumption | apply incl_refl].
    + match goal with Ho : owns_items h ?G2 xs d |- _ => apply (IHd xs G2); [|exact Ho] end.
      eapply disjoint_incl; [exact Hd | assumption | apply incl_refl].
Qed.

(** *** Equality and membership in the store *)

Lemma wf_element (l : list value) (x : value) :
  wf (VList l) = true -> In x l -> wf x = true.
Proof. intros H Hin. rewrite wf_VList in H. auto. Qed.

Lemma heq_correct (L : list Heap.ref) (h : Heap.heap) (vx : value) :
  forall x y vy fuel,
    repr L h x vx -> repr L h y vy -> wf vx = true -> size vx <= fuel ->
    Heap.heq fuel h x y = Some (py_eq vx vy).
Proof.
  induction vx as [| b | z | s | l IH | d IH] using value_nested_ind;
    intros x y vy fuel Hx Hy Hwf Hs; inversion Hx; subst;
    try (inversion Hy; subst; destruct fuel; reflexivity).
  - (* list *)
    inversion Hy; subst; try (destruct fuel; reflexivity).
    + destruct fuel as [|n]; [simpl in Hs; lia|]. cbn [Heap.heq].
      destruct (Nat.eqb_spec r r0) as [<-|Hne].
      * rewrite <- (repr_functional _ _ _ _ _ Hx Hy). now rewrite py_eq_refl.
      * repeat match goal with H : nth_error _ _ = _ |- _ => rewrite H; clear H end.
        rewrite py_eq_VList.
        simpl in Hs. apply le_S_n in Hs.
        match goal with H : Forall2 _ items l |- _ => rename H into H1 end.
        match goal with H : Forall2 _ items0 l0 |- _ => rename H into H2 end.
        rewrite wf_VList in Hwf.
        clear -IH H1 H2 Hs Hwf. revert items0 l0 H2 Hs.
        induction H1 as [|x v xs vs Hxv _ IHl]; intros items0 l0 H2 Hs;
          inversion H2 as [|y w ys ws Hyw Hrest]; subst; simpl; try reflexivity.
        inversion IH as [|? ? IHv IHvs]; subst. simpl in Hs.
        rewrite (IHv x y w n Hxv Hyw) by (auto using in_eq; lia).
        destruct (py_eq v w); [|reflexivity]. simpl.
        apply IHl; auto; [|lia]. intros e He. apply Hwf. now right.
    + destruct fuel as [|n]; [simpl in Hs; lia|]. cbn [Heap.heq].
      destruct (Nat.eqb_spec r r0) as [<-|Hne]; [congruence|].
      repeat match goal with H : nth_error _ _ = _ |- _ => rewrite H; clear H end.
      reflexivity.
  - (* dict *)
    inversion Hy; subst; try (destruct fuel; reflexivity).
    + destruct fuel as [|n]; [simpl in Hs; lia|]. cbn [Heap.heq].
      destruct (Nat.eqb_spec r r0) as [<-|Hne]; [congruence|].
      repeat match goal with H : nth_error _ _ = _ |- _ => rewrite H; clear H end.
      reflexivity.
    + destruct fuel as [|n]; [simpl in Hs; lia|]. cbn [Heap.heq].
      destruct (Nat.eqb_spec r r0) as [<-|Hne].
      * rewrite <- (repr_functional _ _ _ _ _ Hx Hy). now rewrite py_eq_refl.
      * repeat match goal with H : nth_error _ _ = _ |- _ => rewrite H; clear H end.
        rewrite py_eq_VDict.
        match goal with H : Forall2 _ items d |- _ => rename H into H1 end.
        match goal with H : Forall2 _ items0 d0 |- _ => rename H into H2 end.
        rewrite (Forall2_length H1), (Forall2_length H2).
        destruct (Nat.eqb _ _); [|reflexivity]. simpl andb.
        simpl in Hs. apply le_S_n in Hs.
        apply wf_VDict in Hwf as [_ Hwf].
        clear -IH H1 H2 Hs Hwf. revert Hs.
        induction H1 as [|[k x] [k' v] xs vs [Hk Hxv] _ IHl]; intros Hs; simpl;
          try reflexivity.
        inversion IH as [|? ? IHv IHvs]; subst. simpl in *. subst k'.
        pose proof (hget_repr L h items0 d0 k H2) as G.
        destruct (Heap.hget k items0) as [w|].
        -- destruct G as (vw & -> & Hw).
           rewrite (IHv x w vw n Hxv Hw) by (eauto; lia).
           destruct (py_eq v vw); [|reflexivity]. simpl.
           apply IHl; auto; [|lia]. intros k1 v1 H1'. apply (Hwf k1 v1). now right.
        -- now rewrite G.
Qed.

Lemma contains_correct (L : list Heap.ref) (h : Heap.heap) (fuel : nat)
    (lr : Heap.ref) (items : list Heap.hvalue) (l : list value)
    (x : Heap.hvalue) (vx : value) :
  nth_error h lr = Some (Heap.OList items) ->
  Forall2 (repr L h) items l ->
  repr L h x vx ->
  (forall e, In e l -> wf e = true /\ size e <= fuel) ->
  Heap.contains fuel x lr h = Some (Ok (py_in vx l), h).
Proof.
  intros Hl Hitems Hx Hel. unfold Heap.contains. rewrite Hl.
  assert (E : Heap.any (Heap.heq fuel h) x items = Some (py_in vx l));
    [|now rewrite E].
  unfold py_in. clear Hl. revert Hel.
  induction Hitems as [|e v es vs He _ IH]; intros Hel; [reflexivity|].
  simpl. destruct (Hel v (or_introl eq_refl)) as [Wv Sv].
  rewrite (heq_correct L h v e x vx fuel He Hx Wv Sv).
  destruct (py_eq v vx); [reflexivity|]. simpl.
  apply IH. intros e' He'. apply Hel. now right.
Qed.

(** *** The loop over an incoming list *)

Lemma Forall2_nth_error {A B} (R : A -> B -> Prop) (xs : list A) (ys : list B)
    (i : nat) (x : A) :
  Forall2 R xs ys -> nth_error xs i = Some x ->
  exists y, nth_error ys i = Some y /\ R x y.
Proof.
  intros H. revert i. induction H as [|a b xs ys Hab _ IH]; intros [|i]; simpl;
    try discriminate.
  - intros [= ->]. eauto.
  - apply IH.
Qed.

Lemma skipn_nth_error {A} (l : list A) (i : nat) (x : A) :
  nth_error l i = Some x -> skipn i l = x :: skipn (S i) l.
Proof.
  revert i. induction l as [|a l IH]; intros [|i]; simpl; try discriminate.
  - now intros [= ->].
  - intros H. now rewrite (IH i H).
Qed.

Lemma disjoint_nil_r (F : list Heap.ref) : disjoint F [].
Proof. intros r _ []. Qed.

Lemma agree_on_update (F : list Heap.ref) (h : Heap.heap) (r : Heap.ref)
    (o : Heap.object) :
  ~ In r F -> agree_on F h (Heap.update h r o).
Proof.
  intros Hr r' o' Hin H. rewrite nth_error_update_other; [assumption|].
  intros ->. contradiction.
Qed.

Section ExtendLoop.
Variables (fuel : nat) (rv ro : Heap.ref) (G Gv : list Heap.ref).
Variables (items_v : list Heap.hvalue) (lv : list value).
Hypothesis Hne : rv <> ro.
Hypothesis HroG : ~ In ro G.
Hypothesis HGv : incl Gv G.
Hypothesis Hlv : forall e, In e lv -> wf e = true /\ size e <= fuel.

Lemma extend_loop_sim (n : nat) :
  forall (i : nat) (h : Heap.heap) (cur : list Heap.hvalue) (lcur : list value),
    nth_error h rv = Some (Heap.OList items_v) ->
    Forall2 (owns h Gv) items_v lv ->
    nth_error h ro = Some (Heap.OList cur) ->
    Forall2 (owns h G) cur lcur ->
    (forall e, In e lcur -> wf e = true /\ size e <= fuel) ->
    i <= List.length items_v -> List.length items_v < n + i ->
    exists h' cur',
      Heap.extend_loop fuel n rv ro i h = Some (Ok tt, h') /\
      nth_error h' ro = Some (Heap.OList cur') /\
      Forall2 (owns h' G) cur' (extend_unique lcur (skipn i lv)) /\
      preserved_outside [ro] h h'.
Proof.
  induction n as [|n IH]; intros i h cur lcur Hv Hitems Ho Hcur Hlcur Hi Hn; [lia|].
  assert (Hlen : List.length items_v = List.length lv)
    by (eapply Forall2_length; eassumption).
  cbn [Heap.extend_loop]. unfold Heap.mbind at 1. unfold Heap.read at 1. rewrite Hv.
  destruct (nth_error items_v i) as [x|] eqn:E.
  - destruct (Forall2_nth_error _ _ _ _ _ Hitems E) as (vx & Evx & Hx).
    assert (Hlt : i < List.length items_v) by (apply nth_error_Some; congruence).
    rewrite (skipn_nth_error lv i vx Evx).
    cbn [extend_unique].
    unfold Heap.mbind at 1.
    rewrite (contains_correct [] h fuel ro cur lcur x vx Ho).
    + destruct (py_in vx lcur) eqn:Ein.
      * unfold Heap.mbind at 1. unfold Heap.ret at 1.
        apply (IH (S i) h cur lcur); auto; lia.
      * unfold Heap.mbind at 1. unfold Heap.mbind at 1.
        unfold Heap.read at 1. rewrite Ho. unfold Heap.write at 1.
        set (h1 := Heap.update h ro (Heap.OList (cur ++ [x]))).
        assert (Hagree : agree_on G h h1) by (now apply agree_on_update).
        assert (Hro1 : nth_error h1 ro = Some (Heap.OList (cur ++ [x]))).
        { apply nth_error_update_same. apply nth_error_Some. congruence. }
        destruct (IH (S i) h1 (cur ++ [x]) (lcur ++ [vx])) as (h' & cur' & Hrun & Hro' & Hcur' & Hp);
          auto; try lia.
        -- unfold h1. rewrite nth_error_update_other; auto.
        -- eapply elements_frame; [exact Hitems|]. eapply agree_on_incl; eauto.
        -- apply Forall2_app; [eapply elements_frame; eauto|].
           constructor; [|constructor].
           eapply owns_frame; [|exact Hagree]. eapply owns_mono; eauto.
        -- intros e He. apply in_app_or in He as [He|[<-|[]]]; auto.
           apply Hlv. eapply nth_error_In; eauto.
        -- exists h', cur'. repeat split; auto.
           intros r o Hr Hro. apply Hp; [assumption|].
           unfold h1. rewrite nth_error_update_other; [assumption|].
           intros ->. apply Hr. now left.
    + clear -Hcur. induction Hcur; constructor; auto.
      eapply owns_repr; eauto using disjoint_nil_r.
    + eapply owns_repr; eauto using disjoint_nil_r.
    + assumption.
  - exists h, cur. apply nth_error_None in E.
    rewrite skipn_all2 by lia. repeat split; auto.
    intros r o _ H. exact H.
Qed.

End ExtendLoop.

(** *** The entries of a dictionary object *)

Lemma owns_items_entries (h : Heap.heap) (G : list Heap.ref)
    (items : list (string * Heap.hvalue)) (d : dict) :
  owns_items h G items d ->
  Forall2 (fun hkv kv => fst hkv = fst kv /\ repr [] h (snd hkv) (snd kv)) items d.
Proof.
  induction 1 as [|G F1 G2 k x v xs vs HF HG Hd Hx Hrest IH] using owns_items_ind;
    constructor; [|assumption].
  split; [reflexivity|]. simpl. eapply owns_repr; eauto using disjoint_nil_r.
Qed.

Lemma owns_items_absent (h : Heap.heap) (G : list Heap.ref)
    (cur : list (string * Heap.hvalue)) (d : dict) (k : string) :
  owns_items h G cur d -> Heap.hget k cur = None ->
  dict_get k d = None /\
  forall h' F' hx x,
    agree_on G h h' -> owns h' F' hx x -> disjoint F' G ->
    owns_items h' (G ++ F') (Heap.hset k hx cur) (dict_set k x d).
Proof.
  induction 1 as [|G F1 G2 k0 x0 v0 xs vs HF HG Hd Hx Hrest IH] using owns_items_ind;
    intros Hget.
  - split; [reflexivity|]. intros h' F' hx x _ Ho _. simpl.
    apply owns_items_cons with (F1 := F') (G2 := []); auto.
    + apply incl_appr, incl_refl.
    + apply incl_nil_l.
    + apply disjoint_nil_r.
    + constructor.
  - simpl in Hget. simpl. destruct (String.eqb k k0) eqn:E; [discriminate|].
    destruct (IH Hget) as [Hnone Hbuild]. split; [assumption|].
    intros h' F' hx x Ha Ho Hdis. simpl; rewrite ?E.
    apply owns_items_cons with (F1 := F1) (G2 := G2 ++ F').
    + apply incl_appl. assumption.
    + apply incl_app; [apply incl_appl; assumption | apply incl_appr, incl_refl].
    + apply disjoint_app_r; [assumption|].
      apply disjoint_sym. eapply disjoint_incl; [exact Hdis | apply incl_refl | assumption].
    + eapply owns_frame; [exact Hx|]. eapply agree_on_incl; eauto.
    + apply Hbuild; [eapply agree_on_incl; eauto | assumption |].
      eapply disjoint_incl; [exact Hdis | apply incl_refl | assumption].
Qed.

Lemma owns_items_focus (h : Heap.heap) (G : list Heap.ref)
    (cur : list (string * Heap.hvalue)) (d : dict) (k : string)
    (hold : Heap.hvalue) :
  owns_items h G cur d -> Heap.hget k cur = Some hold ->
  exists old Fk Go,
    dict_get k d = Some old /\ owns h Fk hold old /\
    incl Fk G /\ incl Go G /\ disjoint Fk Go /\
    forall h' F' hx x,
      agree_on Go h h' -> owns h' F' hx x -> disjoint F' Go ->
      owns_items h' (Go ++ F') (Heap.hset k hx cur) (dict_set k x d).
Proof.
  induction 1 as [|G F1 G2 k0 x0 v0 xs vs HF HG Hd Hx Hrest IH] using owns_items_ind;
    intros Hget; [discriminate|].
  simpl in Hget. simpl. destruct (String.eqb k k0) eqn:E.
  - injection Hget as <-. exists v0, F1, G2. repeat split; auto.
    intros h' F' hx x Ha Ho Hdis. simpl; rewrite ?E.
    apply owns_items_cons with (F1 := F') (G2 := G2); auto.
    + apply incl_appr, incl_refl.
    + apply incl_appl, incl_refl.
    + eapply owns_items_frame; eauto.
  - destruct (IH Hget) as (old & Fk & Go & Hold & Hown & HFk & HGo & Hdk & Hbuild).
    exists old, Fk, (F1 ++ Go). repeat split; auto.
    + eapply incl_tran; eauto.
    + apply incl_app; [assumption | eapply incl_tran; eauto].
    + apply disjoint_app_r; [|assumption].
      apply disjoint_sym. eapply disjoint_incl; [exact Hd | apply incl_refl | assumption].
    + intros h' F' hx x Ha Ho Hdis. simpl; rewrite ?E.
      apply owns_items_cons with (F1 := F1) (G2 := Go ++ F').
      * apply incl_appl, incl_appl, incl_refl.
      * apply incl_app; [apply incl_appl, incl_appr, incl_refl | apply incl_appr, incl_refl].
      * apply disjoint_app_r.
        -- eapply disjoint_incl; [exact Hd | apply incl_refl | assumption].
        -- apply disjoint_sym. eapply disjoint_incl; [exact Hdis | apply incl_refl |].
           apply incl_appl, incl_refl.
      * eapply owns_frame; [exact Hx|]. eapply agree_on_incl; [exact Ha|].
        apply incl_appl, incl_refl.
      * apply Hbuild; [|assumption|].
        -- eapply agree_on_incl; [exact Ha|]. apply incl_appr, incl_refl.
        -- eapply disjoint_incl; [exact Hdis | apply incl_refl |].
           apply incl_appr, incl_refl.
Qed.

(** *** One step of the merge *)

Lemma In_allocated (h h' : Heap.heap) (r : Heap.ref) :
  In r (allocated h h') <-> List.length h <= r < List.length h'.
Proof. unfold allocated. rewrite in_seq. lia. Qed.

Lemma run_member_of (L : list Heap.ref) (h : Heap.heap) (fuel : nat)
    (hx hv : Heap.hvalue) (vx v : value) :
  repr L h hx vx -> repr L h hv v ->
  (forall e, In e (elements v) -> wf e = true /\ size e <= fuel) ->
  Heap.member_of fuel hx hv (type_of v) h
  = Some (Ok (is_list v && py_in vx (elements v)), h).
Proof.
  intros Hx Hv Hel. inversion Hv; subst; try reflexivity.
  simpl. eapply contains_correct; eauto.
Qed.

Lemma elements_bound (v : value) (n : nat) :
  wf v = true -> size v <= n ->
  forall e, In e (elements v) -> wf e = true /\ size e <= S n.
Proof.
  intros Hwf Hs e He. destruct v; simpl in He; try contradiction.
  split; [eapply wf_element; eauto|].
  pose proof (size_element _ _ He). lia.
Qed.

Section Step.
Variables (n : nat) (add_keys : bool) (l : Heap.ref).

Lemma merge_step_sim (h : Heap.heap) (cur : list (string * Heap.hvalue))
    (rtn : dict) (G F1 : list Heap.ref) (k : string) (hw : Heap.hvalue) (w : value) :
  nth_error h l = Some (Heap.ODict cur) ->
  owns_items h G cur rtn -> ~ In l G -> ~ In l F1 ->
  owns h F1 hw w -> disjoint G F1 -> bounded h G -> bounded h F1 ->
  wf (VDict rtn) = true -> wf w = true ->
  merge_sim_ok w ->
  (forall old, dict_get k rtn = Some old -> size old + size w < n) ->
  size w < n ->
  match merge_entry (merge_value add_keys) (dict_get k rtn) w with
  | Ok x =>
      exists h' cur' G',
        Heap.merge_step (S n) (Heap.dict_merge n) add_keys l (k, hw) h
        = Some (Ok tt, h') /\
        nth_error h' l = Some (Heap.ODict cur') /\
        owns_items h' G' cur' (dict_set k x rtn) /\
        incl G' (G ++ F1 ++ allocated h h') /\
        preserved_outside (l :: G ++ F1) h h' /\
        List.length h <= List.length h'
  | Raise e =>
      exists h',
        Heap.merge_step (S n) (Heap.dict_merge n) add_keys l (k, hw) h
        = Some (Raise e, h')
  end.
Proof.
  intros Hl Hcur HlG HlF Hw Hdis HbG HbF Wrtn Ww IHw Hsize Hsw.
  assert (Hlt : l < List.length h) by (apply nth_error_Some; congruence).
  set (hset_w := Heap.update h l (Heap.ODict (Heap.hset k hw cur))).
  assert (Hw' : owns hset_w F1 hw w).
  { eapply owns_frame; [exact Hw|]. now apply agree_on_update. }
  assert (Hpres : forall o, preserved_outside (l :: G ++ F1) h (Heap.update h l o)).
  { intros o r o' Hr Ho. rewrite nth_error_update_other; [assumption|].
    intros ->. apply Hr. now left. }
  remember (Heap.merge_step (S n) (Heap.dict_merge n) add_keys l (k, hw) h)
    as run eqn:Hrun.
  unfold Heap.merge_step in Hrun.
  unfold Heap.mbind at 1 in Hrun. rewrite (run_get_dict h l cur Hl) in Hrun.
  destruct (Heap.hget k cur) as [hold|] eqn:Hget.
  - (* the key is present *)
    destruct (owns_items_focus h G cur rtn k hold Hcur Hget)
      as (old & Fk & Go & Hold & Hown & HFk & HGo & Hdk & Hbuild).
    rewrite Hold. cbn [merge_entry].
    assert (Rold : repr [] h hold old) by (eapply owns_repr; eauto using disjoint_nil_r).
    assert (Rw : repr [] h hw w) by (eapply owns_repr; eauto using disjoint_nil_r).
    assert (Wold : wf old = true).
    { apply wf_VDict in Wrtn as [_ Wrtn]. eapply Wrtn. eapply dict_get_In; eauto. }
    specialize (Hsize old Hold).
    assert (HlGo : ~ In l Go) by (intros H; apply HlG; auto).
    assert (HlFk : ~ In l Fk) by (intros H; apply HlG; auto).
    (* storing the incoming value *)
    assert (Hset_w : exists h' cur' G',
      Heap.set_item l k hw h = Some (Ok tt, h') /\
      nth_error h' l = Some (Heap.ODict cur') /\
      owns_items h' G' cur' (dict_set k w rtn) /\
      incl G' (G ++ F1 ++ allocated h h') /\
      preserved_outside (l :: G ++ F1) h h' /\
      List.length h <= List.length h').
    { exists hset_w, (Heap.hset k hw cur), (Go ++ F1).
      rewrite (run_set_item h l cur k hw Hl). repeat split.
      - now apply nth_error_update_same.
      - apply Hbuild; [now apply agree_on_update | exact Hw' |].
        apply disjoint_sym. eapply disjoint_incl; [exact Hdis | assumption | apply incl_refl].
      - apply incl_app; [apply incl_appl; assumption | apply incl_appr, incl_appl, incl_refl].
      - apply Hpres.
      - unfold hset_w. rewrite length_update. lia. }
    (* keeping the old value *)
    assert (Hset_old : exists h' cur' G',
      Heap.set_item l k hold h = Some (Ok tt, h') /\
      nth_error h' l = Some (Heap.ODict cur') /\
      owns_items h' G' cur' (dict_set k old rtn) /\
      incl G' (G ++ F1 ++ allocated h h') /\
      preserved_outside (l :: G ++ F1) h h' /\
      List.length h <= List.length h').
    { exists (Heap.update h l (Heap.ODict (Heap.hset k hold cur))),
        (Heap.hset k hold cur), (Go ++ Fk).
      rewrite (run_set_item h l cur k hold Hl). repeat split.
      - now apply nth_error_update_same.
      - apply Hbuild; [now apply agree_on_update | | assumption].
        eapply owns_frame; [exact Hown|]. now apply agree_on_update.
      - apply incl_app; apply incl_appl; assumption.
      - apply Hpres.
      - rewrite length_update. lia. }
    unfold Heap.mbind at 1 in Hrun. rewrite (run_truthy [] h hold old Rold) in Hrun.
    destruct (truthy old) eqn:Et; cbn [negb] in Hrun; cbv beta iota in Hrun;
      [|rewrite Hrun; exact Hset_w].
    unfold Heap.mbind at 1 in Hrun. rewrite (run_type_of [] h hw w Rw) in Hrun.
    unfold Heap.mbind at 1 in Hrun. rewrite (run_type_of [] h hold old Rold) in Hrun.
    assert (Hmv : merge_value add_keys old w =
                  if negb (issubclass (type_of w) (type_of old)) then reconcile old w
                  else match old, w with
                       | VDict rtn_dct, VDict merge_dct =>
                           bind (merge_layer add_keys rtn_dct merge_dct)
                                (fun r => Ok (VDict r))
                       | _, VList lw => Ok (VList (extend_unique (elements old) lw))
                       | _, _ => Ok w
                       end).
    { destruct w; reflexivity. }
    rewrite Hmv. clear Hmv.
    destruct (issubclass (type_of w) (type_of old)) eqn:Esub;
      cbn [negb] in Hrun |- *; cbv beta iota in Hrun |- *.
    + (* the types agree *)
      destruct old as [| bo | zo | so | lo | dold], w as [| bw | zw | sw | lw | dw];
        try discriminate Esub; cbn [type_of] in Hrun; cbv beta iota in Hrun;
        try (rewrite Hrun; exact Hset_w).
      * (* two lists *)
        inversion Hown as [| | | |F Ge ro items_o ? Hro HroG HGe Hnth_o Hel_o|]; subst.
        inversion Hw as [| | | |F Gv rv items_v ? Hrv HrvG HGv Hnth_v Hel_v|]; subst.
        destruct (extend_loop_sim (S n) rv ro (Ge ++ Gv) Gv items_v lw) with
          (n := S n) (i := 0) (h := h) (cur := items_o) (lcur := lo)
          as (h' & cur' & Hrun' & Hro' & Hcur' & Hp'); auto.
        -- intros ->. apply (Hdis ro); auto.
        -- intros Hin. apply in_app_or in Hin as [Hin|Hin]; [contradiction|].
           apply (Hdis ro); auto.
        -- apply incl_appr, incl_refl.
        -- apply elements_bound with (v := VList lw); [assumption | lia].
        -- eapply elements_mono; [exact Hel_o | apply incl_appl, incl_refl].
        -- apply elements_bound with (v := VList lo); [assumption | lia].
        -- lia.
        -- pose proof (Forall2_length Hel_v) as Hlen.
           assert (List.length lw < size (VList lw)).
           { clear. simpl. induction lw as [|x lw IH]; simpl; [lia|].
             pose proof (size_pos x). lia. }
           lia.
        -- cbn [elements]. simpl skipn in Hcur'.
           rewrite Hrun'.
           assert (Hne : ro <> l) by (intros ->; apply HlFk; assumption).
           exists h', cur, (Go ++ (Fk ++ F1)). repeat split.
           ++ apply Hp'; [intros [->|[]]; congruence | assumption].
           ++ rewrite <- (hset_unchanged k (Heap.HRef ro) cur Hget).
              apply Hbuild.
              ** intros r o Hr Ho. apply Hp'; [|assumption].
                 intros [<-|[]]. apply (Hdk ro); auto.
              ** apply owns_list with (G := Ge ++ Gv) (items := cur').
                 --- apply in_or_app. now left.
                 --- intros Hin. apply in_app_or in Hin as [Hin|Hin]; [contradiction|].
                     apply (Hdis ro); auto.
                 --- apply incl_app; [apply incl_appl | apply incl_appr]; assumption.
                 --- assumption.
                 --- assumption.
              ** apply disjoint_sym, disjoint_app_r; [apply disjoint_sym; assumption|].
                 eapply disjoint_incl; [exact Hdis | assumption | apply incl_refl].
           ++ apply incl_app; [apply incl_appl; assumption|].
              apply incl_app; [apply incl_appl; assumption|].
              apply incl_appr, incl_appl, incl_refl.
           ++ intros r o Hr Ho. apply Hp'; [|assumption].
              intros [<-|[]]. apply Hr. right. apply in_or_app. left. auto.
           ++ assert (Hlen' : ro < List.length h') by (apply nth_error_Some; congruence).
              destruct (Nat.le_gt_cases (List.length h) (List.length h')) as [|Hgt];
                [assumption|].
              exfalso.
              assert (Hlast : List.length h' < List.length h) by lia.
              destruct (nth_error h (List.length h')) as [o|] eqn:Eo;
                [|apply nth_error_None in Eo; lia].
              destruct (Nat.eq_dec (List.length h') ro) as [E|E]; [lia|].
              assert (nth_error h' (List.length h') = Some o).
              { apply Hp'; [intros [->|[]]; congruence | assumption]. }
              assert (List.length h' < List.length h') by (apply nth_error_Some; congruence).
              lia.
      * (* two dictionaries *)
        assert (HdkF : disjoint Fk F1)
          by (eapply disjoint_incl; [exact Hdis | assumption | apply incl_refl]).
        assert (HbFk : bounded h Fk) by (intros r Hr; apply HbG; auto).
        pose proof (IHw add_keys h Fk F1 hold hw dold dw n eq_refl Hown Hw HdkF
                      HbFk HbF Wold Ww Hsize) as IH.
        destruct (merge_layer add_keys dold dw) as [d'|e]; cbn [bind].
        -- destruct IH as (r' & h1 & Hrun1 & Hown1 & Hp1 & Hlen1).
           unfold Heap.mbind at 1 in Hrun. rewrite Hrun1 in Hrun.
           rewrite Hrun.
           assert (Hl1 : nth_error h1 l = Some (Heap.ODict cur)).
           { apply Hp1; [|assumption]. intros Hin.
             apply in_app_or in Hin as [Hin|Hin]; contradiction. }
           rewrite (run_set_item h1 l cur k (Heap.HRef r') Hl1).
           set (h' := Heap.update h1 l (Heap.ODict (Heap.hset k (Heap.HRef r') cur))).
           assert (Hlen' : List.length h' = List.length h1) by apply length_update.
           assert (Hfresh : allocated h h' = allocated h h1) by (unfold allocated; now rewrite Hlen').
           assert (HlF' : ~ In l (Fk ++ F1 ++ allocated h h1)).
           { intros Hin. apply in_app_or in Hin as [Hin|Hin]; [contradiction|].
             apply in_app_or in Hin as [Hin|Hin]; [contradiction|].
             apply In_allocated in Hin. lia. }
           exists h', (Heap.hset k (Heap.HRef r') cur), (Go ++ (Fk ++ F1 ++ allocated h h1)).
           repeat split.
           ++ apply nth_error_update_same. apply nth_error_Some. congruence.
           ++ apply Hbuild.
              ** intros r o Hr Ho. unfold h'. rewrite nth_error_update_other.
                 --- apply Hp1; [|assumption]. intros Hin.
                     apply in_app_or in Hin as [Hin|Hin];
                       [apply (Hdk r) | apply (Hdis r)]; auto.
                 --- intros ->. contradiction.
              ** eapply owns_frame; [exact Hown1|]. now apply agree_on_update.
              ** intros r Hr HrGo. apply in_app_or in Hr as [Hr|Hr]; [apply (Hdk r); auto|].
                 apply in_app_or in Hr as [Hr|Hr]; [apply (Hdis r); auto|].
                 apply In_allocated in Hr. specialize (HbG r (HGo r HrGo)). lia.
           ++ rewrite Hfresh.
              apply incl_app; [apply incl_appl; assumption|].
              apply incl_app; [apply incl_appl; assumption|].
              apply incl_appr, incl_refl.
           ++ intros r o Hr Ho. unfold h'. rewrite nth_error_update_other.
              ** apply Hp1; [|assumption]. intros Hin. apply Hr. right.
                 apply in_or_app. apply in_app_or in Hin as [Hin|Hin]; auto.
              ** intros ->. apply Hr. now left.
           ++ lia.
        -- destruct IH as (h1 & Hrun1). exists h1.
           unfold Heap.mbind at 1 in Hrun. rewrite Hrun1 in Hrun. exact Hrun.
    + (* the types differ *)
      unfold Heap.mbind at 1 in Hrun.
      rewrite (run_member_of [] h (S n) hold hw old w Rold Rw) in Hrun
        by (apply elements_bound; [assumption | lia]).
      unfold reconcile.
      destruct (is_list w && py_in old (elements w)); [rewrite Hrun; exact Hset_w|].
      unfold Heap.mbind at 1 in Hrun.
      rewrite (run_member_of [] h (S n) hw hold w old Rw Rold) in Hrun
        by (apply elements_bound; [assumption | lia]).
      destruct (is_list old && py_in w (elements old)); [rewrite Hrun; exact Hset_old|].
      exists h. exact Hrun.
  - (* the key is absent *)
    destruct (owns_items_absent h G cur rtn k Hcur Hget) as [Hnone Hbuild].
    rewrite Hnone. cbn [merge_entry].
    exists hset_w, (Heap.hset k hw cur), (G ++ F1).
    rewrite Hrun, (run_set_item h l cur k hw Hl). repeat split.
    + now apply nth_error_update_same.
    + apply Hbuild; [now apply agree_on_update | exact Hw' |].
      now apply disjoint_sym.
    + apply incl_app; [apply incl_appl, incl_refl | apply incl_appr, incl_appl, incl_refl].
    + apply Hpres.
    + unfold hset_w. rewrite length_update. lia.
Qed.

End Step.

(** *** The loop over the items of a layer *)

Lemma allocated_trans_l (h h1 h' : Heap.heap) :
  List.length h <= List.length h1 -> List.length h1 <= List.length h' ->
  incl (allocated h h1) (allocated h h').
Proof. intros H1 H2 r Hr. apply In_allocated in Hr. apply In_allocated. lia. Qed.

Lemma allocated_trans_r (h h1 h' : Heap.heap) :
  List.length h <= List.length h1 -> List.length h1 <= List.length h' ->
  incl (allocated h1 h') (allocated h h').
Proof. intros H1 H2 r Hr. apply In_allocated in Hr. apply In_allocated. lia. Qed.

Section Loop.
Variables (n : nat) (add_keys : bool) (l : Heap.ref) (selected : string -> bool).

Lemma merge_loop_sim (witems : dict) :
  forall (hitems : list (string * Heap.hvalue)) (Fw : list Heap.ref)
         (h : Heap.heap) (cur : list (string * Heap.hvalue)) (rtn : dict)
         (G : list Heap.ref),
    owns_items h Fw hitems witems ->
    nth_error h l = Some (Heap.ODict cur) ->
    owns_items h G cur rtn -> ~ In l G -> ~ In l Fw ->
    disjoint G Fw -> bounded h G -> bounded h Fw ->
    wf (VDict rtn) = true -> wf (VDict witems) = true ->
    (forall k w, In (k, w) witems -> merge_sim_ok w) ->
    (forall k w old, In (k, w) witems -> dict_get k rtn = Some old ->
                     size old + size w < n) ->
    (forall k w, In (k, w) witems -> size w < n) ->
    match merge_items (merge_value add_keys) selected rtn witems with
    | Ok r =>
        exists h' cur' G',
          Heap.for_each (Heap.merge_step (S n) (Heap.dict_merge n) add_keys l)
            (filter (fun kv => selected (fst kv)) hitems) h = Some (Ok tt, h') /\
          nth_error h' l = Some (Heap.ODict cur') /\
          owns_items h' G' cur' r /\
          incl G' (G ++ Fw ++ allocated h h') /\
          preserved_outside (l :: G ++ Fw) h h' /\
          List.length h <= List.length h'
    | Raise e =>
        exists h',
          Heap.for_each (Heap.merge_step (S n) (Heap.dict_merge n) add_keys l)
            (filter (fun kv => selected (fst kv)) hitems) h = Some (Raise e, h')
    end.
Proof.
  induction witems as [|[k w] wrest IH];
    intros hitems Fw h cur rtn G Hitems Hl Hcur HlG HlF Hdis HbG HbF Wrtn Ww
           Hrec Hsize Hsw.
  - inversion Hitems; subst. simpl.
    exists h, cur, G. repeat split; auto.
    + apply incl_appl, incl_refl.
    + intros r o _ Ho. exact Ho.
  - inversion Hitems as [|? F1 G2 ? hw ? hrest ? HF1 HG2 Hd12 Hw Hrest]; subst.
    assert (Hlt : l < List.length h) by (apply nth_error_Some; congruence).
    apply wf_VDict in Ww as Ww'. destruct Ww' as [Hnd Hwfs].
    inversion Hnd as [|? ? Hk Hnd']; subst.
    assert (Wrest : wf (VDict wrest) = true).
    { apply wf_VDict. split; [assumption|]. intros k' v' Hin. apply (Hwfs k' v'). now right. }
    rewrite merge_items_cons. cbn [filter fst].
    destruct (selected k) eqn:Esel.
    + (* the key is visited *)
      assert (Hstep := merge_step_sim n add_keys l h cur rtn G F1 k hw w Hl Hcur HlG).
      specialize (Hstep (fun H => HlF (HF1 _ H)) Hw).
      specialize (Hstep (disjoint_incl _ _ _ _ Hdis (incl_refl _) HF1) HbG).
      specialize (Hstep (fun r Hr => HbF r (HF1 r Hr)) Wrtn (Hwfs k w (or_introl eq_refl))).
      specialize (Hstep (Hrec k w (or_introl eq_refl))).
      specialize (Hstep (fun old => Hsize k w old (or_introl eq_refl))
                        (Hsw k w (or_introl eq_refl))).
      destruct (merge_entry (merge_value add_keys) (dict_get k rtn) w) as [x|e] eqn:Ex;
        cbn [bind].
      * destruct Hstep as (h1 & cur1 & G1 & Hrun1 & Hl1 & Hcur1 & HG1 & Hp1 & Hlen1).
        assert (Wx : wf x = true).
        { eapply merge_entry_wf; [| |exact Ex].
          - intros old Hold. apply wf_VDict in Wrtn as [_ Wrtn].
            eapply Wrtn. eapply dict_get_In; eauto.
          - apply (Hwfs k w). now left. }
        assert (HG1' : forall r, In r G1 ->
                  In r G \/ In r F1 \/ List.length h <= r < List.length h1).
        { intros r Hr. apply HG1 in Hr. apply in_app_or in Hr as [Hr|Hr]; [auto|].
          apply in_app_or in Hr as [Hr|Hr]; [auto|]. apply In_allocated in Hr. auto. }
        assert (Hagree : agree_on G2 h h1).
        { intros r o Hr Ho. apply Hp1; [|assumption].
          intros [<-|Hin]; [apply HlF; auto|].
          apply in_app_or in Hin as [Hin|Hin];
            [apply (Hdis r); auto | apply (Hd12 r); auto]. }
        specialize (IH hrest G2 h1 cur1 (dict_set k x rtn) G1).
        specialize (IH (owns_items_frame h h1 G2 hrest wrest Hrest Hagree) Hl1 Hcur1).
        assert (HlG1 : ~ In l G1).
        { intros Hin. apply HG1' in Hin as [Hin|[Hin|Hin]];
            [contradiction | apply HlF; auto | lia]. }
        assert (Hd1 : disjoint G1 G2).
        { intros r Hr Hr2. apply HG1' in Hr as [Hr|[Hr|Hr]].
          - apply (Hdis r); auto.
          - apply (Hd12 r); auto.
          - specialize (HbF r (HG2 r Hr2)). lia. }
        assert (HbG1 : bounded h1 G1).
        { intros r Hr. apply HG1' in Hr as [Hr|[Hr|Hr]].
          - specialize (HbG r Hr). lia.
          - specialize (HbF r (HF1 r Hr)). lia.
          - lia. }
        assert (HbG2 : bounded h1 G2).
        { intros r Hr. specialize (HbF r (HG2 r Hr)). lia. }
        assert (Wset : wf (VDict (dict_set k x rtn)) = true)
          by (apply dict_set_wf; assumption).
        specialize (IH HlG1 (fun H => HlF (HG2 _ H)) Hd1 HbG1 HbG2 Wset Wrest).
        specialize (IH (fun k' w' Hin => Hrec k' w' (or_intror Hin))).
        assert (Hsize' : forall k' w' old, In (k', w') wrest ->
                  dict_get k' (dict_set k x rtn) = Some old -> size old + size w' < n).
        { intros k' w' old Hin Hget.
          assert (Hne : k <> k').
          { intros <-. apply Hk. unfold keys. apply in_map_iff.
            exists (k, w'). split; [reflexivity | assumption]. }
          rewrite dict_get_set_other in Hget by assumption.
          apply (Hsize k' w' old); [now right | assumption]. }
        specialize (IH Hsize' (fun k' w' Hin => Hsw k' w' (or_intror Hin))).
        assert (Hfe : forall rest,
                  Heap.for_each (Heap.merge_step (S n) (Heap.dict_merge n) add_keys l)
                    ((k, hw) :: rest) h
                  = Heap.for_each (Heap.merge_step (S n) (Heap.dict_merge n) add_keys l)
                      rest h1).
        { intros rest. cbn [Heap.for_each]. unfold Heap.mbind at 1.
          now rewrite Hrun1. }
        rewrite Hfe.
        destruct (merge_items (merge_value add_keys) selected (dict_set k x rtn) wrest)
          as [r|e].
        -- destruct IH as (h' & cur' & G' & Hrun & Hl' & Hcur' & HG' & Hp' & Hlen').
           exists h', cur', G'. repeat split; auto.
           ++ intros r0 Hr0. apply HG' in Hr0.
              apply in_app_or in Hr0 as [Hr0|Hr0].
              ** apply HG1 in Hr0. apply in_app_or in Hr0 as [Hr0|Hr0];
                   [apply in_or_app; now left|].
                 apply in_or_app. right.
                 apply in_app_or in Hr0 as [Hr0|Hr0];
                   [apply in_or_app; left; auto|].
                 apply in_or_app. right. eapply allocated_trans_l; eauto.
              ** apply in_or_app. right.
                 apply in_app_or in Hr0 as [Hr0|Hr0];
                   [apply in_or_app; left; auto|].
                 apply in_or_app. right. eapply allocated_trans_r; eauto.
           ++ intros r0 o Hr0 Ho.
              assert (r0 < List.length h) by (apply nth_error_Some; congruence).
              apply Hp'.
              ** intros [<-|Hin]; [apply Hr0; now left|].
                 apply in_app_or in Hin as [Hin|Hin].
                 --- apply HG1' in Hin as [Hin|[Hin|Hin]]; [| |lia];
                       apply Hr0; right; apply in_or_app; auto.
                 --- apply Hr0; right; apply in_or_app; auto.
              ** apply Hp1; [|assumption]. intros [<-|Hin]; [apply Hr0; now left|].
                 apply Hr0. right. apply in_or_app.
                 apply in_app_or in Hin as [Hin|Hin]; auto.
           ++ lia.
        -- destruct IH as (h' & Hrun). exists h'. exact Hrun.
      * destruct Hstep as (h1 & Hrun1). exists h1.
        cbn [Heap.for_each]. unfold Heap.mbind at 1. rewrite Hrun1. reflexivity.
    + (* the key is filtered out *)
      specialize (IH hrest G2 h cur rtn G Hrest Hl Hcur HlG (fun H => HlF (HG2 _ H))).
      specialize (IH (disjoint_incl _ _ _ _ Hdis (incl_refl _) HG2) HbG).
      specialize (IH (fun r Hr => HbF r (HG2 r Hr)) Wrtn Wrest).
      specialize (IH (fun k' w' Hin => Hrec k' w' (or_intror Hin))).
      specialize (IH (fun k' w' old Hin => Hsize k' w' old (or_intror Hin))).
      specialize (IH (fun k' w' Hin => Hsw k' w' (or_intror Hin))).
      destruct (merge_items (merge_value add_keys) selected rtn wrest) as [r|e].
      * destruct IH as (h' & cur' & G' & Hrun & Hl' & Hcur' & HG' & Hp' & Hlen').
        exists h', cur', G'. repeat split; auto.
        -- intros r0 Hr0. apply HG' in Hr0.
           apply in_app_or in Hr0 as [Hr0|Hr0]; [apply in_or_app; now left|].
           apply in_or_app. right.
           apply in_app_or in Hr0 as [Hr0|Hr0]; apply in_or_app; auto.
        -- intros r0 o Hr0 Ho. apply Hp'; [|assumption].
           intros [<-|Hin]; [apply Hr0; now left|].
           apply Hr0. right. apply in_or_app.
           apply in_app_or in Hin as [Hin|Hin]; auto.
      * destruct IH as (h' & Hrun). exists h'. exact Hrun.
Qed.

End Loop.

(** *** The whole merge of two dictionaries *)

Lemma owns_items_mem (h : Heap.heap) (G : list Heap.ref)
    (cur : list (string * Heap.hvalue)) (d : dict) (k : string) :
  owns_items h G cur d ->
  match Heap.hget k cur with Some _ => true | None => false end = dict_mem k d.
Proof.
  intros H. unfold dict_mem.
  destruct (Heap.hget k cur) as [hold|] eqn:E.
  - destruct (owns_items_focus h G cur d k hold H E) as (old & ? & ? & -> & _).
    reflexivity.
  - destruct (owns_items_absent h G cur d k H E) as [-> _]. reflexivity.
Qed.

Lemma agree_on_extend (F : list Heap.ref) (h : Heap.heap) (o : Heap.object) :
  agree_on F h (h ++ [o]).
Proof.
  intros r o' _ Ho. rewrite nth_error_app1; [assumption|].
  apply nth_error_Some. congruence.
Qed.

Lemma merge_layer_sim (n : nat) (add_keys : bool) (l : Heap.ref)
    (h : Heap.heap) (cur : list (string * Heap.hvalue)) (rtn : dict)
    (G Fw : list Heap.ref) (hw : Heap.hvalue) (dw : dict) :
  nth_error h l = Some (Heap.ODict cur) ->
  owns_items h G cur rtn -> owns h Fw hw (VDict dw) ->
  ~ In l G -> ~ In l Fw -> disjoint G Fw -> bounded h G -> bounded h Fw ->
  wf (VDict rtn) = true -> wf (VDict dw) = true ->
  (forall k w, In (k, w) dw -> merge_sim_ok w) ->
  size (VDict rtn) + size (VDict dw) <= n ->
  match merge_layer add_keys rtn dw with
  | Ok r =>
      exists h' cur' G',
        Heap.merge_layer (S n) (Heap.dict_merge n) add_keys l hw h = Some (Ok tt, h') /\
        nth_error h' l = Some (Heap.ODict cur') /\
        owns_items h' G' cur' r /\
        incl G' (G ++ Fw ++ allocated h h') /\
        preserved_outside (l :: G ++ Fw) h h' /\
        List.length h <= List.length h'
  | Raise e =>
      exists h',
        Heap.merge_layer (S n) (Heap.dict_merge n) add_keys l hw h = Some (Raise e, h')
  end.
Proof.
  intros Hl Hcur Hw HlG HlF Hdis HbG HbF Wrtn Ww Hrec Hfuel.
  inversion Hw as [| | | | |? Gw rw items_w ? Hrw HrwG HGw Hnth_w Hitems_w]; subst.
  assert (Hsel : (if add_keys then items_w
                  else filter (fun kv => match Heap.hget (fst kv) cur with
                                         | Some _ => true
                                         | None => false
                                         end) items_w)
                 = filter (fun kv => key_filter add_keys rtn (fst kv)) items_w).
  { unfold key_filter. destruct add_keys; simpl.
    - symmetry. now apply filter_all.
    - apply filter_ext. intros kv. eapply owns_items_mem; eauto. }
  assert (Hrun : Heap.merge_layer (S n) (Heap.dict_merge n) add_keys l (Heap.HRef rw) h
                 = Heap.for_each
                     (Heap.merge_step (S n) (Heap.dict_merge n) add_keys l)
                     (filter (fun kv => key_filter add_keys rtn (fst kv)) items_w) h).
  { unfold Heap.merge_layer. unfold Heap.mbind.
    rewrite (run_get_dict h rw items_w Hnth_w), (run_get_dict h l cur Hl).
    now rewrite Hsel. }
  rewrite Hrun. clear Hrun.
  assert (Hloop := merge_loop_sim n add_keys l (key_filter add_keys rtn) dw
                     items_w Gw h cur rtn G Hitems_w Hl Hcur HlG).
  specialize (Hloop (fun H => HlF (HGw _ H))).
  specialize (Hloop (disjoint_incl _ _ _ _ Hdis (incl_refl _) HGw) HbG).
  specialize (Hloop (fun r Hr => HbF r (HGw r Hr)) Wrtn Ww Hrec).
  assert (Hsize : forall k w old, In (k, w) dw -> dict_get k rtn = Some old ->
                    size old + size w < n).
  { intros k w old Hin Hget. apply dict_get_In in Hget.
    pose proof (size_entry _ _ _ Hin). pose proof (size_entry _ _ _ Hget). lia. }
  assert (Hsw : forall k w, In (k, w) dw -> size w < n).
  { intros k w Hin. pose proof (size_entry _ _ _ Hin).
    pose proof (size_pos (VDict rtn)). lia. }
  specialize (Hloop Hsize Hsw).
  unfold merge_layer.
  destruct (merge_items (merge_value add_keys) (key_filter add_keys rtn) rtn dw)
    as [r|e]; [|exact Hloop].
  destruct Hloop as (h' & cur' & G' & Hrun & Hl' & Hcur' & HG' & Hp' & Hlen').
  exists h', cur', G'. repeat split; auto.
  - intros r0 Hr0. apply HG' in Hr0.
    apply in_app_or in Hr0 as [Hr0|Hr0]; [apply in_or_app; now left|].
    apply in_or_app. right.
    apply in_app_or in Hr0 as [Hr0|Hr0]; apply in_or_app; auto.
  - intros r0 o Hr0 Ho. apply Hp'; [|assumption].
    intros [<-|Hin]; [apply Hr0; now left|].
    apply Hr0. right. apply in_or_app.
    apply in_app_or in Hin as [Hin|Hin]; auto.
Qed.

Lemma merge_sim (w : value) : merge_sim_ok w.
Proof.
  induction w as [| b | z | s | lw IH | dw IH] using value_nested_ind;
    intros add_keys h Fo Fw hold hw dold dw' fuel Ew; try discriminate Ew.
  injection Ew as <-.
  intros Hold Hw Hdis HbFo HbFw Wold Ww Hfuel.
  destruct fuel as [|n]; [lia|].
  inversion Hold as [| | | | |? Go ro items_o ? Hro HroG HGo Hnth_o Hitems_o]; subst.
  set (l := List.length h).
  set (h1 := h ++ [Heap.ODict items_o]).
  assert (Hl1 : nth_error h1 l = Some (Heap.ODict items_o)).
  { unfold h1, l. rewrite nth_error_app2 by lia. now rewrite Nat.sub_diag. }
  assert (Hlen1 : List.length h1 = S l).
  { unfold h1, l. rewrite length_app. simpl. lia. }
  assert (Hrun : Heap.dict_merge (S n) [Heap.HRef ro; hw] add_keys h
                 = match Heap.merge_layer (S n) (Heap.dict_merge n) add_keys l hw h1 with
                   | Some (Ok _, h') => Some (Ok (Heap.HRef l), h')
                   | Some (Raise e, h') => Some (Raise e, h')
                   | None => None
                   end).
  { cbn [Heap.dict_merge]. unfold Heap.dict_merge_body.
    unfold Heap.mbind at 1. rewrite (run_get_dict h ro items_o Hnth_o).
    unfold Heap.mbind at 1. unfold Heap.new_object at 1. fold l. fold h1.
    cbn [Heap.for_each]. unfold Heap.mbind, Heap.ret.
    destruct (Heap.merge_layer _ _ _ _ _ h1) as [[[[]|e] h']|]; reflexivity. }
  rewrite Hrun. clear Hrun.
  assert (HlGo : ~ In l Go).
  { intros Hin. specialize (HbFo l (HGo l Hin)). unfold l in HbFo. lia. }
  assert (HlFw : ~ In l Fw).
  { intros Hin. specialize (HbFw l Hin). unfold l in HbFw. lia. }
  assert (HbGo : bounded h1 Go).
  { intros r Hr. specialize (HbFo r (HGo r Hr)). fold l in HbFo. lia. }
  assert (HbFw1 : bounded h1 Fw).
  { intros r Hr. specialize (HbFw r Hr). fold l in HbFw. lia. }
  assert (Hrec : forall k w, In (k, w) dw -> merge_sim_ok w).
  { intros k w Hin. rewrite Forall_forall in IH. apply (IH (k, w) Hin). }
  assert (Hlayer := merge_layer_sim n add_keys l h1 items_o dold Go Fw hw dw Hl1
            (owns_items_frame h h1 Go items_o dold Hitems_o (agree_on_extend Go h _))
            (owns_frame h h1 (VDict dw) Fw hw Hw (agree_on_extend Fw h _))
            HlGo HlFw (disjoint_incl _ _ _ _ Hdis HGo (incl_refl _)) HbGo HbFw1
            Wold Ww Hrec ltac:(lia)).
  destruct (merge_layer add_keys dold dw) as [r|e].
  - destruct Hlayer as (h' & cur' & G' & Hrun & Hl' & Hcur' & HG' & Hp' & Hlen').
    exists l, h'. rewrite Hrun. repeat split.
    + assert (HG'' : forall r0, In r0 G' ->
                In r0 Go \/ In r0 Fw \/ List.length h1 <= r0 < List.length h').
      { intros r0 Hr0. apply HG' in Hr0. apply in_app_or in Hr0 as [Hr0|Hr0]; [auto|].
        apply in_app_or in Hr0 as [Hr0|Hr0]; [auto|]. apply In_allocated in Hr0. auto. }
      apply owns_dict with (G := G') (items := cur'); auto.
      * apply in_or_app. right. apply in_or_app. right. apply In_allocated. fold l. lia.
      * intros Hin. apply HG'' in Hin as [Hin|[Hin|Hin]]; [contradiction..|lia].
      * intros r0 Hr0. apply HG'' in Hr0 as [Hr0|[Hr0|Hr0]].
        -- apply in_or_app. left. auto.
        -- apply in_or_app. right. apply in_or_app. left. auto.
        -- apply in_or_app. right. apply in_or_app. right. apply In_allocated. fold l. lia.
    + intros r0 o Hr0 Ho.
      assert (r0 < l) by (apply nth_error_Some; congruence).
      apply Hp'.
      * intros [<-|Hin]; [lia|]. apply Hr0. apply in_or_app.
        apply in_app_or in Hin as [Hin|Hin]; auto.
      * apply (agree_on_extend [r0] h); [now left | assumption].
    + fold l. lia.
  - destruct Hlayer as (h' & Hrun). exists h'. now rewrite Hrun.
Qed.

(** *** A sequence of layers *)

Lemma owns_layers_frame (h h' : Heap.heap) (G : list Heap.ref)
    (hvs : list Heap.hvalue) (ds : list dict) :
  owns_layers h G hvs ds -> agree_on G h h' -> owns_layers h' G hvs ds.
Proof.
  induction 1 as [|G F1 G2 x d xs ds HF HG Hd Hx Hrest IH]; intros Ha; [constructor|].
  apply owns_layers_cons with (F1 := F1) (G2 := G2); auto.
  - eapply owns_frame; eauto. eapply agree_on_incl; eauto.
  - apply IH. eapply agree_on_incl; eauto.
Qed.

Section Layers.
Variables (n : nat) (add_keys : bool) (l : Heap.ref).

Lemma merge_layers_sim (ds : list dict) :
  forall (hvs : list Heap.hvalue) (Fs : list Heap.ref) (h : Heap.heap)
         (cur : list (string * Heap.hvalue)) (rtn : dict) (G : list Heap.ref),
    owns_layers h Fs hvs ds ->
    nth_error h l = Some (Heap.ODict cur) ->
    owns_items h G cur rtn -> ~ In l G -> ~ In l Fs ->
    disjoint G Fs -> bounded h G -> bounded h Fs ->
    wf (VDict rtn) = true -> Forall (fun d => wf_dict d = true) ds ->
    size (VDict rtn) + total_size ds <= n ->
    match merge_layers add_keys rtn ds with
    | Ok r =>
        exists h' cur' G',
          Heap.for_each (Heap.merge_layer (S n) (Heap.dict_merge n) add_keys l) hvs h
          = Some (Ok tt, h') /\
          nth_error h' l = Some (Heap.ODict cur') /\
          owns_items h' G' cur' r /\
          incl G' (G ++ Fs ++ allocated h h') /\
          List.length h <= List.length h'
    | Raise e =>
        exists h',
          Heap.for_each (Heap.merge_layer (S n) (Heap.dict_merge n) add_keys l) hvs h
          = Some (Raise e, h')
    end.
Proof.
  induction ds as [|d ds IH];
    intros hvs Fs h cur rtn G Hlayers Hl Hcur HlG HlF Hdis HbG HbF Wrtn Wds Hn.
  - inversion Hlayers; subst. simpl.
    exists h, cur, G. repeat split; auto. apply incl_appl, incl_refl.
  - inversion Hlayers as [|? F1 G2 hw ? hrest ? HF1 HG2 Hd12 Hw Hrest]; subst.
    inversion Wds as [|? ? Wd Wds']; subst.
    change (total_size (d :: ds)) with (size (VDict d) + total_size ds) in Hn.
    assert (Hlt : l < List.length h) by (apply nth_error_Some; congruence).
    assert (Hstep := merge_layer_sim n add_keys l h cur rtn G F1 hw d Hl Hcur Hw HlG
              (fun H => HlF (HF1 _ H))
              (disjoint_incl _ _ _ _ Hdis (incl_refl _) HF1) HbG
              (fun r Hr => HbF r (HF1 r Hr)) Wrtn Wd
              (fun k w _ => merge_sim w) ltac:(lia)).
    cbn [merge_layers].
    destruct (merge_layer add_keys rtn d) as [r1|e] eqn:E1; cbn [bind].
    + destruct Hstep as (h1 & cur1 & G1 & Hrun1 & Hl1 & Hcur1 & HG1 & Hp1 & Hlen1).
      assert (Hfe : Heap.for_each (Heap.merge_layer (S n) (Heap.dict_merge n) add_keys l)
                      (hw :: hrest) h
                    = Heap.for_each (Heap.merge_layer (S n) (Heap.dict_merge n) add_keys l)
                        hrest h1).
      { cbn [Heap.for_each]. unfold Heap.mbind at 1. now rewrite Hrun1. }
      rewrite Hfe.
      assert (HG1' : forall r, In r G1 ->
                In r G \/ In r F1 \/ List.length h <= r < List.length h1).
      { intros r Hr. apply HG1 in Hr. apply in_app_or in Hr as [Hr|Hr]; [auto|].
        apply in_app_or in Hr as [Hr|Hr]; [auto|]. apply In_allocated in Hr. auto. }
      assert (Hagree : agree_on G2 h h1).
      { intros r o Hr Ho. apply Hp1; [|assumption].
        intros [<-|Hin]; [apply HlF; auto|].
        apply in_app_or in Hin as [Hin|Hin];
          [apply (Hdis r); auto | apply (Hd12 r); auto]. }
      assert (HlG1 : ~ In l G1).
      { intros Hin. apply HG1' in Hin as [Hin|[Hin|Hin]];
          [contradiction | apply HlF; auto | lia]. }
      assert (Hd1 : disjoint G1 G2).
      { intros r Hr Hr2. apply HG1' in Hr as [Hr|[Hr|Hr]].
        - apply (Hdis r); auto.
        - apply (Hd12 r); auto.
        - specialize (HbF r (HG2 r Hr2)). lia. }
      assert (HbG1 : bounded h1 G1).
      { intros r Hr. apply HG1' in Hr as [Hr|[Hr|Hr]].
        - specialize (HbG r Hr). lia.
        - specialize (HbF r (HF1 r Hr)). lia.
        - lia. }
      assert (HbG2 : bounded h1 G2).
      { intros r Hr. specialize (HbF r (HG2 r Hr)). lia. }
      pose proof (merge_layer_size _ _ _ _ E1) as Hsz.
      specialize (IH hrest G2 h1 cur1 r1 G1
                     (owns_layers_frame h h1 G2 hrest ds Hrest Hagree) Hl1 Hcur1
                     HlG1 (fun H => HlF (HG2 _ H)) Hd1 HbG1 HbG2
                     (merge_layer_wf _ _ _ _ Wrtn Wd E1) Wds' ltac:(lia)).
      destruct (merge_layers add_keys r1 ds) as [r|e]; [|exact IH].
      destruct IH as (h' & cur' & G' & Hrun & Hl' & Hcur' & HG' & Hlen').
      exists h', cur', G'. repeat split; auto; [|lia].
      intros r0 Hr0. apply HG' in Hr0.
      apply in_app_or in Hr0 as [Hr0|Hr0].
      * apply HG1 in Hr0. apply in_app_or in Hr0 as [Hr0|Hr0];
          [apply in_or_app; now left|].
        apply in_or_app. right.
        apply in_app_or in Hr0 as [Hr0|Hr0];
          [apply in_or_app; left; auto|].
        apply in_or_app. right. eapply allocated_trans_l; eauto.
      * apply in_or_app. right.
        apply in_app_or in Hr0 as [Hr0|Hr0];
          [apply in_or_app; left; auto|].
        apply in_or_app. right. eapply allocated_trans_r; eauto.
    + destruct Hstep as (h1 & Hrun1). exists h1.
      cbn [Heap.for_each]. unfold Heap.mbind at 1. now rewrite Hrun1.
Qed.

End Layers.

(** *** Allocation builds unshared trees *)

Lemma preserved_agree_on (F : list Heap.ref) (h h' : Heap.heap) :
  preserved h h' -> agree_on F h h'.
Proof. intros H r o _. apply H. Qed.

Lemma allocated_disjoint (h h1 h' : Heap.heap) :
  disjoint (allocated h h1) (allocated h1 h').
Proof. intros r H1 H2. apply In_allocated in H1. apply In_allocated in H2. lia. Qed.

Lemma alloc_owns (v : value) :
  forall h, exists hv h',
    Heap.alloc v h = Some (Ok hv, h') /\ owns h' (allocated h h') hv v /\
    preserved h h' /\ List.length h <= List.length h'.
Proof.
  induction v as [| b | z | s | l IH | d IH] using value_nested_ind; intros h;
    try (do 2 eexists; split; [reflexivity|]; split;
         [constructor | split; [apply preserved_refl | lia]]).
  - assert (H : exists items h1,
               Heap.build_all Heap.alloc l h = Some (Ok items, h1) /\
               Forall2 (owns h1 (allocated h h1)) items l /\ preserved h h1 /\
               List.length h <= List.length h1).
    { revert h. induction IH as [|x l Hx _ IHl]; intros h.
      - exists [], h. repeat split; [constructor | apply preserved_refl | lia].
      - destruct (Hx h) as (hx & ha & Ea & Ra & Pa & La).
        destruct (IHl ha) as (hl & hb & Eb & Rb & Pb & Lb).
        exists (hx :: hl), hb. split; [|split; [|split]].
        + cbn [Heap.build_all]. unfold Heap.mbind at 1. rewrite Ea.
          unfold Heap.mbind at 1. rewrite Eb. reflexivity.
        + constructor.
          * eapply owns_mono; [|apply (allocated_trans_l h ha hb); assumption].
            eapply owns_frame; [exact Ra | now apply preserved_agree_on].
          * eapply elements_mono; [exact Rb | apply allocated_trans_r; assumption].
        + eapply preserved_trans; eauto.
        + lia. }
    destruct H as (items & h1 & E & R & P & L).
    exists (Heap.HRef (List.length h1)), (h1 ++ [Heap.OList items]).
    assert (Hlen : List.length (h1 ++ [Heap.OList items]) = S (List.length h1))
      by (rewrite length_app; simpl; lia).
    split; [|split; [|split]].
    + cbn [Heap.alloc]. unfold Heap.mbind. rewrite E. reflexivity.
    + apply owns_list with (G := allocated h h1) (items := items).
      * apply In_allocated. lia.
      * intros Hin. apply In_allocated in Hin. lia.
      * intros r Hr. apply In_allocated in Hr. apply In_allocated. lia.
      * rewrite nth_error_app2, Nat.sub_diag by lia. reflexivity.
      * eapply elements_frame; [exact R | apply preserved_agree_on, preserved_app].
    + eapply preserved_trans; [exact P | apply preserved_app].
    + lia.
  - assert (H : exists items h1,
               Heap.build_items Heap.alloc d h = Some (Ok items, h1) /\
               owns_items h1 (allocated h h1) items d /\ preserved h h1 /\
               List.length h <= List.length h1).
    { revert h. induction IH as [|[k x] d Hx _ IHl]; intros h.
      - exists [], h. repeat split; [constructor | apply preserved_refl | lia].
      - simpl in Hx. destruct (Hx h) as (hx & ha & Ea & Ra & Pa & La).
        destruct (IHl ha) as (hl & hb & Eb & Rb & Pb & Lb).
        exists ((k, hx) :: hl), hb. split; [|split; [|split]].
        + cbn [Heap.build_items snd fst]. unfold Heap.mbind at 1. rewrite Ea.
          unfold Heap.mbind at 1. rewrite Eb. reflexivity.
        + apply owns_items_cons with (F1 := allocated h ha) (G2 := allocated ha hb).
          * apply allocated_trans_l; assumption.
          * apply allocated_trans_r; assumption.
          * apply allocated_disjoint.
          * eapply owns_frame; [exact Ra | now apply preserved_agree_on].
          * exact Rb.
        + eapply preserved_trans; eauto.
        + lia. }
    destruct H as (items & h1 & E & R & P & L).
    exists (Heap.HRef (List.length h1)), (h1 ++ [Heap.ODict items]).
    assert (Hlen : List.length (h1 ++ [Heap.ODict items]) = S (List.length h1))
      by (rewrite length_app; simpl; lia).
    split; [|split; [|split]].
    + cbn [Heap.alloc]. unfold Heap.mbind. rewrite E. reflexivity.
    + apply owns_dict with (G := allocated h h1) (items := items).
      * apply In_allocated. lia.
      * intros Hin. apply In_allocated in Hin. lia.
      * intros r Hr. apply In_allocated in Hr. apply In_allocated. lia.
      * rewrite nth_error_app2, Nat.sub_diag by lia. reflexivity.
      * eapply owns_items_frame; [exact R | apply preserved_agree_on, preserved_app].
    + eapply preserved_trans; [exact P | apply preserved_app].
    + lia.
Qed.

Lemma alloc_all_owns (ds : list dict) :
  forall h, exists hvs h',
    alloc_all (map VDict ds) h = Some (Ok hvs, h') /\
    owns_layers h' (allocated h h') hvs ds /\
    preserved h h' /\ List.length h <= List.length h'.
Proof.
  induction ds as [|d ds IH]; intros h.
  - exists [], h. repeat split; [constructor | apply preserved_refl | lia].
  - destruct (alloc_owns (VDict d) h) as (hx & ha & Ea & Ra & Pa & La).
    destruct (IH ha) as (hl & hb & Eb & Rb & Pb & Lb).
    exists (hx :: hl), hb. split; [|split; [|split]].
    + cbn [alloc_all map]. unfold Heap.mbind at 1. rewrite Ea.
      unfold Heap.mbind at 1. rewrite Eb. reflexivity.
    + apply owns_layers_cons with (F1 := allocated h ha) (G2 := allocated ha hb).
      * apply allocated_trans_l; assumption.
      * apply allocated_trans_r; assumption.
      * apply allocated_disjoint.
      * eapply owns_frame; [exact Ra | now apply preserved_agree_on].
      * exact Rb.
    + eapply preserved_trans; eauto.
    + lia.
Qed.

(** *** The store and the plain function agree *)

Lemma run_in_store_plain (layers : list dict) (add_keys : bool) (fuel : nat) :
  Forall (fun d => wf_dict d = true) layers ->
  total_size layers < fuel ->
  run_in_store fuel layers add_keys = run_plain layers add_keys.
Proof.
  intros Hwf Hfuel. unfold run_in_store, run_plain.
  destruct (alloc_all_owns layers []) as (hvs & h & Ea & Hown & _ & _).
  rewrite Ea. destruct fuel as [|n]; [lia|].
  inversion Hown as [|? Fa Gr ha a hrest rest HFa HGr Hdis Ha Hrest]; subst;
    [reflexivity|].
  inversion Hrest as [|? Fb Gr' hb b hrest' rest' HFb HGr' Hdis' Hb Hrest']; subst;
    [reflexivity|].
  inversion Hwf as [|? ? Wa Wrest]; subst.
  inversion Ha as [| | | | |? Ga ra items_a ? Hra HraG HGa Hnth_a Hitems_a]; subst.
  set (l := List.length h).
  set (h1 := h ++ [Heap.ODict items_a]).
  assert (Hl1 : nth_error h1 l = Some (Heap.ODict items_a)).
  { unfold h1, l. rewrite nth_error_app2 by lia. now rewrite Nat.sub_diag. }
  assert (Hlen1 : List.length h1 = S l).
  { unfold h1, l. rewrite length_app. simpl. lia. }
  assert (Hrun : Heap.dict_merge (S n) (Heap.HRef ra :: hb :: hrest') add_keys h
                 = match Heap.for_each
                           (Heap.merge_layer (S n) (Heap.dict_merge n) add_keys l)
                           (hb :: hrest') h1 with
                   | Some (Ok _, h') => Some (Ok (Heap.HRef l), h')
                   | Some (Raise e, h') => Some (Raise e, h')
                   | None => None
                   end).
  { cbn [Heap.dict_merge]. unfold Heap.dict_merge_body.
    unfold Heap.mbind at 1. rewrite (run_get_dict h ra items_a Hnth_a).
    unfold Heap.mbind at 1. unfold Heap.new_object at 1. fold l. fold h1.
    unfold Heap.mbind at 1.
    destruct (Heap.for_each _ _ h1) as [[[[]|e] h']|]; reflexivity. }
  rewrite Hrun. clear Hrun.
  assert (Hb0 : forall r, In r (allocated [] h) -> r < l).
  { intros r Hr. apply In_allocated in Hr. unfold l. lia. }
  change (total_size (a :: b :: rest'))
    with (size (VDict a) + total_size (b :: rest')) in Hfuel.
  assert (Hsim := merge_layers_sim n add_keys l (b :: rest') (hb :: hrest') Gr h1
            items_a a Ga
            (owns_layers_frame h h1 Gr _ _ Hrest (agree_on_extend Gr h _)) Hl1
            (owns_items_frame h h1 Ga items_a a Hitems_a (agree_on_extend Ga h _))).
  assert (HlGa : ~ In l Ga).
  { intros Hin. specialize (Hb0 l (HFa l (HGa l Hin))). lia. }
  assert (HlGr : ~ In l Gr).
  { intros Hin. specialize (Hb0 l (HGr l Hin)). lia. }
  specialize (Hsim HlGa HlGr (disjoint_incl _ _ _ _ Hdis HGa (incl_refl _))).
  assert (HbGa : bounded h1 Ga).
  { intros r Hr. specialize (Hb0 r (HFa r (HGa r Hr))). lia. }
  assert (HbGr : bounded h1 Gr).
  { intros r Hr. specialize (Hb0 r (HGr r Hr)). lia. }
  specialize (Hsim HbGa HbGr Wa Wrest ltac:(lia)).
  cbn [dict_merge].
  pose proof (merge_layers_size add_keys (b :: rest') a) as Hsz.
  destruct (merge_layers add_keys a (b :: rest')) as [r|e]; cbn [bind].
  - destruct Hsim as (h' & cur' & G' & Hrun & Hl' & Hcur' & HG' & Hlen').
    rewrite Hrun. specialize (Hsz r eq_refl).
    assert (Hres : owns h' (l :: G') (Heap.HRef l) (VDict r)).
    { apply owns_dict with (G := G') (items := cur'); auto.
      - now left.
      - intros Hin. apply HG' in Hin.
        apply in_app_or in Hin as [Hin|Hin]; [contradiction|].
        apply in_app_or in Hin as [Hin|Hin]; [contradiction|].
        apply In_allocated in Hin. lia.
      - apply incl_tl, incl_refl. }
    rewrite (reify_repr [] h' (VDict r) (Heap.HRef l) (S n)).
    + reflexivity.
    + eapply owns_repr; [exact Hres | apply disjoint_nil_r].
    + lia.
  - destruct Hsim as (h' & Hrun). now rewrite Hrun.
Qed.

Theorem store_agrees_with_plain (layers : list dict) (add_keys : bool) (fuel : nat) :
  Forall (fun d => wf_dict d = true) layers ->
  total_size layers < fuel ->
  run_in_store fuel layers add_keys = run_plain layers add_keys.
Proof. apply run_in_store_plain. Qed.

(** ** The three groupings in one store

    The first call of the chain changes lists of [a] (and the second may
    change lists of [b]), and the later calls of the chain see the changed
    layers.  On the sample layers, whose dictionaries have at most one
    list, the three results are equal all the same whenever the two-layer
    merges succeed on plain values. *)
Lemma chained_merges_agree_on_samples :
  forallb (fun a =>
    forallb (fun b =>
      forallb (fun c => chained_merges_agree true a b c) sample_layers)
      sample_layers)
    sample_layers = true.
Proof. vm_compute. reflexivity. Qed.

(** When every call is given objects of its own (its arguments are built
    afresh, as trees, in an empty store), the store model regroups as the
    plain function does: if the four two-layer merges succeed on plain
    values, the five calls return in the store and the three groupings give
    the same dictionary. *)
Lemma dict_merge_associative_unshared (a b c : dict) (fuel : nat) :
  wf_dict a = true -> wf_dict b = true -> wf_dict c = true ->
  total_size [a; b; c] < fuel ->
  merges_succeed true a b c = true ->
  exists ab bc l : dict,
    run_in_store fuel [a; b] true = Some (Ok (VDict ab)) /\
    run_in_store fuel [ab; c] true = Some (Ok (VDict l)) /\
    run_in_store fuel [b; c] true = Some (Ok (VDict bc)) /\
    run_in_store fuel [a; bc] true = Some (Ok (VDict l)) /\
    run_in_store fuel [a; b; c] true = Some (Ok (VDict l)).
Proof.
  intros Wa Wb Wc Hfuel Hs. unfold merges_succeed in Hs.
  destruct (dict_merge [a; b] true) as [ab|] eqn:Hab; [|discriminate].
  destruct (dict_merge [b; c] true) as [bc|] eqn:Hbc; [|discriminate].
  destruct (dict_merge [ab; c] true) as [l|] eqn:Hl; [|discriminate].
  destruct (dict_merge [a; bc] true) as [r|] eqn:Hr; [|discriminate].
  destruct (dict_merge_associative a b c ab bc l r Wa Wb Wc Hab Hl Hbc Hr)
    as (<- & Habc & _).
  assert (Wab : wf_dict ab = true).
  { rewrite dict_merge_two in Hab. now apply (merge_layer_wf true a b). }
  assert (Wbc : wf_dict bc = true).
  { rewrite dict_merge_two in Hbc. now apply (merge_layer_wf true b c). }
  assert (Sab : size (VDict ab) + 1 <= size (VDict a) + size (VDict b)).
  { rewrite dict_merge_two in Hab. now apply merge_layer_size in Hab. }
  assert (Sbc : size (VDict bc) + 1 <= size (VDict b) + size (VDict c)).
  { rewrite dict_merge_two in Hbc. now apply merge_layer_size in Hbc. }
  unfold total_size in Hfuel. cbn [fold_right] in Hfuel.
  exists ab, bc, l.
  rewrite !run_in_store_plain;
    try (repeat constructor; assumption);
    try (unfold total_size; cbn [fold_right]; lia).
  unfold run_plain. rewrite Hab, Hl, Hbc, Hr, Habc. repeat split.
Qed.


(** The change can also hide a conflict: merging [regroup_a] with the merge
    of [conflict_b] and [conflict_c] raises on objects of its own, but not
    after [dict_merge(a, b)] has run, and the whole expression is [True]. *)
Lemma dict_merge_regrouping_hides_conflict :
  (exists bc : dict,
     dict_merge [conflict_b; conflict_c] true = Ok bc /\
     dict_merge [regroup_a; bc] true = Raise TypeError /\
     run_in_store 60 [regroup_a; bc] true = Some (Raise TypeError)) /\
  chained_merges 60 true regroup_a conflict_b conflict_c = Some (Ok true).
Proof.
  split; [eexists; repeat split|]; vm_compute; reflexivity.
Qed.

(** ** More about [dict_merge] *)

(** *** The keys of the result *)

Section KeepKeys.
Variable f : value -> value -> result value.
Variable selected : string -> bool.

Lemma merge_items_keep_keys (items : dict) :
  forall rtn r,
    (forall k, selected k = true -> dict_mem k rtn = true) ->
    merge_items f selected rtn items = Ok r ->
    keys r = keys rtn.
Proof.
  induction items as [|[k v] items IH]; intros rtn r Hsel Hm.
  - simpl in Hm. now injection Hm as <-.
  - rewrite merge_items_cons in Hm. destruct (selected k) eqn:E; [|eauto].
    apply bind_ok in Hm as (x & _ & Hm).
    assert (Hk : keys (dict_set k x rtn) = keys rtn).
    { rewrite keys_dict_set. now rewrite (Hsel k E). }
    rewrite <- Hk. apply IH; [|assumption].
    intros k' Hk'. apply dict_mem_In. rewrite Hk. apply dict_mem_In. auto.
Qed.
End KeepKeys.

Lemma merge_layers_keep_keys (layers : list dict) :
  forall rtn r, merge_layers false rtn layers = Ok r -> keys r = keys rtn.
Proof.
  induction layers as [|d layers IH]; intros rtn r H; simpl in H.
  - now injection H as <-.
  - apply bind_ok in H as (r1 & H1 & H).
    rewrite (IH _ _ H). unfold merge_layer in H1.
    apply merge_items_keep_keys in H1; [assumption|].
    intros k Hk. exact Hk.
Qed.

(** With [add_keys=False] the result has the keys of the first layer, in
    their order, whatever the other layers hold. *)
Theorem dict_merge_keeps_keys (a : dict) (layers : list dict) (r : dict) :
  dict_merge (a :: layers) false = Ok r -> keys r = keys a.
Proof.
  destruct layers as [|b layers]; [discriminate|].
  apply merge_layers_keep_keys.
Qed.

Lemma dict_merge_keeps_keys_witness :
  dict_merge [layer_a; layer_b; layer_c] false
  = Ok [("x", VList [VInt 1; VInt 2; VInt 3]);
        ("y", VDict [("p", VInt 1)]); ("w", VInt 0)] /\
  keys [("x", VList [VInt 1; VInt 2; VInt 3]);
        ("y", VDict [("p", VInt 1)]); ("w", VInt 0)] = keys layer_a.
Proof.
  split; [reflexivity|].
  apply (dict_merge_keeps_keys layer_a [layer_b; layer_c]). reflexivity.
Defined.

Lemma dict_mem_existsb (k : string) (d : dict) :
  dict_mem k d = existsb (String.eqb k) (keys d).
Proof.
  unfold dict_mem. induction d as [|[k' v'] d IH]; simpl; [reflexivity|].
  destruct (String.eqb k k'); [reflexivity | exact IH].
Qed.

Lemma merge_layers_keys (layers : list dict) :
  forall rtn r,
    Forall (fun d => NoDup (keys d)) layers ->
    merge_layers true rtn layers = Ok r ->
    keys r = fold_left add_new_keys layers (keys rtn).
Proof.
  induction layers as [|d layers IH]; intros rtn r Hnd H; simpl in H.
  - now injection H as <-.
  - inversion Hnd as [|? ? Hd Hrest]; subst.
    apply bind_ok in H as (r1 & H1 & H).
    rewrite (IH _ _ Hrest H). simpl. f_equal.
    rewrite (merge_layer_keys _ _ _ Hd H1). unfold add_new_keys. f_equal.
    apply filter_ext. intros k. now rewrite dict_mem_existsb.
Qed.

(** With [add_keys=True] the keys of the result are those of the first
    layer in their order, followed by the new keys of each later layer in
    the order in which they first appear. *)
Theorem dict_merge_key_order (a : dict) (layers : list dict) (r : dict) :
  Forall (fun d => NoDup (keys d)) layers ->
  dict_merge (a :: layers) true = Ok r ->
  keys r = fold_left add_new_keys layers (keys a).
Proof.
  destruct layers as [|b layers]; [discriminate|].
  apply merge_layers_keys.
Qed.

Lemma dict_merge_key_order_witness :
  Forall (fun d => NoDup (keys d)) [layer_b; layer_c] /\
  dict_merge [layer_a; layer_b; layer_c] true = Ok merged_abc /\
  keys merged_abc = ["x"; "y"; "w"; "z"].
Proof.
  assert (H : Forall (fun d => NoDup (keys d)) [layer_b; layer_c]).
  { repeat constructor; simpl; intuition discriminate. }
  split; [exact H|]. split; [reflexivity|].
  apply (dict_merge_key_order layer_a [layer_b; layer_c] merged_abc H). reflexivity.
Defined.

(** *** The value under one key *)

Lemma key_filter_present (add_keys : bool) (rtn : dict) (k : string) (old : value) :
  dict_get k rtn = Some old -> key_filter add_keys rtn k = true.
Proof.
  intros H. unfold key_filter, dict_mem. rewrite H. apply orb_true_r.
Qed.

(** A key that the layer does not have keeps its value; a key that only the
    layer has is added with [add_keys=True] and left out otherwise. *)
Theorem dict_merge_one_sided_keys (add_keys : bool) (rtn layer r : dict) (k : string) :
  NoDup (keys layer) ->
  dict_merge [rtn; layer] add_keys = Ok r ->
  (dict_get k layer = None -> dict_get k r = dict_get k rtn) /\
  (dict_get k rtn = None ->
   dict_get k r = if add_keys then dict_get k layer else None).
Proof.
  intros Hnd Hm. rewrite dict_merge_two in Hm. unfold merge_layer in Hm.
  pose proof (merge_items_get _ _ layer rtn r Hnd Hm k) as G.
  split.
  - intros Hk. rewrite Hk in G. simpl in G.
    destruct (key_filter add_keys rtn k); congruence.
  - intros Hk. unfold key_filter, dict_mem in G. rewrite Hk in G.
    destruct add_keys; simpl in G; [|congruence].
    destruct (dict_get k layer) as [v|]; simpl in G; congruence.
Qed.

Lemma dict_merge_one_sided_keys_witness :
  NoDup (keys layer_b) /\
  dict_get "w" merged_ab = dict_get "w" layer_a.
Proof.
  assert (H : NoDup (keys layer_b)) by (repeat constructor; simpl; intuition discriminate).
  split; [exact H|].
  apply (dict_merge_one_sided_keys true layer_a layer_b merged_ab "w" H eq_refl).
  reflexivity.
Defined.

(** A value of the accumulator that is falsy ([None], [False], [0], [""],
    [[]], [{}]) is replaced by the incoming value, whatever the two types
    are and also with [add_keys=False]. *)
Theorem dict_merge_replaces_falsy (add_keys : bool) (rtn layer r : dict)
    (k : string) (old v : value) :
  NoDup (keys layer) ->
  dict_get k rtn = Some old -> truthy old = false ->
  dict_get k layer = Some v ->
  dict_merge [rtn; layer] add_keys = Ok r ->
  dict_get k r = Some v.
Proof.
  intros Hnd Hold Hfalsy Hv Hm. rewrite dict_merge_two in Hm. unfold merge_layer in Hm.
  pose proof (merge_items_get _ _ layer rtn r Hnd Hm k) as G.
  rewrite (key_filter_present add_keys rtn k old Hold), Hold, Hv in G.
  simpl in G. rewrite Hfalsy in G. simpl in G. congruence.
Qed.

Lemma dict_merge_replaces_falsy_witness :
  dict_merge [[("x", VDict [])]; [("x", VList [VInt 1])]] false
  = Ok [("x", VList [VInt 1])] /\
  dict_get "x" [("x", VList [VInt 1])] = Some (VList [VInt 1]).
Proof.
  split; [reflexivity|].
  apply (dict_merge_replaces_falsy false [("x", VDict [])] [("x", VList [VInt 1])]
           [("x", VList [VInt 1])] "x" (VDict []) (VList [VInt 1]));
    try reflexivity.
  repeat constructor; simpl; tauto.
Defined.

(** Two scalars of one type (or a [bool] coming over an [int]): the later
    layer wins. *)
Theorem dict_merge_last_scalar_wins (add_keys : bool) (rtn layer r : dict)
    (k : string) (old v : value) :
  NoDup (keys layer) ->
  dict_get k rtn = Some old -> dict_get k layer = Some v ->
  is_scalar old = true -> is_scalar v = true ->
  isinstance v (type_of old) = true ->
  dict_merge [rtn; layer] add_keys = Ok r ->
  dict_get k r = Some v.
Proof.
  intros Hnd Hold Hv So Sv Hinst Hm. rewrite dict_merge_two in Hm.
  unfold merge_layer in Hm.
  pose proof (merge_items_get _ _ layer rtn r Hnd Hm k) as G.
  rewrite (key_filter_present add_keys rtn k old Hold), Hold, Hv in G.
  simpl in G.
  assert (E : (if truthy old then merge_value add_keys old v else Ok v) = Ok v).
  { destruct (truthy old); [|reflexivity].
    rewrite merge_value_cases.
    destruct old, v; try discriminate; simpl in *; now rewrite ?Hinst. }
  rewrite E in G. simpl in G. congruence.
Qed.

Lemma dict_merge_last_scalar_wins_witness :
  dict_merge [[("x", VInt 1); ("y", VStr "a")]; [("x", VBool true); ("y", VStr "b")]]
    true
  = Ok [("x", VBool true); ("y", VStr "b")] /\
  dict_get "x" [("x", VBool true); ("y", VStr "b")] = Some (VBool true).
Proof.
  split; [reflexivity|].
  apply (dict_merge_last_scalar_wins true [("x", VInt 1); ("y", VStr "a")]
           [("x", VBool true); ("y", VStr "b")] [("x", VBool true); ("y", VStr "b")]
           "x" (VInt 1) (VBool true)); try reflexivity.
  repeat constructor; simpl; intuition discriminate.
Defined.

(** *** Layers without common keys *)

Lemma dict_set_new (k : string) (v : value) (d : dict) :
  ~ In k (keys d) -> dict_set k v d = d ++ [(k, v)].
Proof.
  induction d as [|[k' v'] d IH]; simpl; intros H; [reflexivity|].
  destruct (String.eqb_spec k k') as [->|Hne]; [tauto|].
  rewrite IH; tauto.
Qed.

Section Concatenation.
Variable f : value -> value -> result value.

Lemma merge_items_disjoint (items : dict) :
  forall rtn,
    NoDup (keys items) ->
    (forall k, In k (keys items) -> ~ In k (keys rtn)) ->
    merge_items f (fun _ => true) rtn items = Ok (rtn ++ items).
Proof.
  induction items as [|[k v] items IH]; intros rtn Hnd Hdis.
  - simpl. now rewrite app_nil_r.
  - inversion Hnd as [|? ? Hk Hnd']; subst.
    rewrite merge_items_cons.
    assert (Hnew : ~ In k (keys rtn)) by (apply Hdis; now left).
    apply dict_get_None in Hnew as Hget. rewrite Hget. simpl.
    rewrite dict_set_new by assumption.
    rewrite IH; [now rewrite <- app_assoc | assumption |].
    intros k' Hk'. unfold keys. rewrite map_app, in_app_iff. simpl.
    intros [H|[<-|[]]]; [|contradiction].
    apply (Hdis k'); [now right | exact H].
Qed.

Lemma merge_items_none_selected (selected : string -> bool) (items rtn : dict) :
  (forall k, In k (keys items) -> selected k = false) ->
  merge_items f selected rtn items = Ok rtn.
Proof.
  induction items as [|[k v] items IH]; intros Hsel; [reflexivity|].
  rewrite merge_items_cons, (Hsel k) by now left.
  apply IH. intros k' Hk'. apply Hsel. now right.
Qed.
End Concatenation.

(** Layers that have no key in common are put one after the other; the
    empty layer changes nothing on either side, and with [add_keys=False]
    nothing is taken from a layer without a common key. *)
Theorem dict_merge_disjoint_layers (a b : dict) :
  NoDup (keys b) ->
  (forall k, In k (keys b) -> ~ In k (keys a)) ->
  dict_merge [a; b] true = Ok (a ++ b) /\
  dict_merge [a; b] false = Ok a.
Proof.
  intros Hnd Hdis. rewrite !dict_merge_two. unfold merge_layer. split.
  - now apply merge_items_disjoint.
  - apply merge_items_none_selected.
    intros k Hk. unfold key_filter. simpl.
    destruct (dict_mem k a) eqn:E; [|reflexivity].
    apply dict_mem_In in E. now apply Hdis in Hk.
Qed.

Lemma dict_merge_disjoint_layers_witness :
  dict_merge [[("x", VInt 1)]; [("y", VList []); ("z", VNone)]] true
  = Ok [("x", VInt 1); ("y", VList []); ("z", VNone)] /\
  dict_merge [[("x", VInt 1)]; [("y", VList []); ("z", VNone)]] false
  = Ok [("x", VInt 1)].
Proof.
  apply (dict_merge_disjoint_layers [("x", VInt 1)] [("y", VList []); ("z", VNone)]).
  - repeat constructor; simpl; intuition discriminate.
  - simpl. intros k [<-|[<-|[]]] [H|[]]; discriminate.
Defined.

(** *** The errors of [dict_merge] *)

(** [dict_merge] fails the assertion exactly when it gets fewer than two
    layers; on two or more dictionaries the only error is [TypeError]. *)
Theorem dict_merge_errors (layers : list dict) (add_keys : bool) :
  (dict_merge layers add_keys = Raise AssertionError <-> List.length layers < 2) /\
  (forall e, dict_merge layers add_keys = Raise e ->
             2 <= List.length layers -> e = TypeError).
Proof.
  destruct layers as [|a [|b layers]]; simpl.
  - split; [split; [lia | reflexivity] | intros; lia].
  - split; [split; [lia | reflexivity] | intros; lia].
  - split.
    + split; [|lia]. intros H.
      change (merge_layers add_keys a (b :: layers) = Raise AssertionError) in H.
      apply merge_layers_raise in H. discriminate.
    + intros e H _.
      change (merge_layers add_keys a (b :: layers) = Raise e) in H.
      now apply merge_layers_raise in H.
Qed.

(** *** The order of the items with [add_keys=False] *)

Lemma wf_dict_perm (b b' : dict) :
  Permutation b b' -> wf_dict b = true -> wf_dict b' = true.
Proof.
  intros Hp. unfold wf_dict. rewrite !wf_VDict. intros [Hnd Hv]. split.
  - unfold keys in *. eapply Permutation_NoDup; [|exact Hnd].
    now apply Permutation_map.
  - intros k v Hin. apply (Hv k v).
    eapply Permutation_in; [apply Permutation_sym; exact Hp | exact Hin].
Qed.

Lemma size_dict_perm (b b' : dict) :
  Permutation b b' -> size (VDict b) = size (VDict b').
Proof.
  intros Hp. simpl. f_equal.
  induction Hp as [|x l l' _ IH|x y l|l l' l'' _ IH1 _ IH2]; simpl; lia.
Qed.

(** On plain values the items of the second layer may come in any order:
    the merge returns the same dictionary, or raises in every order. *)
Lemma dict_merge_filtered_any_order (a b b' : dict) :
  NoDup (keys a) -> NoDup (keys b) -> Permutation b b' ->
  dict_merge [a; b'] false = dict_merge [a; b] false.
Proof.
  intros Ha Hb Hp.
  assert (Hb' : NoDup (keys b')).
  { unfold keys in *. eapply Permutation_NoDup; [|exact Hb].
    now apply Permutation_map. }
  assert (Hsel : forall k, key_filter false a k = true -> dict_mem k a = true).
  { intros k Hk. exact Hk. }
  rewrite !dict_merge_two. unfold merge_layer.
  destruct (merge_items (merge_value false) (key_filter false a) a b)
    as [r|e] eqn:E.
  - now apply (merge_items_any_order _ _ b b' a r).
  - destruct (merge_items (merge_value false) (key_filter false a) a b')
      as [r'|e'] eqn:E'.
    + apply (merge_items_any_order _ _ b' b a r') in E'; auto.
      * congruence.
      * now apply Permutation_sym.
    + assert (He : e = TypeError).
      { apply (merge_layers_raise false [b] a). simpl.
        unfold merge_layer. now rewrite E. }
      assert (He' : e' = TypeError).
      { apply (merge_layers_raise false [b'] a). simpl.
        unfold merge_layer. now rewrite E'. }
      congruence.
Qed.

(** With [add_keys=False] the items of a layer are taken from a set of
    keys, in an order that Python does not fix.  For two layers that share
    no object (each built in the store as a tree of its own) the order does
    not matter: the call returns the same value, or raises the same error,
    whichever way the items of the second layer are ordered. *)
Theorem dict_merge_filtered_order_unshared (a b b' : dict) (fuel : nat) :
  wf_dict a = true -> wf_dict b = true -> Permutation b b' ->
  total_size [a; b] < fuel ->
  run_in_store fuel [a; b'] false = run_in_store fuel [a; b] false.
Proof.
  intros Ha Hb Hp Hfuel.
  assert (Hb' := wf_dict_perm b b' Hp Hb).
  assert (Hsz : total_size [a; b'] = total_size [a; b]).
  { unfold total_size. cbn [fold_right]. now rewrite (size_dict_perm b b' Hp). }
  rewrite !run_in_store_plain; try (repeat constructor; assumption); try lia.
  unfold run_plain. f_equal. f_equal.
  apply wf_VDict in Ha as [Ha _]. apply wf_VDict in Hb as [Hb _].
  now apply dict_merge_filtered_any_order.
Qed.

Lemma dict_merge_filtered_order_unshared_witness :
  run_in_store 40
    [layer_a; [("y", VDict [("q", VBool true)]); ("x", VList [VInt 2])]] false
  = run_in_store 40 [layer_a; layer_b] false.
Proof.
  apply (dict_merge_filtered_order_unshared layer_a layer_b).
  - reflexivity.
  - reflexivity.
  - apply perm_swap.
  - vm_compute. lia.
Defined.

(** An object that occurs twice in the first layer makes the order count:
    in [shared_store] the list under ["k"] is also the element of the list
    under ["z"].  When ["k"] is merged first the shared list is [[1, 2]] by
    the time ["z"] is merged and [[1]] is appended to the list under ["z"];
    when ["z"] is merged first [[1]] is found there and nothing is
    appended. *)
Lemma dict_merge_filtered_order_shared :
  Heap.reify 10 shared_store shared_a
    = Some (VDict [("k", VList [VInt 1]); ("z", VList [VList [VInt 1]])]) /\
  Heap.reify 10 shared_store shared_b
    = Some (VDict [("k", VList [VInt 2]); ("z", VList [VList [VInt 1]])]) /\
  Heap.reify 10 shared_store shared_b_reordered
    = Some (VDict [("z", VList [VList [VInt 1]]); ("k", VList [VInt 2])]) /\
  (exists r h',
     Heap.dict_merge 10 [shared_a; shared_b] false shared_store = Some (Ok r, h') /\
     Heap.reify 10 h' r
       = Some (VDict [("k", VList [VInt 1; VInt 2]);
                      ("z", VList [VList [VInt 1; VInt 2]; VList [VInt 1]])])) /\
  (exists r h',
     Heap.dict_merge 10 [shared_a; shared_b_reordered] false shared_store
       = Some (Ok r, h') /\
     Heap.reify 10 h' r
       = Some (VDict [("k", VList [VInt 1; VInt 2]);
                      ("z", VList [VList [VInt 1; VInt 2]])])).
Proof.
  repeat split; try (do 2 eexists; split); vm_compute; reflexivity.
Qed.

(** *** The older copy keeps the types *)

Lemma asset_merge_value_type (add_keys : bool) (old v x : value) :
  AssetScanner.merge_value add_keys old v = Ok x -> type_of x = type_of old.
Proof.
  destruct old, v; simpl; try discriminate;
    try (intros [= <-]; reflexivity).
  intros H. apply bind_ok in H as (r & _ & [= <-]). reflexivity.
Qed.

(** In the [asset_scanner] copy a truthy value never changes its type: a
    merge that succeeds leaves under the key a value of the very type it
    had. *)
Theorem asset_scanner_keeps_types (add_keys : bool) (rtn layer r : dict)
    (k : string) (old : value) :
  NoDup (keys layer) ->
  dict_get k rtn = Some old -> truthy old = true ->
  AssetScanner.dict_merge [rtn; layer] add_keys = Ok r ->
  exists x, dict_get k r = Some x /\ type_of x = type_of old.
Proof.
  intros Hnd Hold Ht Hm.
  assert (Hm' : merge_items (AssetScanner.merge_value add_keys)
                  (key_filter add_keys rtn) rtn layer = Ok r).
  { unfold AssetScanner.dict_merge, AssetScanner.merge_layers,
      AssetScanner.merge_layer in Hm.
    destruct (merge_items _ _ rtn layer); simpl in Hm; congruence. }
  pose proof (merge_items_get _ _ layer rtn r Hnd Hm' k) as G.
  rewrite (key_filter_present add_keys rtn k old Hold), Hold in G.
  destruct (dict_get k layer) as [v|]; simpl in G.
  - rewrite Ht in G.
    destruct (AssetScanner.merge_value add_keys old v) as [x|e] eqn:E;
      simpl in G; [|discriminate].
    exists x. split; [congruence|]. eapply asset_merge_value_type; eauto.
  - exists old. split; [congruence | reflexivity].
Qed.

Lemma asset_scanner_keeps_types_witness :
  AssetScanner.dict_merge [layer_a; layer_b] true = Ok merged_ab /\
  exists x, dict_get "x" merged_ab = Some x /\ type_of x = TList.
Proof.
  split; [reflexivity|].
  apply (asset_scanner_keeps_types true layer_a layer_b merged_ab "x" (VList [VInt 1]));
    try reflexivity.
  repeat constructor; simpl; intuition discriminate.
Defined.

(** The later copy does not: an [int] gives way to a [bool], and a scalar
    to a list that holds it. *)
Lemma dict_merge_changes_types :
  dict_merge [[("x", VInt 1); ("y", VStr "a")];
              [("x", VBool true); ("y", VList [VStr "a"; VStr "b"])]] true
  = Ok [("x", VBool true); ("y", VList [VStr "a"; VStr "b"])].
Proof. reflexivity. Qed.

(** ** More about [dot2dict] and [nested_get] *)

Lemma split_segments_dot_free (s : string) :
  Forall (fun seg => dot_free seg = true) (split dot s).
Proof.
  induction s as [|c s IH]; simpl; [repeat constructor|].
  destruct (Ascii.eqb c dot) eqn:E; [constructor; [reflexivity | assumption]|].
  destruct (split dot s) as [|seg segs]; [repeat constructor; simpl; now rewrite E|].
  inversion IH; subst. constructor; [simpl; now rewrite E | assumption].
Qed.

Lemma strip_leading_empty_snoc (rest : list string) (s : string) :
  rest <> [] ->
  strip_leading_empty (rest ++ [s]) = strip_leading_empty rest ++ [s].
Proof. destruct rest as [|[|c r] rest]; [congruence | reflexivity..]. Qed.

Lemma dot2dict_segments (segments : list string) (val : value) :
  segments <> [] -> Forall (fun s => dot_free s = true) segments ->
  dot2dict (join "." segments) val
  = single_branch (strip_leading_empty segments) val.
Proof.
  revert val. induction segments as [|s rest IH] using rev_ind; [congruence|].
  intros val _ Hfree.
  assert (Hsplit : split dot (join "." (rest ++ [s])) = rest ++ [s])
    by (apply split_join; [now destruct rest | assumption]).
  apply Forall_app in Hfree as [Hrest Hs].
  destruct (join "." (rest ++ [s])) as [|c key] eqn:Ekey.
  - simpl in Hsplit.
    destruct rest as [|r [|r' rest']]; try discriminate.
    injection Hsplit as <-. simpl. now rewrite dot2dict_equation_1.
  - rewrite dot2dict_nonempty by discriminate.
    rewrite Hsplit. unfold pop. simpl fst. simpl snd.
    rewrite last_last, removelast_last.
    destruct rest as [|r rest'].
    + simpl. rewrite dot2dict_equation_1.
      simpl in Ekey. unfold join in Ekey. simpl in Ekey. subst s. reflexivity.
    + rewrite IH by (try discriminate; assumption).
      rewrite strip_leading_empty_snoc by discriminate.
      now rewrite single_branch_snoc.
Qed.

(** [dot2dict] in closed form, for every key: the single branch along
    [key.split(".")], an empty first segment being dropped.  So [""] gives
    the value itself, [".a"] gives [{"a": val}], ["a..b"] has an empty key
    in the middle; and for a key that is not empty the result is a
    dictionary with one entry. *)
Theorem dot2dict_closed_form (key : string) (val : value) :
  dot2dict key val = single_branch (strip_leading_empty (split dot key)) val /\
  (key <> EmptyString -> exists k v, dot2dict key val = VDict [(k, v)]).
Proof.
  assert (H : dot2dict key val
              = single_branch (strip_leading_empty (split dot key)) val).
  { rewrite <- (join_split dot key) at 1.
    apply dot2dict_segments; [apply split_not_nil | apply split_segments_dot_free]. }
  split; [exact H|]. intros Hkey. rewrite H.
  pose proof (join_split dot key) as Hj.
  destruct (split dot key) as [|[|c s] [|s' rest]] eqn:E; simpl; eauto.
  - now apply split_not_nil in E.
  - simpl in Hj. congruence.
Qed.

(** *** Two dotted keys under one prefix *)

Lemma single_branch_merge (p : list string) (x y : string) (v w : value) :
  x <> y ->
  merge_value true (single_branch p (VDict [(x, v)])) (single_branch p (VDict [(y, w)]))
  = Ok (single_branch p (VDict [(x, v); (y, w)])).
Proof.
  intros Hxy. induction p as [|s p IH].
  - simpl. destruct (String.eqb_spec y x) as [E|_]; [congruence | reflexivity].
  - simpl single_branch. rewrite merge_value_cases. cbn [merge_cases].
    unfold merge_layer. rewrite merge_items_cons. cbn [key_filter orb].
    simpl dict_get. rewrite String.eqb_refl. cbn [merge_entry].
    assert (Ht : truthy (single_branch p (VDict [(x, v)])) = true)
      by (destruct p; reflexivity).
    rewrite Ht, IH. simpl. now rewrite String.eqb_refl.
Qed.

Lemma nested_get_by_position_branch (p : list string) (k : string) (d : dict) :
  nested_get_by_position (p ++ [k]) (single_branch p (VDict d))
  = Ok (match dict_get k d with Some v => v | None => VNone end).
Proof.
  induction p as [|s p IH]; [reflexivity|].
  change ((s :: p) ++ [k]) with (s :: (p ++ [k])).
  rewrite nested_get_by_position_cons by now destruct p.
  simpl single_branch. simpl py_get. rewrite String.eqb_refl. simpl bind.
  exact IH.
Qed.

(** Two dotted keys with the same prefix, turned into dictionaries by
    [dot2dict] and merged, give one branch with both leaves, and
    [nested_get] reads both values back. *)
Theorem dot2dict_merge_nested_get (p : list string) (x y : string) (v w : value) :
  Forall (fun s => segment s = true) (p ++ [x]) -> segment y = true ->
  x <> y -> ~ In x p -> ~ In y p ->
  exists d1 d2 r,
    dot2dict (join "." (p ++ [x])) v = VDict d1 /\
    dot2dict (join "." (p ++ [y])) w = VDict d2 /\
    dict_merge [d1; d2] true = Ok r /\
    VDict r = single_branch p (VDict [(x, v); (y, w)]) /\
    nested_get (p ++ [x]) r = Ok v /\
    nested_get (p ++ [y]) r = Ok w.
Proof.
  intros Hpx Hy Hxy Hx Hyp.
  assert (Hpy : Forall (fun s => segment s = true) (p ++ [y])).
  { apply Forall_app in Hpx as [Hpp _]. apply Forall_app. split; [assumption|].
    now constructor. }
  rewrite !dot2dict_single_branch by (try assumption; now destruct p).
  rewrite !single_branch_snoc.
  pose proof (single_branch_merge p x y v w Hxy) as Hm.
  destruct p as [|s p].
  { exists [(x, v)], [(y, w)], [(x, v); (y, w)].
    unfold dict_merge, merge_layers, merge_layer, nested_get. simpl.
    destruct (String.eqb_spec y x) as [E|_]; [congruence|].
    rewrite !String.eqb_refl. simpl.
    repeat split. }
  simpl single_branch in *.
  rewrite merge_value_cases in Hm. cbn [merge_cases] in Hm.
  destruct (merge_layer true [(s, single_branch p (VDict [(x, v)]))]
              [(s, single_branch p (VDict [(y, w)]))]) as [r|e] eqn:E;
    [|discriminate].
  simpl in Hm. injection Hm as Hr.
  exists [(s, single_branch p (VDict [(x, v)]))],
         [(s, single_branch p (VDict [(y, w)]))], r.
  repeat split; try reflexivity.
  - now rewrite dict_merge_two.
  - now rewrite Hr.
  - rewrite nested_get_fresh_last_key by assumption.
    rewrite Hr.
    change (VDict [(s, single_branch p (VDict [(x, v); (y, w)]))])
      with (single_branch (s :: p) (VDict [(x, v); (y, w)])).
    rewrite nested_get_by_position_branch. simpl. now rewrite String.eqb_refl.
  - rewrite nested_get_fresh_last_key by assumption.
    rewrite Hr.
    change (VDict [(s, single_branch p (VDict [(x, v); (y, w)]))])
      with (single_branch (s :: p) (VDict [(x, v); (y, w)])).
    rewrite nested_get_by_position_branch. simpl.
    destruct (String.eqb_spec y x) as [E'|_]; [congruence|].
    now rewrite String.eqb_refl.
Qed.

Lemma dot2dict_merge_nested_get_witness :
  exists d1 d2 r,
    dot2dict "properties.start" (VInt 1) = VDict d1 /\
    dot2dict "properties.end" (VInt 2) = VDict d2 /\
    dict_merge [d1; d2] true = Ok r /\
    VDict r = VDict [("properties", VDict [("start", VInt 1); ("end", VInt 2)])] /\
    nested_get ["properties"; "start"] r = Ok (VInt 1) /\
    nested_get ["properties"; "end"] r = Ok (VInt 2).
Proof.
  apply (dot2dict_merge_nested_get ["properties"] "start" "end" (VInt 1) (VInt 2)).
  - repeat constructor.
  - reflexivity.
  - discriminate.
  - simpl. intuition discriminate.
  - simpl. intuition discriminate.
Defined.

(** *** What [nested_get] does with keys that are missing *)

Lemma nested_get_loop_empty (last_key : string) (key_list : list string) :
  nested_get_loop last_key key_list (VDict []) = Ok VNone.
Proof.
  induction key_list as [|k ks IH]; [reflexivity|]. simpl.
  destruct (String.eqb k last_key); simpl; [reflexivity | exact IH].
Qed.

(** A first key that the dictionary does not have gives [None], whatever
    the rest of the path is: no [KeyError]. *)
Theorem nested_get_missing_first_key (key : string) (rest : list string)
    (input_dict : dict) :
  dict_get key input_dict = None ->
  nested_get (key :: rest) input_dict = Ok VNone.
Proof.
  intros Hget. unfold nested_get.
  destruct (last_item (key :: rest)) as [last_key|e] eqn:E.
  - simpl. rewrite Hget.
    destruct (String.eqb key last_key); simpl; [reflexivity|].
    apply nested_get_loop_empty.
  - unfold last_item in E. simpl in E.
    destruct (rev rest ++ [key]) eqn:E'; [|discriminate].
    now apply app_eq_nil in E' as [_ E'].
Qed.

Lemma nested_get_missing_first_key_witness :
  nested_get ["a"; "b"; "a"; "c"] [("x", VInt 1)] = Ok VNone.
Proof. apply nested_get_missing_first_key. reflexivity. Defined.

Lemma last_item_cons (key : string) (rest : list string) :
  exists last_key, last_item (key :: rest) = Ok last_key /\
                   last_key = last (key :: rest) key.
Proof.
  revert key. induction rest as [|k ks IH] using rev_ind; intros key.
  - exists key. split; reflexivity.
  - exists k. split.
    + change (key :: ks ++ [k]) with ((key :: ks) ++ [k]). apply last_item_snoc.
    + change (key :: ks ++ [k]) with ((key :: ks) ++ [k]). now rewrite last_last.
Qed.

Lemma last_default {A} (l : list A) (d d' : A) : l <> [] -> last l d = last l d'.
Proof.
  induction l as [|x [|y l] IH]; [congruence | reflexivity|].
  intros _. change (last (y :: l) d = last (y :: l) d'). apply IH. discriminate.
Qed.

(** One step of [nested_get]: a first key equal to the last key of the
    path ends the walk at once, with [input_dict.get(key)], whatever lies
    between; any other first key that leads to a dictionary is followed. *)
Theorem nested_get_step (key : string) (rest : list string) (input_dict : dict) :
  (last rest key = key ->
   nested_get (key :: rest) input_dict
   = Ok (match dict_get key input_dict with Some v => v | None => VNone end)) /\
  (last rest key <> key ->
   forall d, dict_get key input_dict = Some (VDict d) ->
             nested_get (key :: rest) input_dict = nested_get rest d).
Proof.
  destruct (last_item_cons key rest) as (last_key & Hl & Hlast).
  assert (Hlk : last_key = last rest key).
  { rewrite Hlast. destruct rest; reflexivity. }
  split.
  - intros E. unfold nested_get. rewrite Hl. cbn [bind]. simpl nested_get_loop.
    rewrite Hlk, E, String.eqb_refl. reflexivity.
  - intros Hne d Hget.
    unfold nested_get at 1. rewrite Hl. cbn [bind]. simpl nested_get_loop.
    destruct (String.eqb_spec key last_key) as [E|_]; [congruence|].
    simpl. rewrite Hget. simpl.
    destruct rest as [|k ks]; [simpl in Hne; congruence|].
    unfold nested_get. destruct (last_item_cons k ks) as (lk & Hl' & Hlast').
    rewrite Hl'. cbn [bind].
    replace lk with last_key; [reflexivity|].
    rewrite Hlk, Hlast'. apply last_default. discriminate.
Qed.

(** A value on the way that is not a mapping ([None] and scalars included)
    has no [get]: the call raises [AttributeError]. *)
Theorem nested_get_through_non_mapping (key : string) (rest : list string)
    (input_dict : dict) (v : value) :
  dict_get key input_dict = Some v -> type_of v <> TDict ->
  rest <> [] -> last rest key <> key ->
  nested_get (key :: rest) input_dict = Raise AttributeError.
Proof.
  intros Hget Hv Hrest Hlast. unfold nested_get.
  destruct (last_item_cons key rest) as (last_key & -> & Hl). simpl bind.
  assert (Hne : last_key <> key).
  { rewrite Hl. destruct rest as [|k ks]; [congruence|]. exact Hlast. }
  simpl. destruct (String.eqb_spec key last_key) as [E|_]; [congruence|].
  simpl. rewrite Hget. simpl.
  destruct rest as [|k ks]; [congruence|]. simpl.
  destruct v; simpl in Hv; try congruence;
    destruct (String.eqb k last_key); reflexivity.
Qed.

Lemma nested_get_through_non_mapping_witness :
  nested_get ["a"; "b"] [("a", VNone)] = Raise AttributeError.
Proof.
  apply (nested_get_through_non_mapping "a" ["b"] [("a", VNone)] VNone);
    try reflexivity; discriminate.
Defined.

Lemma nested_get_loop_raise (last_key : string) (key_list : list string) :
  forall source e,
    nested_get_loop last_key key_list source = Raise e -> e = AttributeError.
Proof.
  induction key_list as [|k ks IH]; intros source e H; [discriminate|].
  simpl in H. destruct (String.eqb k last_key); simpl in H.
  - destruct source; simpl in H; congruence.
  - apply bind_raise in H as [H|(d & _ & H)]; [|eauto].
    destruct source; simpl in H; congruence.
Qed.



(** ** More about [load_plugins] *)

Section LoadPluginsFailures.
Variable instance : Type.
Variable failure : Type.
Variable get_processor : string -> dict -> instance + failure.

Lemma load_loop_app (entry_point : string) (specs : list dict) (rest : list value)
    (loaded : list instance) (log : list (diagnostic failure)) :
  Forall has_name specs ->
  load_loop instance failure get_processor entry_point (map VDict specs ++ rest)
    loaded log
  = load_loop instance failure get_processor entry_point rest
      (loaded ++ instances_of instance failure get_processor entry_point specs)
      (log ++ map diagnostic_of
                (failures_of instance failure get_processor entry_point specs)).
Proof.
  revert loaded log. induction specs as [|kwargs specs IH]; intros loaded log H.
  - simpl. now rewrite !app_nil_r.
  - inversion H as [|? ? Hname Hrest]; subst. simpl.
    destruct (get_processor entry_point kwargs) as [p|e].
    + rewrite IH by assumption. now rewrite <- app_assoc.
    + unfold has_name in Hname.
      destruct (dict_get "name" kwargs) as [name|] eqn:E; [|congruence].
      rewrite IH by assumption. simpl. rewrite <- app_assoc.
      unfold diagnostic_of, name_of. simpl. now rewrite E.
Qed.

(** A rejected spec that has no ["name"] is fatal: the handler raises
    [KeyError] while it builds its message, the specs after it are not
    tried and the plugins loaded so far are lost. *)
Theorem load_plugins_nameless_failure (conf : dict) (entry_point conf_section : string)
    (before after : list dict) (bad : dict) (e : failure) :
  dict_get conf_section conf = Some (VList (map VDict (before ++ bad :: after))) ->
  Forall has_name before ->
  get_processor entry_point bad = inr e ->
  dict_get "name" bad = None ->
  load_plugins instance failure get_processor conf entry_point conf_section
  = (Raise KeyError,
     map diagnostic_of (failures_of instance failure get_processor entry_point before)).
Proof.
  intros Hsec Hnames Hbad Hname. unfold load_plugins. rewrite Hsec.
  simpl iterate. cbv iota. rewrite map_app.
  rewrite (load_loop_app entry_point before _ [] [] Hnames).
  simpl. now rewrite Hbad, Hname.
Qed.

(** A section that is missing raises [KeyError]; a section that is not a
    list is iterated all the same: [None] and numbers are not iterable, the
    characters of a string and the keys of a mapping are not plugin specs
    and raise [TypeError] from the handler; only an empty string, list or
    mapping reaches [NoPluginsError]. *)
Theorem load_plugins_malformed_section (conf : dict) (entry_point conf_section : string) :
  let outcome := load_plugins instance failure get_processor conf entry_point
                   conf_section in
  match dict_get conf_section conf with
  | None => outcome = (Raise KeyError, [])
  | Some (VList []) | Some (VStr EmptyString) | Some (VDict []) =>
      outcome = (Raise (NoPluginsError (no_plugins_message conf_section)), [])
  | Some (VList (VDict _ :: _)) => True
  | Some _ => outcome = (Raise TypeError, [])
  end.
Proof.
  unfold load_plugins.
  destruct (dict_get conf_section conf) as [[| b | z | s | l | d]|]; simpl;
    try reflexivity.
  - destruct s; reflexivity.
  - destruct l as [|[| b | z | s | l' | d'] l]; simpl; auto.
  - destruct d as [|[k v] d]; reflexivity.
Qed.
End LoadPluginsFailures.

Lemma load_plugins_nameless_failure_witness :
  load_plugins string string sample_get_processor
    [("extractors", VList (map VDict
        ([[("name", VStr "regex")]; [("name", VStr "unregistered")]]
         ++ [("method", VStr "regex")] :: [[("name", VStr "header")]])))]
    "entry" "extractors"
  = (Raise KeyError, [Diagnostic (VStr "unregistered") "plugin not found"]).
Proof.
  apply (load_plugins_nameless_failure string string sample_get_processor
           _ "entry" "extractors"
           [[("name", VStr "regex")]; [("name", VStr "unregistered")]]
           [[("name", VStr "header")]] [("method", VStr "regex")] "plugin not found").
  - reflexivity.
  - repeat constructor; discriminate.
  - reflexivity.
  - reflexivity.
Defined.

(** ** [Coordinates] *)

Section CoordinatesProperties.
Variable num : Type.

(** Exporting and importing again gives the same coordinates, in both
    formats. *)
Theorem coordinates_export_import (c : Coordinates num) :
  from_wgs84 (to_wgs84 c) = Ok c /\ from_geojson (to_geojson c) = Ok c.
Proof. destruct c; split; reflexivity. Qed.

(** [from_wgs84] reads the first four numbers and ignores what follows; a
    shorter list raises [IndexError].  So a list survives the round trip
    exactly when it has four elements. *)
Theorem from_wgs84_first_four (coordinates : list num) :
  (List.length coordinates < 4 -> from_wgs84 coordinates = Raise IndexError) /\
  (4 <= List.length coordinates ->
   exists c, from_wgs84 coordinates = Ok c /\
             to_wgs84 c = firstn 4 coordinates) /\
  (forall c, from_wgs84 coordinates = Ok c ->
             (to_wgs84 c = coordinates <-> List.length coordinates = 4)).
Proof.
  destruct coordinates as [|a [|b [|c [|d rest]]]]; simpl;
    (split; [|split]); try lia; try reflexivity; try discriminate.
  - intros _. eexists. split; reflexivity.
  - intros k [= <-]. unfold to_wgs84. simpl. split.
    + intros [= <-]. reflexivity.
    + intros H. destruct rest; [reflexivity | simpl in H; lia].
Qed.

(** [from_geojson] needs two rows of two numbers at least, reads
    [minLon, maxLat] from the first and [maxLon, minLat] from the second, and
    ignores the rest. *)
Theorem from_geojson_two_rows (coordinates : list (list num)) :
  match coordinates with
  | (a :: b :: _) :: (c :: d :: _) :: _ =>
      from_geojson coordinates = Ok (MkCoordinates a c d b) /\
      bind (from_geojson coordinates) (fun k => Ok (to_geojson k))
      = Ok [[a; b]; [c; d]]
  | _ => from_geojson coordinates = Raise IndexError
  end.
Proof.
  destruct coordinates as [|[|a [|b r0]] [|[|c [|d r1]] rest]]; simpl;
    try reflexivity; split; reflexivity.
Qed.

(** The two formats describe the same box: a WGS84 list of four numbers
    converted to GeoJSON and back is the list itself, and
    [[a, b, c, d]] corresponds to [[[a, d], [c, b]]]. *)
Theorem wgs84_geojson_wgs84 (a b c d : num) :
  (k <- from_wgs84 [a; b; c; d] ;; Ok (to_geojson k)) = Ok [[a; d]; [c; b]] /\
  (k <- from_geojson [[a; d]; [c; b]] ;; Ok (to_wgs84 k)) = Ok [a; b; c; d].
Proof. split; reflexivity. Qed.
End CoordinatesProperties.

Lemma from_wgs84_first_four_witness :
  exists c, from_wgs84 [1; 2; 3; 4; 5; 6]%Z = Ok c /\ to_wgs84 c = [1; 2; 3; 4]%Z.
Proof.
  apply (from_wgs84_first_four Z [1; 2; 3; 4; 5; 6]%Z). simpl. lia.
Defined.

(** ** [Stats.from_boto] *)

(** On a mapping [from_boto] never fails; the result has the four keys
    [size], [last_modified], [content_type], [Etag] in this order, each with
    the value that the response has under [ContentLength], [LastModified],
    [ContentType], [Etag] or [None], and depends on nothing else in the
    response (the key is spelled ["Etag"]: an ["ETag"] entry is not read). *)
Theorem from_boto_four_keys (s3 s3' : dict) :
  (exists d, Stats.from_boto (VDict s3) = Ok (VDict d) /\
             keys d = ["size"; "last_modified"; "content_type"; "Etag"] /\
             dict_get "size" d
               = Some (match dict_get "ContentLength" s3 with
                       | Some v => v
                       | None => VNone
                       end) /\
             dict_get "last_modified" d
               = Some (match dict_get "LastModified" s3 with
                       | Some v => v
                       | None => VNone
                       end) /\
             dict_get "content_type" d
               = Some (match dict_get "ContentType" s3 with
                       | Some v => v
                       | None => VNone
                       end) /\
             dict_get "Etag" d
               = Some (match dict_get "Etag" s3 with
                       | Some v => v
                       | None => VNone
                       end)) /\
  ((forall k, In k boto_keys -> dict_get k s3 = dict_get k s3') ->
   Stats.from_boto (VDict s3) = Stats.from_boto (VDict s3')).
Proof.
  split.
  - eexists. repeat split.
  - intros H. unfold Stats.from_boto. simpl.
    rewrite (H "ContentLength"), (H "LastModified"), (H "ContentType"), (H "Etag");
      simpl; auto 6.
Qed.

(** ** [is_remote_uri] *)

(** *** Matching by derivatives *)

Lemma append_empty (x y : string) :
  (x ++ y)%string = EmptyString -> x = EmptyString /\ y = EmptyString.
Proof. destruct x; [simpl; auto | discriminate]. Qed.

Lemma append_assoc (x y z : string) :
  ((x ++ y) ++ z)%string = (x ++ (y ++ z))%string.
Proof. induction x as [|c x IH]; simpl; [reflexivity | now rewrite IH]. Qed.

Lemma append_empty_r (x : string) : (x ++ EmptyString)%string = x.
Proof. induction x as [|c x IH]; simpl; [reflexivity | now rewrite IH]. Qed.

Lemma nullable_matches (r : regex) : nullable r = true <-> matches r EmptyString.
Proof.
  split.
  - induction r as [| | p | r IHr s IHs | r IHr s IHs | r IHr]; simpl; intros H;
      try discriminate.
    + constructor.
    + apply andb_true_iff in H as [Hr Hs].
      change EmptyString with (EmptyString ++ EmptyString)%string.
      constructor; auto.
    + apply orb_true_iff in H as [H|H];
        [apply matches_alt_l | apply matches_alt_r]; auto.
    + constructor.
  - intros H. remember EmptyString as e eqn:E.
    induction H as [| p c Hp | r s x y Hr IHr Hs IHs | r s x Hr IHr | r s x Hs IHs
                    | r | r x y Hr IHr Hs IHs]; simpl; try reflexivity.
    + discriminate.
    + apply append_empty in E as [-> ->]. now rewrite IHr, IHs.
    + now rewrite IHr.
    + rewrite IHs by assumption. apply orb_true_r.
Qed.

Lemma derivative_sound (c : ascii) (r : regex) :
  forall s, matches (derivative c r) s -> matches r (String c s).
Proof.
  induction r as [| | p | r IHr s IHs | r IHr s IHs | r IHr]; simpl; intros t H.
  - inversion H.
  - inversion H.
  - destruct (p c) eqn:E; inversion H; subst. now constructor.
  - destruct (nullable r) eqn:N.
    + inversion H as [| | | ? ? ? H1 | ? ? ? H2 | |]; subst.
      * inversion H1 as [| | ? ? x y Hx Hy | | | |]; subst.
        change (String c (x ++ y)) with (String c x ++ y)%string.
        constructor; auto.
      * change (String c t) with (EmptyString ++ String c t)%string.
        constructor; [now apply nullable_matches | auto].
    + inversion H as [| | ? ? x y Hx Hy | | | |]; subst.
      change (String c (x ++ y)) with (String c x ++ y)%string.
      constructor; auto.
  - inversion H; subst; [apply matches_alt_l | apply matches_alt_r]; auto.
  - inversion H as [| | ? ? x y Hx Hy | | | |]; subst.
    change (String c (x ++ y)) with (String c x ++ y)%string.
    constructor; auto.
Qed.

Lemma derivative_complete (c : ascii) (r : regex) (s : string) :
  matches r (String c s) -> matches (derivative c r) s.
Proof.
  intros H. remember (String c s) as t eqn:E. revert s E.
  induction H as [| p c0 Hp | r s x y Hr IHr Hs IHs | r s x Hr IHr | r s x Hs IHs
                  | r | r x y Hr IHr Hs IHs]; intros t E; simpl.
  - discriminate.
  - injection E as -> <-. rewrite Hp. constructor.
  - destruct x as [|c1 x].
    + simpl in E. subst y. apply nullable_matches in Hr. rewrite Hr.
      apply matches_alt_r. now apply IHs.
    + simpl in E. injection E as -> <-.
      assert (H1 : matches (Seq (derivative c r) s) (x ++ y))
        by (constructor; [now apply IHr | assumption]).
      destruct (nullable r); [now apply matches_alt_l | assumption].
  - apply matches_alt_l. now apply IHr.
  - apply matches_alt_r. now apply IHs.
  - discriminate.
  - destruct x as [|c1 x].
    + simpl in E. now apply IHs.
    + simpl in E. injection E as -> <-.
      constructor; [now apply IHr | assumption].
Qed.

Lemma search_at_start_matches (r : regex) (s : string) :
  search_at_start r s = true <->
  exists prefix rest, s = (prefix ++ rest)%string /\ matches r prefix.
Proof.
  revert r. induction s as [|c s IH]; intros r; simpl.
  - rewrite orb_false_r, nullable_matches. split.
    + intros H. exists EmptyString, EmptyString. auto.
    + intros (p & q & E & H). symmetry in E. apply append_empty in E as [-> _].
      assumption.
  - rewrite orb_true_iff, nullable_matches, IH. split.
    + intros [H|(p & q & -> & H)].
      * exists EmptyString, (String c s). auto.
      * exists (String c p), q. split; [reflexivity | now apply derivative_sound].
    + intros ([|c' p] & q & E & H); [now left|].
      simpl in E. injection E as <- ->. right.
      exists p, q. split; [reflexivity | now apply derivative_complete].
Qed.

Lemma matches_literal (t y : string) : matches (literal t) y <-> y = t.
Proof.
  revert y. induction t as [|c t IH]; intros y; simpl.
  - split; [intros H; now inversion H | intros ->; constructor].
  - split.
    + intros H. inversion H as [| | ? ? x z Hx Hz | | | |]; subst.
      inversion Hx as [| ? c' Hc | | | | |]; subst.
      apply Ascii.eqb_eq in Hc. subst c'. simpl. f_equal. now apply IH.
    + intros ->. change (String c t) with (String c EmptyString ++ t)%string.
      constructor; [constructor; apply Ascii.eqb_refl | now apply IH].
Qed.

Lemma matches_star_chars (p : ascii -> bool) (y : string) :
  matches (Star (Chars p)) y <-> all_chars p y = true.
Proof.
  split.
  - intros H. remember (Star (Chars p)) as r eqn:E.
    induction H as [| | | | | r | r x y Hr _ Hs IHs]; try discriminate.
    + reflexivity.
    + injection E as ->. inversion Hr; subst. simpl.
      rewrite IHs by reflexivity. now rewrite andb_true_r.
  - induction y as [|c y IH]; simpl; intros H; [constructor|].
    apply andb_true_iff in H as [Hc Hy].
    change (String c y) with (String c EmptyString ++ y)%string.
    constructor; [now constructor | auto].
Qed.

(** *** The paths that are remote *)

Lemma matches_remote_uri_pattern (prefix : string) :
  matches remote_uri_pattern prefix <->
  exists c scheme sep,
    prefix = String c (scheme ++ sep) /\
    scheme_start c = true /\ all_chars scheme_char scheme = true /\
    (sep = "://" \/ sep = "::").
Proof.
  unfold remote_uri_pattern. split.
  - intros H.
    inversion H as [| | ? ? x y Hx Hy | | | |]; subst.
    inversion Hx as [| ? c Hc | | | | |]; subst.
    inversion Hy as [| | ? ? scheme sep Hscheme Hsep | | | |]; subst.
    apply matches_star_chars in Hscheme.
    exists c, scheme, sep. repeat split; try assumption.
    inversion Hsep; subst; [left | right]; now apply matches_literal.
  - intros (c & scheme & sep & -> & Hc & Hscheme & Hsep).
    change (String c (scheme ++ sep))
      with (String c EmptyString ++ (scheme ++ sep))%string.
    constructor; [now constructor|].
    constructor; [now apply matches_star_chars|].
    destruct Hsep as [-> | ->];
      [apply matches_alt_l | apply matches_alt_r]; now apply matches_literal.
Qed.

(** [is_remote_uri] holds exactly for the paths that start with a scheme (a
    lowercase ASCII letter, then lowercase letters and digits) followed by
    [://] or [::]. *)
Theorem is_remote_uri_iff (path : string) :
  is_remote_uri path = true <->
  exists c scheme sep rest,
    path = String c (scheme ++ sep ++ rest) /\
    scheme_start c = true /\ all_chars scheme_char scheme = true /\
    (sep = "://" \/ sep = "::").
Proof.
  unfold is_remote_uri. rewrite search_at_start_matches. split.
  - intros (p & rest & -> & H).
    apply matches_remote_uri_pattern in H as (c & scheme & sep & -> & H).
    exists c, scheme, sep, rest. split; [|exact H].
    simpl. now rewrite append_assoc.
  - intros (c & scheme & sep & rest & -> & H).
    exists (String c (scheme ++ sep)), rest. split.
    + simpl. now rewrite append_assoc.
    + apply matches_remote_uri_pattern. exists c, scheme, sep. auto.
Qed.

(** Only a prefix of the path is looked at: what follows a remote prefix
    does not matter. *)
Theorem is_remote_uri_prefix (path more : string) :
  is_remote_uri path = true -> is_remote_uri (path ++ more) = true.
Proof.
  unfold is_remote_uri. rewrite !search_at_start_matches.
  intros (p & rest & -> & H). exists p, (rest ++ more)%string.
  split; [apply append_assoc | assumption].
Qed.

Lemma is_remote_uri_prefix_witness :
  is_remote_uri "s3://bucket" = true /\ is_remote_uri ("s3://bucket" ++ "/key") = true.
Proof.
  split; [reflexivity|]. apply is_remote_uri_prefix. reflexivity.
Defined.

Lemma all_chars_append (p : ascii -> bool) (x y : string) :
  all_chars p (x ++ y) = all_chars p x && all_chars p y.
Proof.
  induction x as [|c x IH]; simpl; [reflexivity|].
  now rewrite IH, andb_assoc.
Qed.

(** A path is local when it has no colon, and when it starts with anything
    but a lowercase ASCII letter: the empty path, [/a/b], [./a], [C:\a] and
    [HTTP://a] are not remote. *)
Theorem is_remote_uri_local (path : string) :
  (all_chars (fun c => negb (Ascii.eqb c ":")) path = true ->
   is_remote_uri path = false) /\
  (match path with
   | EmptyString => True
   | String c _ => scheme_start c = false
   end -> is_remote_uri path = false).
Proof.
  split; intros H; destruct (is_remote_uri path) eqn:E; try reflexivity;
    unfold is_remote_uri in E; apply search_at_start_matches in E
      as (p & rest & -> & E);
    apply matches_remote_uri_pattern in E
      as (c & scheme & sep & -> & Hc & Hscheme & Hsep).
  - simpl in H. apply andb_true_iff in H as [_ H].
    rewrite !all_chars_append in H.
    apply andb_true_iff in H as [H _]. apply andb_true_iff in H as [_ H].
    destruct Hsep as [-> | ->]; discriminate.
  - simpl in H. congruence.
Qed.

Lemma is_remote_uri_local_witness :
  is_remote_uri "/data/file.nc" = false /\ is_remote_uri "HTTP://host/x" = false.
Proof.
  split.
  - apply (proj1 (is_remote_uri_local "/data/file.nc")). reflexivity.
  - apply (proj2 (is_remote_uri_local "HTTP://host/x")). reflexivity.
Defined.

(** ** [isoformat_date] *)

Section IsoformatDateProperties.
Variable strptime_isoformat : string -> string -> option string.
Variable parse_isoformat : string -> option string.

(** The flag is set exactly when a format that is not empty was given and
    [strptime] rejected the date; the date returned is then dateutil's, and
    otherwise that of the first parser; [LOGGER.error] is called exactly
    when no date is returned and [LOGGER.warning] exactly when the flag is
    set. *)
Theorem isoformat_date_outcomes (date_string : string) (format : option string) :
  let outcome := isoformat_date strptime_isoformat parse_isoformat date_string format in
  let output_date := fst (fst outcome) in
  let format_errors := snd (fst outcome) in
  let log := snd outcome in
  (format_errors = true <->
   exists f, format_given format = Some f /\ strptime_isoformat date_string f = None) /\
  output_date
  = (if format_errors then parse_isoformat date_string
     else match format_given format with
          | Some f => strptime_isoformat date_string f
          | None => parse_isoformat date_string
          end) /\
  (In ERROR log <-> output_date = None) /\
  (In WARNING log <-> format_errors = true).
Proof.
  unfold isoformat_date.
  destruct (format_given format) as [f|]; simpl.
  - destruct (strptime_isoformat date_string f) as [iso|] eqn:E; simpl.
    + repeat split; try discriminate; try tauto.
      intros (f' & [= <-] & H). congruence.
    + destruct (parse_isoformat date_string) as [iso|] eqn:P; simpl;
        repeat split; try discriminate; try tauto; eauto.
      intros [H|[]]; discriminate.
  - destruct (parse_isoformat date_string) as [iso|] eqn:P; simpl;
      repeat split; try discriminate; try tauto;
      try (intros (f' & H & _); discriminate).
    intros [H|[]]; discriminate.
Qed.

(** Of the four outcomes of the docstring, [(None, False)] needs a call
    without format, and an empty format string counts as none. *)
Theorem isoformat_date_without_format (date_string : string) :
  isoformat_date strptime_isoformat parse_isoformat date_string (Some EmptyString)
  = isoformat_date strptime_isoformat parse_isoformat date_string None /\
  forall format,
    fst (isoformat_date strptime_isoformat parse_isoformat date_string format)
    = (None, false) ->
    format_given format = None /\ parse_isoformat date_string = None.
Proof.
  split; [reflexivity|]. intros format. unfold isoformat_date.
  destruct (format_given format) as [f|]; simpl.
  - destruct (strptime_isoformat date_string f); simpl; [discriminate|].
    destruct (parse_isoformat date_string); simpl; discriminate.
  - destruct (parse_isoformat date_string); simpl; [discriminate | auto].
Qed.
End IsoformatDateProperties.

(** ** [CEDAObservationPreProcessor.run] *)

Import CEDAObservationPreProcessor.

Lemma split_last_prefix (sep : ascii) (s : string) :
  exists prefix,
    s = (prefix ++ last (split sep s) EmptyString)%string /\
    ((prefix = EmptyString /\ List.length (split sep s) = 1) \/
     (exists p, prefix = (p ++ String sep EmptyString)%string) /\
     2 <= List.length (split sep s)).
Proof.
  induction s as [|c s (prefix & Hs & Hp)]; simpl.
  - exists EmptyString. auto.
  - pose proof (split_not_nil sep s) as Hne.
    destruct (Ascii.eqb_spec c sep) as [->|Hc].
    + exists (String sep prefix). split.
      * simpl. rewrite Hs at 1. destruct (split sep s); [congruence | reflexivity].
      * right. split.
        -- destruct Hp as [[-> _]|[(p & ->) _]];
             [exists EmptyString | exists (String sep p)]; reflexivity.
        -- simpl. destruct (split sep s); [congruence | simpl; lia].
    + destruct (split sep s) as [|seg segs] eqn:E; [congruence|].
      destruct Hp as [[-> Hlen]|[(p & ->) Hlen]].
      * destruct segs; [|simpl in Hlen; lia].
        exists EmptyString. simpl in *. split; [now rewrite Hs at 1 | auto].
      * destruct segs as [|seg' segs]; [simpl in Hlen; lia|].
        exists (String c (p ++ String sep EmptyString)). split.
        -- simpl. rewrite Hs at 1. reflexivity.
        -- right. split; [exists (String c p); reflexivity | simpl; lia].
Qed.

Lemma split_segments_free (sep : ascii) (s : string) :
  Forall (fun seg => all_chars (fun c => negb (Ascii.eqb c sep)) seg = true)
    (split sep s).
Proof.
  induction s as [|c s IH]; simpl; [repeat constructor|].
  destruct (Ascii.eqb c sep) eqn:E; [constructor; [reflexivity | assumption]|].
  destruct (split sep s) as [|seg segs]; [repeat constructor; simpl; now rewrite E|].
  inversion IH; subst. constructor; [simpl; now rewrite E | assumption].
Qed.

Lemma split_append_sep (sep : ascii) (s t : string) :
  split sep (s ++ String sep t) = split sep s ++ split sep t.
Proof.
  induction s as [|c s IH]; simpl.
  - now rewrite Ascii.eqb_refl.
  - destruct (Ascii.eqb c sep); rewrite IH; [reflexivity|].
    pose proof (split_not_nil sep s).
    destruct (split sep s); [congruence | reflexivity].
Qed.

(** The last segment has no slash, the URL ends with it, and what comes
    before it is nothing or ends with a slash; a URL with a slash at its end
    has the empty string as last segment. *)
Lemma last_segment_spec (url : string) :
  all_chars (fun c => negb (Ascii.eqb c "/")) (last_segment url) = true /\
  (exists prefix, url = (prefix ++ last_segment url)%string /\
                  (prefix = EmptyString \/
                   exists p, prefix = (p ++ "/")%string)) /\
  last_segment (url ++ "/") = EmptyString.
Proof.
  unfold last_segment. split; [|split].
  - pose proof (split_segments_free "/" url) as H.
    pose proof (split_not_nil "/" url) as Hne.
    rewrite Forall_forall in H. apply H.
    destruct (split "/" url) as [|seg segs] using rev_ind; [congruence|].
    rewrite last_last. apply in_or_app. right. now left.
  - destruct (split_last_prefix "/" url) as (prefix & Hs & Hp).
    exists prefix. split; [assumption|].
    destruct Hp as [[-> _]|[Hp _]]; auto.
  - rewrite split_append_sep. simpl. now rewrite last_last.
Qed.

Section CedaObservationProperties.
Variable failure : Type.
Variable substitute : string -> string -> failure + string.
Variable requests_get : string -> failure + response failure.

(** Whenever [run] returns, it returns the [uri] it was given, and keyword
    arguments that differ from those it was given at ["uuid"] at most. *)
Theorem run_changes_uuid_only (url_template uri : string) (kwargs : dict)
    (uri' : string) (kwargs' : dict) :
  run failure substitute requests_get url_template uri kwargs = Returns (uri', kwargs') ->
  uri' = uri /\
  (kwargs' = kwargs \/ exists uuid, kwargs' = dict_set "uuid" (VStr uuid) kwargs) /\
  forall k, k <> "uuid" -> dict_get k kwargs' = dict_get k kwargs.
Proof.
  unfold run.
  destruct (substitute url_template uri) as [f|url]; [discriminate|].
  destruct (requests_get url) as [f|r]; [discriminate|].
  assert (Hsame : Returns (failure := failure) (uri, kwargs) = Returns (uri', kwargs') ->
                  uri' = uri /\
                  (kwargs' = kwargs \/
                   exists uuid, kwargs' = dict_set "uuid" (VStr uuid) kwargs) /\
                  forall k, k <> "uuid" -> dict_get k kwargs' = dict_get k kwargs).
  { intros [= <- <-]. auto. }
  destruct (Z.eqb (status_code r) 200); [|exact Hsame].
  destruct (json r) as [f|body]; [discriminate|].
  destruct (py_get body "record_type" VNone) as [record_type|e]; [|discriminate].
  destruct (py_get body "url" VNone) as [u|e]; [|discriminate].
  destruct (py_eq record_type (VStr "Dataset") && truthy u); [|exact Hsame].
  destruct u; try discriminate.
  intros [= <- <-]. split; [reflexivity|]. split; [eauto|].
  intros k Hk. apply dict_get_set_other. congruence.
Qed.

(** For a response with status 200 that is a dataset record with a URL,
    [run] sets ["uuid"] to the last segment of the URL: it has no slash, the
    URL ends with it, and it is empty when the URL ends with a slash. *)
Theorem run_dataset_uuid (url_template uri url : string) (kwargs : dict)
    (r : response failure) (body : dict) (record_url : string) :
  substitute url_template uri = inr url ->
  requests_get url = inr r ->
  status_code r = 200%Z -> json r = inr (VDict body) ->
  dict_get "record_type" body = Some (VStr "Dataset") ->
  dict_get "url" body = Some (VStr record_url) -> record_url <> EmptyString ->
  exists uuid,
    run failure substitute requests_get url_template uri kwargs
    = Returns (uri, dict_set "uuid" (VStr uuid) kwargs) /\
    all_chars (fun c => negb (Ascii.eqb c "/")) uuid = true /\
    (exists prefix, record_url = (prefix ++ uuid)%string /\
                    (prefix = EmptyString \/ exists p, prefix = (p ++ "/")%string)) /\
    ((exists p, record_url = (p ++ "/")%string) -> uuid = EmptyString).
Proof.
  intros Hs Hr Hstatus Hjson Htype Hurl Hne.
  exists (last_segment record_url).
  destruct (last_segment_spec record_url) as (Hfree & Hprefix & _).
  repeat split; try assumption.
  - unfold run. rewrite Hs, Hr, Hstatus, Hjson. simpl. rewrite Htype, Hurl. simpl.
    destruct record_url; [congruence | reflexivity].
  - intros (p & ->). apply last_segment_spec.
Qed.
End CedaObservationProperties.

Lemma run_changes_uuid_only_witness :
  run string sample_substitute sample_requests_get "http://api/info" "/data/b"
    [("uuid", VStr "old")]
  = Returns ("/data/b", [("uuid", VStr "old")]) /\
  "/data/b" = "/data/b".
Proof.
  split; [reflexivity|].
  apply (run_changes_uuid_only string sample_substitute sample_requests_get
           "http://api/info" "/data/b" [("uuid", VStr "old")] "/data/b"
           [("uuid", VStr "old")]).
  reflexivity.
Defined.

Lemma run_dataset_uuid_witness :
  exists uuid,
    run string sample_substitute sample_requests_get "http://api/info" "/data/a"
      [("collection", VStr "c")]
    = Returns ("/data/a", dict_set "uuid" (VStr uuid) [("collection", VStr "c")]) /\
    all_chars (fun c => negb (Ascii.eqb c "/")) uuid = true /\
    (exists prefix, "http://catalogue/uuid/abc123" = (prefix ++ uuid)%string /\
                    (prefix = EmptyString \/ exists p, prefix = (p ++ "/")%string)) /\
    ((exists p, "http://catalogue/uuid/abc123" = (p ++ "/")%string) ->
     uuid = EmptyString).
Proof.
  apply (run_dataset_uuid string sample_substitute sample_requests_get
           "http://api/info" "/data/a" "http://api/info/data/a"
           [("collection", VStr "c")]
           (Response 200 (inr (VDict [("record_type", VStr "Dataset");
                                      ("url", VStr "http://catalogue/uuid/abc123")])))
           [("record_type", VStr "Dataset");
            ("url", VStr "http://catalogue/uuid/abc123")]
           "http://catalogue/uuid/abc123");
    try reflexivity; discriminate.
Defined.

(** ** What [dict_merge] may change in the store *)

Lemma grown_refl (o : Heap.object) : grown o o.
Proof. destruct o; simpl; [exists []; now rewrite app_nil_r | reflexivity]. Qed.

Lemma grown_trans (o1 o2 o3 : Heap.object) :
  grown o1 o2 -> grown o2 o3 -> grown o1 o3.
Proof.
  destruct o1; simpl.
  - intros (m & ->) (m' & ->). exists (m ++ m'). now rewrite app_assoc.
  - intros -> H. exact H.
Qed.

Lemma grows_except_refl (l : Heap.ref) (h : Heap.heap) : grows_except l h h.
Proof. intros r o _ H. exists o. split; [assumption | apply grown_refl]. Qed.

Lemma grows_except_trans (l : Heap.ref) (h1 h2 h3 : Heap.heap) :
  grows_except l h1 h2 -> grows_except l h2 h3 -> grows_except l h1 h3.
Proof.
  intros H1 H2 r o Hr Ho.
  destruct (H1 r o Hr Ho) as (o' & Ho' & G).
  destruct (H2 r o' Hr Ho') as (o'' & Ho'' & G').
  exists o''. split; [assumption | eapply grown_trans; eauto].
Qed.

Lemma grows_grows_except (l : Heap.ref) (h h' : Heap.heap) :
  grows h h' -> grows_except l h h'.
Proof. intros H r o _. apply H. Qed.

Section Frames.
Variable l : Heap.ref.

Lemma frames_ret {A} (a : A) : frames (grows_except l) (Heap.ret a).
Proof. intros h res h' [= _ <-]. apply grows_except_refl. Qed.

Lemma frames_raise {A} (e : exn) : frames (grows_except l) (@Heap.raise A e).
Proof. intros h res h' [= _ <-]. apply grows_except_refl. Qed.

Lemma frames_stuck {A} : frames (grows_except l) (@Heap.stuck A).
Proof. intros h res h' H. discriminate. Qed.

Lemma frames_bind {A B} (m : Heap.M A) (f : A -> Heap.M B) :
  frames (grows_except l) m -> (forall a, frames (grows_except l) (f a)) ->
  frames (grows_except l) (Heap.mbind m f).
Proof.
  intros Hm Hf h res h' H. unfold Heap.mbind in H.
  destruct (m h) as [[[a|e] h1]|] eqn:E; [| |discriminate].
  - eapply grows_except_trans; [eapply Hm; eauto | eapply Hf; eauto].
  - injection H as <- <-. eapply Hm; eauto.
Qed.

Lemma frames_read (r : Heap.ref) : frames (grows_except l) (Heap.read r).
Proof.
  intros h res h' H. unfold Heap.read in H.
  destruct (nth_error h r); [|discriminate].
  injection H as _ <-. apply grows_except_refl.
Qed.

Lemma frames_get_dict (v : Heap.hvalue) : frames (grows_except l) (Heap.get_dict v).
Proof.
  destruct v; simpl; try apply frames_raise.
  apply frames_bind; [apply frames_read|].
  intros [items|items]; [apply frames_raise | apply frames_ret].
Qed.

Lemma frames_type_of (v : Heap.hvalue) : frames (grows_except l) (Heap.type_of v).
Proof.
  destruct v; simpl; try apply frames_ret.
  apply frames_bind; [apply frames_read|].
  intros [items|items]; apply frames_ret.
Qed.

Lemma frames_truthy (v : Heap.hvalue) : frames (grows_except l) (Heap.truthy v).
Proof.
  destruct v; simpl; try apply frames_ret.
  apply frames_bind; [apply frames_read|].
  intros [[|x items]|[|x items]]; apply frames_ret.
Qed.

Lemma frames_contains (fuel : nat) (x : Heap.hvalue) (r : Heap.ref) :
  frames (grows_except l) (Heap.contains fuel x r).
Proof.
  intros h res h' H. unfold Heap.contains in H.
  destruct (nth_error h r) as [[items|items]|]; try discriminate.
  destruct (Heap.any _ x items); [|discriminate].
  injection H as _ <-. apply grows_except_refl.
Qed.

Lemma frames_member_of (fuel : nat) (x v : Heap.hvalue) (t : pytype) :
  frames (grows_except l) (Heap.member_of fuel x v t).
Proof.
  unfold Heap.member_of. destruct t, v; try apply frames_ret.
  apply frames_contains.
Qed.

(** [rtn_dct[k] = v] changes the object at [l] only. *)
Lemma frames_set_item (k : string) (v : Heap.hvalue) :
  frames (grows_except l) (Heap.set_item l k v).
Proof.
  unfold Heap.set_item. apply frames_bind; [apply frames_get_dict|].
  intros d h res h' [= _ <-] r o Hr Ho.
  exists o. split; [|apply grown_refl].
  now rewrite nth_error_update_other.
Qed.

(** [append] lets a list grow. *)
Lemma frames_append (old : Heap.ref) (x : Heap.hvalue) :
  frames (grows_except l)
    (Heap.mbind (Heap.read old) (fun dst =>
       match dst with
       | Heap.OList olds => Heap.write old (Heap.OList (olds ++ [x]))
       | Heap.ODict _ => Heap.stuck
       end)).
Proof.
  intros h res h' H. unfold Heap.mbind, Heap.read in H.
  destruct (nth_error h old) as [[olds|d]|] eqn:E; try discriminate.
  injection H as _ <-. intros r o _ Ho.
  destruct (Nat.eq_dec r old) as [->|Hne].
  - rewrite E in Ho. injection Ho as <-.
    exists (Heap.OList (olds ++ [x])). split.
    + apply nth_error_update_same. apply nth_error_Some. congruence.
    + simpl. eauto.
  - exists o. split; [|apply grown_refl]. now rewrite nth_error_update_other.
Qed.

Lemma frames_extend_loop (fuel n : nat) (v old : Heap.ref) :
  forall i, frames (grows_except l) (Heap.extend_loop fuel n v old i).
Proof.
  induction n as [|n IH]; intros i; simpl; [apply frames_stuck|].
  apply frames_bind; [apply frames_read|].
  intros [items|d]; [|apply frames_stuck].
  destruct (nth_error items i) as [x|]; [|apply frames_ret].
  apply frames_bind; [apply frames_contains|]. intros present.
  apply frames_bind; [|intros ?; apply IH].
  destruct present; [apply frames_ret | apply frames_append].
Qed.

Lemma frames_for_each {A} (f : A -> Heap.M unit) (items : list A) :
  (forall x, frames (grows_except l) (f x)) ->
  frames (grows_except l) (Heap.for_each f items).
Proof.
  intros Hf. induction items as [|x items IH]; simpl; [apply frames_ret|].
  apply frames_bind; [apply Hf | intros ?; exact IH].
Qed.

Variable fuel : nat.
Variable dict_merge_rec : list Heap.hvalue -> bool -> Heap.M Heap.hvalue.
Variable add_keys : bool.
Hypothesis Hrec : forall args ak, frames grows (dict_merge_rec args ak).

Lemma frames_rec (args : list Heap.hvalue) (ak : bool) :
  frames (grows_except l) (dict_merge_rec args ak).
Proof. intros h res h' H. apply grows_grows_except. eapply Hrec; eauto. Qed.

Lemma frames_merge_step (kv : string * Heap.hvalue) :
  frames (grows_except l) (Heap.merge_step fuel dict_merge_rec add_keys l kv).
Proof.
  destruct kv as [k v]. unfold Heap.merge_step.
  apply frames_bind; [apply frames_get_dict|]. intros d.
  destruct (Heap.hget k d) as [old|]; [|apply frames_set_item].
  apply frames_bind; [apply frames_truthy|]. intros t.
  destruct (negb t); [apply frames_set_item|].
  apply frames_bind; [apply frames_type_of|]. intros tv.
  apply frames_bind; [apply frames_type_of|]. intros told.
  destruct (negb (issubclass tv told)).
  - apply frames_bind; [apply frames_member_of|]. intros [|]; [apply frames_set_item|].
    apply frames_bind; [apply frames_member_of|].
    intros [|]; [apply frames_set_item | apply frames_raise].
  - destruct told, tv; try apply frames_set_item;
      try (destruct v, old; try apply frames_stuck; apply frames_extend_loop).
    apply frames_bind; [apply frames_rec | intros r; apply frames_set_item].
Qed.

Lemma frames_merge_layer (merge_dct : Heap.hvalue) :
  frames (grows_except l) (Heap.merge_layer fuel dict_merge_rec add_keys l merge_dct).
Proof.
  unfold Heap.merge_layer.
  apply frames_bind; [apply frames_get_dict|]. intros items.
  apply frames_bind; [apply frames_get_dict|]. intros present.
  apply frames_for_each. apply frames_merge_step.
Qed.
End Frames.

Lemma get_dict_same_store (v : Heap.hvalue) (h : Heap.heap)
    (res : result (list (string * Heap.hvalue))) (h0 : Heap.heap) :
  Heap.get_dict v h = Some (res, h0) -> h0 = h.
Proof.
  destruct v as [| | | |r]; simpl;
    unfold Heap.raise, Heap.mbind, Heap.read, Heap.ret;
    try (intros [= _ <-]; reflexivity).
  destruct (nth_error h r) as [[items|items]|]; intros H; inversion H; reflexivity.
Qed.

Lemma frames_dict_merge_body (fuel : nat)
    (dict_merge_rec : list Heap.hvalue -> bool -> Heap.M Heap.hvalue)
    (add_keys : bool) (args : list Heap.hvalue) :
  (forall args ak, frames grows (dict_merge_rec args ak)) ->
  frames grows (Heap.dict_merge_body fuel dict_merge_rec add_keys args).
Proof.
  intros Hrec h res h' H. unfold Heap.dict_merge_body in H.
  destruct args as [|root [|layer layers]].
  - injection H as _ <-. intros r o Ho. exists o. split; [assumption | apply grown_refl].
  - injection H as _ <-. intros r o Ho. exists o. split; [assumption | apply grown_refl].
  - unfold Heap.mbind at 1 in H.
    destruct (Heap.get_dict root h) as [[[d|e] h0]|] eqn:E; [| |discriminate].
    + apply get_dict_same_store in E. subst h0.
      unfold Heap.mbind at 1 in H. unfold Heap.new_object at 1 in H.
      set (l := List.length h) in *.
      assert (Hl : frames (grows_except l)
                     (Heap.mbind
                        (Heap.for_each
                           (Heap.merge_layer fuel dict_merge_rec add_keys l)
                           (layer :: layers))
                        (fun _ => Heap.ret (Heap.HRef l)))).
      { apply frames_bind; [|intros ?; apply frames_ret].
        apply frames_for_each. intros x. now apply frames_merge_layer. }
      apply Hl in H. intros r o Ho.
      assert (Hr : r < l) by (apply nth_error_Some; congruence).
      apply (H r o); [lia|].
      rewrite nth_error_app1 by exact Hr. exact Ho.
    + injection H as _ <-. apply get_dict_same_store in E. subst h0.
      intros r o Ho. exists o. split; [assumption | apply grown_refl].
Qed.

Lemma dict_merge_grows (fuel : nat) :
  forall args add_keys, frames grows (Heap.dict_merge fuel args add_keys).
Proof.
  induction fuel as [|n IH]; intros args add_keys h res h' H; [discriminate|].
  simpl in H. eapply frames_dict_merge_body; [|exact H].
  intros args' ak. apply IH.
Qed.

(** Whatever the layers share, a call of [dict_merge] that ends, with a
    result or with an error, has changed no dictionary that existed before
    the call, and has changed the lists that existed only by appending to
    them: no element is removed or replaced, and no object disappears. *)
Theorem dict_merge_only_appends (fuel : nat) (args : list Heap.hvalue)
    (add_keys : bool) (h : Heap.heap) (res : result Heap.hvalue) (h' : Heap.heap) :
  Heap.dict_merge fuel args add_keys h = Some (res, h') -> grows h h'.
Proof. apply dict_merge_grows. Qed.

Lemma dict_merge_only_appends_witness :
  Heap.dict_merge 4 [Heap.HRef 1; Heap.HRef 3] true
    [Heap.OList [Heap.HInt 1; Heap.HInt 2]; Heap.ODict [("x", Heap.HRef 0)];
     Heap.OList [Heap.HInt 2; Heap.HInt 3]; Heap.ODict [("x", Heap.HRef 2)]]
  = Some (Ok (Heap.HRef 4),
          [Heap.OList [Heap.HInt 1; Heap.HInt 2; Heap.HInt 3];
           Heap.ODict [("x", Heap.HRef 0)];
           Heap.OList [Heap.HInt 2; Heap.HInt 3]; Heap.ODict [("x", Heap.HRef 2)];
           Heap.ODict [("x", Heap.HRef 0)]]) /\
  grows
    [Heap.OList [Heap.HInt 1; Heap.HInt 2]; Heap.ODict [("x", Heap.HRef 0)];
     Heap.OList [Heap.HInt 2; Heap.HInt 3]; Heap.ODict [("x", Heap.HRef 2)]]
    [Heap.OList [Heap.HInt 1; Heap.HInt 2; Heap.HInt 3];
     Heap.ODict [("x", Heap.HRef 0)];
     Heap.OList [Heap.HInt 2; Heap.HInt 3]; Heap.ODict [("x", Heap.HRef 2)];
     Heap.ODict [("x", Heap.HRef 0)]].
Proof.
  split; [reflexivity|].
  apply (dict_merge_only_appends 4 [Heap.HRef 1; Heap.HRef 3] true _
           (Ok (Heap.HRef 4))).
  reflexivity.
Defined.

(** ** Two instances of earlier results *)

Lemma store_agrees_with_plain_witness :
  total_size [layer_a; layer_b; layer_c] < 40 /\
  run_in_store 40 [layer_a; layer_b; layer_c] true
  = run_plain [layer_a; layer_b; layer_c] true.
Proof.
  assert (H : total_size [layer_a; layer_b; layer_c] < 40) by (vm_compute; lia).
  split; [exact H|].
  apply (store_agrees_with_plain [layer_a; layer_b; layer_c] true 40).
  - repeat constructor.
  - exact H.
Defined.

Lemma dot2dict_nested_get_fresh_last_witness :
  exists d, dot2dict (join "." (["properties"; "time"] ++ ["start"])) (VInt 5) = VDict d /\
            nested_get (["properties"; "time"] ++ ["start"]) d = Ok (VInt 5).
Proof.
  apply (dot2dict_nested_get_fresh_last ["properties"; "time"] "start" (VInt 5)).
  - repeat constructor.
  - simpl. intuition discriminate.
Defined.

(** ** The result shares the values it takes over *)

Lemma mbind_inv {A B} (m : Heap.M A) (f : A -> Heap.M B) (h : Heap.heap)
    (res : result B) (h' : Heap.heap) :
  Heap.mbind m f h = Some (res, h') ->
  (exists a h1, m h = Some (Ok a, h1) /\ f a h1 = Some (res, h')) \/
  (exists e, m h = Some (Raise e, h') /\ res = Raise e).
Proof.
  unfold Heap.mbind. destruct (m h) as [[[a|e] h1]|]; [| |discriminate].
  - intros H. left. eauto.
  - intros [= <- <-]. right. eauto.
Qed.

(** A computation that leaves the dictionaries alone leaves the one at [l]
    alone. *)
Lemma frames_keeps_dict {A} (m : Heap.M A) (l : Heap.ref) (h : Heap.heap)
    (res : result A) (h' : Heap.heap) (cur : list (string * Heap.hvalue)) :
  frames (grows_except (S l)) m ->
  m h = Some (res, h') ->
  nth_error h l = Some (Heap.ODict cur) -> nth_error h' l = Some (Heap.ODict cur).
Proof.
  intros Hm Hrun Hl.
  destruct (Hm h res h' Hrun l (Heap.ODict cur)) as (o' & Ho' & G);
    [lia | assumption|].
  simpl in G. congruence.
Qed.

Lemma hget_hset_same (k : string) (v : Heap.hvalue) (d : list (string * Heap.hvalue)) :
  Heap.hget k (Heap.hset k v d) = Some v.
Proof.
  induction d as [|[k' v'] d IH]; simpl.
  - now rewrite String.eqb_refl.
  - destruct (String.eqb k k') eqn:E; simpl; rewrite E; auto.
Qed.

Section SharedValues.
Variables (fuel n : nat) (add_keys : bool) (l : Heap.ref).

(** What one iteration does to the dictionary under construction: the
    entries of the other keys stay, and a key that was not there gets the
    incoming value itself. *)
Lemma merge_step_entries (k : string) (v : Heap.hvalue) (h h' : Heap.heap)
    (cur : list (string * Heap.hvalue)) :
  nth_error h l = Some (Heap.ODict cur) ->
  Heap.merge_step fuel (Heap.dict_merge n) add_keys l (k, v) h = Some (Ok tt, h') ->
  exists cur',
    nth_error h' l = Some (Heap.ODict cur') /\
    (forall k', k' <> k -> Heap.hget k' cur' = Heap.hget k' cur) /\
    (Heap.hget k cur = None -> Heap.hget k cur' = Some v).
Proof.
  intros Hl Hrun.
  assert (Hset : forall x h0 h1,
            nth_error h0 l = Some (Heap.ODict cur) ->
            Heap.set_item l k x h0 = Some (Ok tt, h1) ->
            exists cur',
              nth_error h1 l = Some (Heap.ODict cur') /\
              (forall k', k' <> k -> Heap.hget k' cur' = Heap.hget k' cur) /\
              Heap.hget k cur' = Some x).
  { intros x h0 h1 H0 H. rewrite (run_set_item h0 l cur k x H0) in H.
    injection H as <-. exists (Heap.hset k x cur). repeat split.
    - apply nth_error_update_same. apply nth_error_Some. congruence.
    - intros k' Hk'. apply hget_hset_other. congruence.
    - apply hget_hset_same. }
  assert (Hset_v : forall h0 h1,
            nth_error h0 l = Some (Heap.ODict cur) ->
            Heap.set_item l k v h0 = Some (Ok tt, h1) ->
            exists cur',
              nth_error h1 l = Some (Heap.ODict cur') /\
              (forall k', k' <> k -> Heap.hget k' cur' = Heap.hget k' cur) /\
              (Heap.hget k cur = None -> Heap.hget k cur' = Some v)).
  { intros h0 h1 H0 H. destruct (Hset v h0 h1 H0 H) as (cur' & H1 & H2 & H3).
    exists cur'. auto. }
  unfold Heap.merge_step in Hrun.
  unfold Heap.mbind at 1 in Hrun. rewrite (run_get_dict h l cur Hl) in Hrun.
  destruct (Heap.hget k cur) as [old|] eqn:Hget; [|eapply Hset_v; eauto].
  assert (Hpresent : forall cur',
            nth_error h' l = Some (Heap.ODict cur') ->
            (forall k', k' <> k -> Heap.hget k' cur' = Heap.hget k' cur) ->
            exists cur'',
              nth_error h' l = Some (Heap.ODict cur'') /\
              (forall k', k' <> k -> Heap.hget k' cur'' = Heap.hget k' cur) /\
              (Some old = None -> Heap.hget k cur'' = Some v)).
  { intros cur' H1 H2. exists cur'. repeat split; auto. discriminate. }
  assert (Hset_any : forall x h0,
            nth_error h0 l = Some (Heap.ODict cur) ->
            Heap.set_item l k x h0 = Some (Ok tt, h') ->
            exists cur'',
              nth_error h' l = Some (Heap.ODict cur'') /\
              (forall k', k' <> k -> Heap.hget k' cur'' = Heap.hget k' cur) /\
              (Some old = None -> Heap.hget k cur'' = Some v)).
  { intros x h0 H0 H. destruct (Hset x h0 h' H0 H) as (cur' & H1 & H2 & _).
    now apply (Hpresent cur'). }
  apply mbind_inv in Hrun as [(t & h1 & Ht & Hrun)|(e & _ & [=])].
  apply (frames_keeps_dict _ l h _ h1 cur (frames_truthy (S l) old) Ht) in Hl as Hl1.
  destruct (negb t); [eapply Hset_any; eauto|].
  apply mbind_inv in Hrun as [(tv & h2 & Htv & Hrun)|(e & _ & [=])].
  apply (frames_keeps_dict _ l h1 _ h2 cur (frames_type_of (S l) v) Htv) in Hl1 as Hl2.
  apply mbind_inv in Hrun as [(told & h3 & Htold & Hrun)|(e & _ & [=])].
  apply (frames_keeps_dict _ l h2 _ h3 cur (frames_type_of (S l) old) Htold) in Hl2 as Hl3.
  destruct (negb (issubclass tv told)).
  - apply mbind_inv in Hrun as [(b1 & h4 & Hb1 & Hrun)|(e & _ & [=])].
    apply (frames_keeps_dict _ l h3 _ h4 cur (frames_member_of (S l) _ _ _ _) Hb1)
      in Hl3 as Hl4.
    destruct b1; [eapply Hset_any; eauto|].
    apply mbind_inv in Hrun as [(b2 & h5 & Hb2 & Hrun)|(e & _ & [=])].
    apply (frames_keeps_dict _ l h4 _ h5 cur (frames_member_of (S l) _ _ _ _) Hb2)
      in Hl4 as Hl5.
    destruct b2; [eapply Hset_any; eauto | discriminate].
  - assert (Hloop : forall rv ro,
              Heap.extend_loop fuel fuel rv ro 0 h3 = Some (Ok tt, h') ->
              exists cur'',
                nth_error h' l = Some (Heap.ODict cur'') /\
                (forall k', k' <> k -> Heap.hget k' cur'' = Heap.hget k' cur) /\
                (Some old = None -> Heap.hget k cur'' = Some v)).
    { intros rv ro H. apply (Hpresent cur); [|auto].
      apply (frames_keeps_dict _ l h3 _ h' cur
               (frames_extend_loop (S l) fuel fuel rv ro 0) H Hl3). }
    destruct told, tv; try (eapply Hset_any; eauto; fail);
      try (destruct v, old; try discriminate; eapply Hloop; eauto; fail).
    apply mbind_inv in Hrun as [(r & h4 & Hr & Hrun)|(e & _ & [=])].
    apply dict_merge_grows in Hr.
    destruct (Hr l (Heap.ODict cur) Hl3) as (o' & Ho' & G). simpl in G. subst o'.
    eapply Hset_any; eauto.
Qed.

Lemma merge_loop_entries (items : list (string * Heap.hvalue)) :
  forall (h h' : Heap.heap) (cur : list (string * Heap.hvalue)),
    NoDup (map fst items) ->
    nth_error h l = Some (Heap.ODict cur) ->
    Heap.for_each (Heap.merge_step fuel (Heap.dict_merge n) add_keys l) items h
    = Some (Ok tt, h') ->
    exists cur',
      nth_error h' l = Some (Heap.ODict cur') /\
      forall k,
        match Heap.hget k items with
        | None => Heap.hget k cur' = Heap.hget k cur
        | Some v => Heap.hget k cur = None -> Heap.hget k cur' = Some v
        end.
Proof.
  induction items as [|[k0 v0] items IH]; intros h h' cur Hnd Hl Hrun.
  - injection Hrun as <-. exists cur. split; [assumption | reflexivity].
  - inversion Hnd as [|? ? Hk0 Hnd']; subst. cbn [Heap.for_each] in Hrun.
    apply mbind_inv in Hrun as [([] & h1 & Hstep & Hrun)|(e & _ & [=])].
    destruct (merge_step_entries k0 v0 h h1 cur Hl Hstep) as (cur1 & Hl1 & Hother & Hnew).
    destruct (IH h1 h' cur1 Hnd' Hl1 Hrun) as (cur' & Hl' & Hall).
    exists cur'. split; [assumption|]. intros k. specialize (Hall k). simpl.
    destruct (String.eqb_spec k k0) as [->|Hne].
    + assert (Hnone : Heap.hget k0 items = None).
      { clear -Hk0. induction items as [|[k v] items IH]; [reflexivity|]. simpl in *.
        destruct (String.eqb_spec k0 k) as [->|_]; [tauto|]. apply IH. tauto. }
      rewrite Hnone in Hall. intros Habsent. rewrite Hall. auto.
    + rewrite <- (Hother k Hne).
      destruct (Heap.hget k items); [|exact Hall]. exact Hall.
Qed.
End SharedValues.

(** The dictionary that [dict_merge] returns is a new object, but the
    values it takes over from the second layer are not copied: for a key
    that the first layer does not have, the result holds the very value of
    the second layer, for a list or a dictionary the same object.  So a
    later change of that object through the result shows in the layer, and
    the other way round. *)
Theorem dict_merge_shares_new_values (fuel : nat) (h h' : Heap.heap)
    (ra rb : Heap.ref) (da db : list (string * Heap.hvalue)) (k : string)
    (v r : Heap.hvalue) :
  nth_error h ra = Some (Heap.ODict da) ->
  nth_error h rb = Some (Heap.ODict db) ->
  NoDup (map fst db) ->
  Heap.hget k da = None -> Heap.hget k db = Some v ->
  Heap.dict_merge fuel [Heap.HRef ra; Heap.HRef rb] true h = Some (Ok r, h') ->
  exists items,
    r = Heap.HRef (List.length h) /\
    nth_error h' (List.length h) = Some (Heap.ODict items) /\
    Heap.hget k items = Some v.
Proof.
  intros Ha Hb Hnd Hka Hkb Hrun.
  destruct fuel as [|n]; [discriminate|].
  cbn [Heap.dict_merge] in Hrun. unfold Heap.dict_merge_body in Hrun.
  unfold Heap.mbind at 1 in Hrun. rewrite (run_get_dict h ra da Ha) in Hrun.
  unfold Heap.mbind at 1 in Hrun. unfold Heap.new_object at 1 in Hrun.
  set (l := List.length h) in *. set (h1 := h ++ [Heap.ODict da]) in *.
  assert (Hl1 : nth_error h1 l = Some (Heap.ODict da)).
  { unfold h1, l. rewrite nth_error_app2 by lia. now rewrite Nat.sub_diag. }
  assert (Hb1 : nth_error h1 rb = Some (Heap.ODict db)).
  { unfold h1. rewrite nth_error_app1; [assumption|].
    apply nth_error_Some. congruence. }
  apply mbind_inv in Hrun as [([] & h2 & Hloop & Hret)|(e & _ & [=])].
  injection Hret as <- <-.
  cbn [Heap.for_each] in Hloop.
  apply mbind_inv in Hloop as [([] & h3 & Hlayer & Hret)|(e & _ & [=])].
  injection Hret as <-.
  unfold Heap.merge_layer in Hlayer.
  unfold Heap.mbind at 1 in Hlayer. rewrite (run_get_dict h1 rb db Hb1) in Hlayer.
  unfold Heap.mbind at 1 in Hlayer. rewrite (run_get_dict h1 l da Hl1) in Hlayer.
  destruct (merge_loop_entries (S n) n true l db h1 h3 da Hnd Hl1 Hlayer)
    as (items & Hitems & Hall).
  exists items. repeat split; [assumption|].
  specialize (Hall k). rewrite Hkb in Hall. auto.
Qed.

Lemma dict_merge_shares_new_values_witness :
  exists items,
    Heap.HRef 4 = Heap.HRef 4 /\
    nth_error
      [Heap.OList [Heap.HInt 1]; Heap.ODict [("x", Heap.HRef 0)];
       Heap.OList [Heap.HInt 2]; Heap.ODict [("y", Heap.HRef 2)];
       Heap.ODict [("x", Heap.HRef 0); ("y", Heap.HRef 2)]] 4
    = Some (Heap.ODict items) /\
    Heap.hget "y" items = Some (Heap.HRef 2).
Proof.
  apply (dict_merge_shares_new_values 3
           [Heap.OList [Heap.HInt 1]; Heap.ODict [("x", Heap.HRef 0)];
            Heap.OList [Heap.HInt 2]; Heap.ODict [("y", Heap.HRef 2)]]
           _ 1 3 [("x", Heap.HRef 0)] [("y", Heap.HRef 2)] "y" (Heap.HRef 2)
           (Heap.HRef 4)); try reflexivity.
  repeat constructor. simpl. tauto.
Defined.

(** ** Merging a layer a second time *)

Section FixedPoint.
Variable f : value -> value -> result value.
Variable selected : string -> bool.

Lemma merge_items_fixed (items r : dict) :
  (forall k v, In (k, v) items -> selected k = true ->
               exists x, dict_get k r = Some x /\ merge_entry f (Some x) v = Ok x) ->
  merge_items f selected r items = Ok r.
Proof.
  induction items as [|[k v] items IH]; intros H; [reflexivity|].
  rewrite merge_items_cons.
  assert (IH' : merge_items f selected r items = Ok r)
    by (apply IH; intros k' v' Hin; apply H; now right).
  destruct (selected k) eqn:E; [|assumption].
  destruct (H k v (or_introl eq_refl) E) as (x & Hget & Hx).
  rewrite Hget, Hx. simpl. now rewrite dict_set_same_value.
Qed.
End FixedPoint.

Lemma key_filter_after (add_keys : bool) (rtn layer r : dict) (k : string) :
  merge_layer add_keys rtn layer = Ok r ->
  key_filter add_keys r k = true -> key_filter add_keys rtn k = true.
Proof.
  intros Hm. unfold key_filter. destruct add_keys; [reflexivity|]. simpl.
  unfold merge_layer in Hm. apply merge_items_keep_keys in Hm.
  - intros H. apply dict_mem_In. rewrite <- Hm. now apply dict_mem_In.
  - intros k' Hk'. exact Hk'.
Qed.

Lemma merge_entry_absorbs (add_keys : bool) (o : option value) (v x : value) :
  absorbs add_keys v -> wf_option o -> wf v = true ->
  merge_entry (merge_value add_keys) o v = Ok x ->
  merge_entry (merge_value add_keys) (Some x) v = Ok x.
Proof.
  intros Habs Ho Hv H.
  assert (Hsame : merge_entry (merge_value add_keys) (Some v) v = Ok v).
  { simpl. destruct (truthy v); [now apply merge_value_same | reflexivity]. }
  destruct o as [old|]; simpl in H; [|injection H as <-; exact Hsame].
  destruct (truthy old) eqn:T; [|injection H as <-; exact Hsame].
  apply (Habs old x); auto.
Qed.

Lemma merge_layer_absorbs (add_keys : bool) (rtn layer r : dict) :
  wf (VDict rtn) = true -> wf (VDict layer) = true ->
  (forall k v, In (k, v) layer -> absorbs add_keys v) ->
  merge_layer add_keys rtn layer = Ok r ->
  merge_layer add_keys r layer = Ok r.
Proof.
  intros Wrtn Wlayer Habs Hm. unfold merge_layer.
  apply merge_items_fixed. intros k v Hin Hsel.
  apply wf_VDict in Wlayer as [Hnd Wvals].
  apply wf_VDict in Wrtn as [_ Wrtn].
  pose proof (key_filter_after add_keys rtn layer r k Hm Hsel) as Hsel0.
  unfold merge_layer in Hm.
  pose proof (merge_items_get _ _ layer rtn r Hnd Hm k) as G.
  rewrite Hsel0, (NoDup_dict_get layer k v Hnd Hin) in G. simpl in G.
  apply bind_ok in G as (x & Hx & [= G]).
  exists x. split; [congruence|].
  apply (merge_entry_absorbs add_keys (dict_get k rtn)); eauto.
  intros old Hold. apply (Wrtn k old). now apply dict_get_In.
Qed.

Lemma merge_value_absorbs (add_keys : bool) (v : value) : absorbs add_keys v.
Proof.
  induction v as [| b | z | s | l _ | d IH] using value_nested_ind;
    intros old x Wold Wv Told; rewrite merge_value_cases;
    destruct old as [| b' | z' | s' | l' | d']; cbn [merge_cases];
    repeat match goal with
           | |- (if ?c then _ else _) = _ -> _ =>
               let E := fresh "E" in destruct c eqn:E
           end;
    try discriminate;
    try (match goal with |- Ok _ = Ok _ -> _ => intros [= <-] end);
    cbn [merge_entry];
    try (rewrite Told, merge_value_cases; cbn [merge_cases]; rewrite ?E;
         reflexivity);
    try (match goal with
         | |- (if truthy ?v then merge_value _ ?v ?v else _) = _ =>
             destruct (truthy v); [apply merge_value_same; assumption | reflexivity]
         end).
  - (* a list over a list *)
    destruct (truthy (VList (extend_unique l' l))) eqn:T; [|exfalso].
    + rewrite merge_value_cases. cbn [merge_cases]. f_equal. f_equal.
      apply extend_unique_absorb. intros e He.
      apply py_in_extend_r; [|assumption]. rewrite wf_VList in Wv. auto.
    + apply truthy_VList in Told.
      pose proof (extend_unique_not_nil l' l Told) as Hne.
      apply truthy_VList in Hne. congruence.
  - (* a dictionary over a dictionary *)
    intros H. apply bind_ok in H as (r & Hr & [= <-]). cbn [merge_entry].
    assert (Tr : truthy (VDict r) = true).
    { apply truthy_VDict. apply wf_VDict in Wv as [Hnd _].
      eapply merge_layer_truthy; eauto. now apply truthy_VDict. }
    rewrite Tr, merge_value_cases. cbn [merge_cases].
    rewrite (merge_layer_absorbs add_keys d' d r); auto.
    intros k v Hin. rewrite Forall_forall in IH. apply (IH (k, v) Hin).
Qed.


